(** * studio: pose scene extension, diagnostics summary and chart bridge

    A shallow embedding of
    - [packages/studio-base/src/panels/ThreeDeeRender/renderables/Poses.ts],
    - [packages/studio-base/src/panels/diagnostics/DiagnosticSummary.tsx],
    - [app/components/Chart/worker/ChartJSManager.ts],
    followed by the properties established about them.

    JavaScript objects used as dictionaries are finite maps, objects with
    an identity live in a store indexed by allocation order, numbers are
    binary64 floats, bigints are integers, and a raised [TypeError] is an
    explicit outcome. *)

From Stdlib Require Import Floats ZArith Ascii String.
From stdpp Require Import gmap strings list sorting pretty.

(* A decimal literal denotes the nearest binary64 value, as it does in
   JavaScript source text. *)
Set Warnings "-inexact-float,-register-all".

(** ** JavaScript values *)

Module Js.

Inductive jsval :=
  | JUndefined
  | JNull
  | JBool (b : bool)
  | JNum (n : float)
  | JStr (s : string)
  | JArr (elems : list jsval).

(** The result of evaluating an expression that may raise. *)
Inductive completion (A : Type) :=
  | Return (a : A)
  | ThrowTypeError.
Arguments Return {A} a.
Arguments ThrowTypeError {A}.

(** How a call ended; the state it leaves behind is returned next to it. *)
Inductive outcome := Returned | Threw.

(** [{...a, ...b}]: the own properties of [a], then those of [b]. *)
Definition spread (a b : gmap string jsval) : gmap string jsval := b ∪ a.

(** [{...a, ...b}] where [b] may be [undefined] (spreading [undefined]
    copies nothing). *)
Definition spread_opt (a : gmap string jsval) (b : option (gmap string jsval))
  : gmap string jsval :=
  match b with
  | Some o => spread a o
  | None => a
  end.

(** An object literal made of spreads only, [{...a, ...b, ...c}]: a new
    object receiving the properties of each part in turn. *)
Definition spread_all (parts : list (gmap string jsval)) : gmap string jsval :=
  foldl spread ∅ parts.

(** [o.k] on an object. *)
Definition get (o : gmap string jsval) (k : string) : jsval :=
  default JUndefined (o !! k).

(** [v[i]] for a numeric index: raises on [undefined] and [null]. *)
Definition index (v : jsval) (i : nat) : completion jsval :=
  match v with
  | JUndefined | JNull => ThrowTypeError
  | JArr elems => Return (default JUndefined (elems !! i))
  | JStr s =>
      Return (match String.get i s with
              | Some c => JStr (String c EmptyString)
              | None => JUndefined
              end)
  | JBool _ | JNum _ => Return JUndefined
  end.

(** [Math.sqrt(K[i])] on an array of numbers: an index out of range
    reads [undefined], whose square root is [NaN]. *)
Definition Math_sqrt (x : option float) : float :=
  match x with
  | Some n => PrimFloat.sqrt n
  | None => nan
  end.

End Js.

(** ** ROS message types ([../ros], [../transforms]) *)

Module Ros.
Import Js.

Record Time := { sec : Z; nsec : Z }.

(** Modelled from the spec: [TIME_ZERO] of [../ros], the zero time. *)
Definition TIME_ZERO : Time := {| sec := 0; nsec := 0 |}.

(** [toNanoSec] of [@foxglove/rostime]. *)
Definition toNanoSec (t : Time) : Z := (sec t * 1000000000 + nsec t)%Z.

Record Header := { frame_id : string; stamp : Time }.

Record Vector3 (A : Type) := { x : A; y : A; z : A }.
Arguments Build_Vector3 {A} _ _ _.
Arguments x {A} _.
Arguments y {A} _.
Arguments z {A} _.

Record Quaternion := { qx : float; qy : float; qz : float; qw : float }.

Record Pose := { position : Vector3 float; orientation : Quaternion }.

Record PoseWithCovariance := { pc_pose : Pose; covariance : list float }.

Record PoseStamped := { ps_header : Header; ps_pose : Pose }.

Record PoseWithCovarianceStamped :=
  { pcs_header : Header; pcs_pose : PoseWithCovariance }.

(** [PoseStamped | PoseWithCovarianceStamped]; the source tells the two
    apart with ["covariance" in poseMessage.pose]. *)
Inductive PoseMessage :=
  | Stamped (m : PoseStamped)
  | WithCovariance (m : PoseWithCovarianceStamped).

Definition header (m : PoseMessage) : Header :=
  match m with
  | Stamped m => ps_header m
  | WithCovariance m => pcs_header m
  end.

(** Modelled from the spec: [makePose()] of [../transforms], the
    identity-like default pose (zero position, identity orientation). *)
Definition makePose : Pose :=
  {| position := {| x := 0%float; y := 0%float; z := 0%float |};
     orientation := {| qx := 0%float; qy := 0%float; qz := 0%float; qw := 1%float |} |}.

(** Colours are kept as the calls of [../color] that build them; nothing
    below looks inside a colour. *)
Inductive ColorRGBA :=
  | makeRgba
  | stringToRgba (output : ColorRGBA) (colorStr : jsval).

Inductive MarkerType := ARROW | SPHERE.
Inductive MarkerAction := ADD.

Record Marker := {
  m_header : Header;
  m_ns : string;
  m_id : Z;
  m_type : MarkerType;
  m_action : MarkerAction;
  m_pose : Pose;
  m_scale : Vector3 jsval;
  m_color : ColorRGBA;
  m_lifetime : Time;
  m_frame_locked : bool;
  m_points : list (Vector3 float);
  m_colors : list ColorRGBA;
  m_text : string;
  m_mesh_resource : string;
  m_mesh_use_embedded_materials : bool
}.

End Ros.

(** ** Message normalisation *)

Module Normalize.
Import Js Ros.

(** [PartialMessage<T>]: every field, at every depth, may be absent. *)
Record PartialTime := { p_sec : option Z; p_nsec : option Z }.
Record PartialHeader :=
  { p_frame_id : option string; p_stamp : option PartialTime }.
Record PartialVector3 :=
  { p_x : option float; p_y : option float; p_z : option float }.
Record PartialQuaternion :=
  { p_qx : option float; p_qy : option float;
    p_qz : option float; p_qw : option float }.
Record PartialPose :=
  { p_position : option PartialVector3;
    p_orientation : option PartialQuaternion }.
Record PartialPoseWithCovariance :=
  { p_pc_pose : option PartialPose; p_covariance : option (list float) }.
Record PartialPoseStamped :=
  { p_ps_header : option PartialHeader; p_ps_pose : option PartialPose }.
Record PartialPoseWithCovarianceStamped :=
  { p_pcs_header : option PartialHeader;
    p_pcs_pose : option PartialPoseWithCovariance }.

(** Modelled from the spec: [normalizeTime] of [../normalizeMessages];
    an omitted scalar becomes zero. *)
Definition normalizeTime (t : option PartialTime) : Time :=
  {| sec := default 0%Z (t ≫= p_sec); nsec := default 0%Z (t ≫= p_nsec) |}.

(** Modelled from the spec: [normalizeHeader] of [../normalizeMessages];
    an omitted frame id becomes the empty string, an omitted stamp the
    zero time. *)
Definition normalizeHeader (h : option PartialHeader) : Header :=
  {| frame_id := default EmptyString (h ≫= p_frame_id);
     stamp := normalizeTime (h ≫= p_stamp) |}.

(** Modelled from the spec: [normalizeVector3] of [../normalizeMessages];
    an omitted vector is the zero vector. *)
Definition normalizeVector3 (v : option PartialVector3) : Vector3 float :=
  {| x := default 0%float (v ≫= p_x);
     y := default 0%float (v ≫= p_y);
     z := default 0%float (v ≫= p_z) |}.

(** Modelled from the spec: [normalizeQuaternion] of
    [../normalizeMessages]; the identity-like default of an orientation is
    the identity rotation. *)
Definition normalizeQuaternion (q : option PartialQuaternion) : Quaternion :=
  {| qx := default 0%float (q ≫= p_qx);
     qy := default 0%float (q ≫= p_qy);
     qz := default 0%float (q ≫= p_qz);
     qw := default 1%float (q ≫= p_qw) |}.

(** Modelled from the spec: [normalizePose] of [../normalizeMessages]. *)
Definition normalizePose (p : option PartialPose) : Pose :=
  {| position := normalizeVector3 (p ≫= p_position);
     orientation := normalizeQuaternion (p ≫= p_orientation) |}.

(** Modelled from the spec: [normalizeMatrix6] of [../normalizeMessages];
    an omitted matrix is the zero covariance matrix of fixed size 36. *)
Definition normalizeMatrix6 (mat : option (list float)) : list float :=
  match mat with
  | Some m => m
  | None => replicate 36 0%float
  end.

Definition normalizePoseStamped (pose : PartialPoseStamped) : PoseStamped :=
  {| ps_header := normalizeHeader (p_ps_header pose);
     ps_pose := normalizePose (p_ps_pose pose) |}.

Definition normalizePoseWithCovariance
    (pose : option PartialPoseWithCovariance) : PoseWithCovariance :=
  let covariance := normalizeMatrix6 (pose ≫= p_covariance) in
  {| pc_pose := normalizePose (pose ≫= p_pc_pose); covariance := covariance |}.

Definition normalizePoseWithCovarianceStamped
    (message : PartialPoseWithCovarianceStamped) : PoseWithCovarianceStamped :=
  {| pcs_header := normalizeHeader (p_pcs_header message);
     pcs_pose := normalizePoseWithCovariance (p_pcs_pose message) |}.





End Normalize.

(** ** The pose scene extension ([renderables/Poses.ts]) *)

Module Poses.
Import Js Ros Normalize.

(** References to objects, in allocation order. *)
Abbreviation loc := nat (only parsing).

(** [LayerSettingsPose] and [Partial<LayerSettingsPose>] values are plain
    objects; their properties are [visible], [scale], [color],
    [showCovariance] and [covarianceColor]. *)
Abbreviation LayerSettingsPose := (gmap string jsval) (only parsing).

Definition DEFAULT_SCALE : jsval :=
  JArr [JNum 1%float; JNum 0.15%float; JNum 0.15%float].

(** Modelled from the spec: the RGBA strings that [rgbaToCssString] of
    [../color] renders for [DEFAULT_COLOR] and [DEFAULT_COVARIANCE_COLOR];
    no property below depends on their spelling. *)
Definition DEFAULT_COLOR_STR : string := "rgba(124, 107, 255, 1)".
Definition DEFAULT_COVARIANCE_COLOR_STR : string := "rgba(198, 107, 255, 0.25)".

Definition DEFAULT_SETTINGS : LayerSettingsPose :=
  list_to_map
    [ ("visible", JBool true);
      ("scale", DEFAULT_SCALE);
      ("color", JStr DEFAULT_COLOR_STR);
      ("showCovariance", JBool true);
      ("covarianceColor", JStr DEFAULT_COVARIANCE_COLOR_STR) ].

(** Modelled from the spec: the arrow primitive ([markers/RenderableArrow]),
    an owned child with an identity that is mutated in place and keeps the
    geometry description it was last given. *)
Record RenderableArrow := { arrow_ref : loc; arrow_marker : Marker }.

Definition new_RenderableArrow (l : loc) (marker : Marker) : RenderableArrow :=
  {| arrow_ref := l; arrow_marker := marker |}.

Definition arrow_update (a : RenderableArrow) (marker : Marker) : RenderableArrow :=
  {| arrow_ref := arrow_ref a; arrow_marker := marker |}.

(** Modelled from the spec: the sphere primitive ([markers/RenderableSphere]),
    an owned child with an identity, a visibility flag (set on creation,
    as for every scene object) and the geometry description it was last
    given. *)
Record RenderableSphere :=
  { sphere_ref : loc; sphere_visible : jsval; sphere_marker : Marker }.

Definition new_RenderableSphere (l : loc) (marker : Marker) : RenderableSphere :=
  {| sphere_ref := l; sphere_visible := JBool true; sphere_marker := marker |}.

Definition sphere_set_visible (s : RenderableSphere) (v : jsval) : RenderableSphere :=
  {| sphere_ref := sphere_ref s; sphere_visible := v;
     sphere_marker := sphere_marker s |}.

Definition sphere_update (s : RenderableSphere) (marker : Marker) : RenderableSphere :=
  {| sphere_ref := sphere_ref s; sphere_visible := sphere_visible s;
     sphere_marker := marker |}.

Record PoseUserData := {
  receiveTime : Z;
  messageTime : Z;
  frameId : string;
  pose : Pose;
  settingsPath : list string;
  settings : LayerSettingsPose;
  topic : string;
  poseMessage : PoseMessage;
  arrow : RenderableArrow;
  sphere : option RenderableSphere
}.

(** A [PoseRenderable]: its user data and the children added to it. *)
Record PoseRenderable := { userData : PoseUserData; added : list loc }.

Definition createArrowMarker (poseMessage : PoseMessage)
    (settings : LayerSettingsPose) : completion Marker :=
  match index (get settings "scale") 0 with
  | ThrowTypeError => ThrowTypeError
  | Return sx =>
  match index (get settings "scale") 1 with
  | ThrowTypeError => ThrowTypeError
  | Return sy =>
  match index (get settings "scale") 2 with
  | ThrowTypeError => ThrowTypeError
  | Return sz =>
      Return
        {| m_header := header poseMessage;
           m_ns := "";
           m_id := 0;
           m_type := ARROW;
           m_action := ADD;
           m_pose := makePose;
           m_scale := {| x := sx; y := sy; z := sz |};
           m_color := stringToRgba makeRgba (get settings "color");
           m_lifetime := TIME_ZERO;
           m_frame_locked := true;
           m_points := [];
           m_colors := [];
           m_text := "";
           m_mesh_resource := "";
           m_mesh_use_embedded_materials := false |}
  end end end.

(** Returns [Marker | undefined]; [None] stands for [undefined]. *)
Definition createSphereMarker (poseMessage : PoseWithCovarianceStamped)
    (settings : LayerSettingsPose) : option Marker :=
  let K := covariance (pcs_pose poseMessage) in
  let scale :=
    {| x := JNum (Math_sqrt (K !! 0%nat));
       y := JNum (Math_sqrt (K !! 7%nat));
       z := JNum (Math_sqrt (K !! 14%nat)) |} in
  Some
    {| m_header := pcs_header poseMessage;
       m_ns := "";
       m_id := 1;
       m_type := SPHERE;
       m_action := ADD;
       m_pose := makePose;
       m_scale := scale;
       m_color := stringToRgba makeRgba (get settings "covarianceColor");
       m_lifetime := TIME_ZERO;
       m_frame_locked := true;
       m_points := [];
       m_colors := [];
       m_text := "";
       m_mesh_resource := "";
       m_mesh_use_embedded_materials := false |}.

(** The renderer configuration: [config.topics] maps a topic name to its
    saved partial settings; [config_rest] holds the other top-level
    entries, each an object of objects. *)
Record RendererConfig := {
  topics : gmap string (gmap string jsval);
  config_rest : gmap string (gmap string (gmap string jsval))
}.

(** [value == undefined]: the value is [undefined] or [null]. *)
Definition nullish (value : jsval) : bool :=
  match value with
  | JUndefined | JNull => true
  | _ => false
  end.

(** One settings object after an edit of [field]: a value is stored under
    the field, creating the object when there is none; a nullish value
    removes the field from the object, if there is one. *)
Definition save_field (field : string) (value : jsval)
    (entry : option (gmap string jsval)) : option (gmap string jsval) :=
  if nullish value then delete field <$> entry
  else Some (<[field := value]> (default ∅ entry)).

(** Modelled from the spec: [SceneExtension.saveSetting] persists the edit
    on the configuration by its path. A value is stored under the three
    path segments with a deep set, creating the objects on the way; a
    nullish value unsets the path instead, so that the field falls back to
    its default and is never stored as [undefined]: the field is removed
    from the object at the first two segments, and nothing changes when
    that object is not there. Other path lengths are never passed by the
    caller and store nothing here. *)
Definition saveSetting (path : list string) (value : jsval)
    (config : RendererConfig) : RendererConfig :=
  match path with
  | [root; name; field] =>
      if decide (root = "topics") then
        {| topics := partial_alter (save_field field value) name (topics config);
           config_rest := config_rest config |}
      else
        {| topics := topics config;
           config_rest :=
             partial_alter
               (λ group,
                  if nullish value
                  then partial_alter (save_field field value) name <$> group
                  else Some (partial_alter (save_field field value) name
                               (default ∅ group)))
               root (config_rest config) |}
  | _ => config
  end.

(** The extension: the renderer configuration it reads, its [renderables]
    map from topic to renderable, the renderables added to it as scene
    children, the store holding every [PoseRenderable] allocated so far,
    and the next free reference. *)
Record SceneState := {
  config : RendererConfig;
  renderables : gmap string loc;
  scene_children : list loc;
  heap : gmap loc PoseRenderable;
  next_loc : loc
}.

Definition initial (config : RendererConfig) : SceneState :=
  {| config := config; renderables := ∅; scene_children := [];
     heap := ∅; next_loc := 0 |}.

Definition set_message (ud : PoseUserData) (receiveTime : Z)
    (poseMessage : PoseMessage) : PoseUserData :=
  {| receiveTime := receiveTime;
     messageTime := toNanoSec (stamp (header poseMessage));
     frameId := frame_id (header poseMessage);
     pose := pose ud;
     settingsPath := settingsPath ud;
     settings := settings ud;
     topic := topic ud;
     poseMessage := poseMessage;
     arrow := arrow ud;
     sphere := sphere ud |}.

Definition set_arrow (ud : PoseUserData) (a : RenderableArrow) : PoseUserData :=
  {| receiveTime := receiveTime ud; messageTime := messageTime ud;
     frameId := frameId ud; pose := pose ud; settingsPath := settingsPath ud;
     settings := settings ud; topic := topic ud; poseMessage := poseMessage ud;
     arrow := a; sphere := sphere ud |}.

Definition set_pose (ud : PoseUserData) (p : Pose) : PoseUserData :=
  {| receiveTime := receiveTime ud; messageTime := messageTime ud;
     frameId := frameId ud; pose := p; settingsPath := settingsPath ud;
     settings := settings ud; topic := topic ud; poseMessage := poseMessage ud;
     arrow := arrow ud; sphere := sphere ud |}.

Definition set_sphere (ud : PoseUserData) (s : option RenderableSphere)
    : PoseUserData :=
  {| receiveTime := receiveTime ud; messageTime := messageTime ud;
     frameId := frameId ud; pose := pose ud; settingsPath := settingsPath ud;
     settings := settings ud; topic := topic ud; poseMessage := poseMessage ud;
     arrow := arrow ud; sphere := s |}.

Definition set_settings (ud : PoseUserData) (s : LayerSettingsPose)
    : PoseUserData :=
  {| receiveTime := receiveTime ud; messageTime := messageTime ud;
     frameId := frameId ud; pose := pose ud; settingsPath := settingsPath ud;
     settings := s; topic := topic ud; poseMessage := poseMessage ud;
     arrow := arrow ud; sphere := sphere ud |}.

Definition with_userData (r : PoseRenderable) (ud : PoseUserData)
    : PoseRenderable :=
  {| userData := ud; added := added r |}.

(** [_updatePoseRenderable], on the contents of the renderable it is
    handed; [next] is the next free reference, returned advanced when a
    sphere is allocated. *)
Definition _updatePoseRenderable (renderable : PoseRenderable)
    (poseMessage : PoseMessage) (receiveTime : Z) (next : loc)
    : PoseRenderable * loc * outcome :=
  let ud := set_message (userData renderable) receiveTime poseMessage in
  match createArrowMarker poseMessage (settings ud) with
  | ThrowTypeError => (with_userData renderable ud, next, Threw)
  | Return arrowMarker =>
      let ud := set_arrow ud (arrow_update (arrow ud) arrowMarker) in
      match poseMessage with
      | WithCovariance poseWithCovariance =>
          let ud := set_pose ud (pc_pose (pcs_pose poseWithCovariance)) in
          match createSphereMarker poseWithCovariance (settings ud) with
          | Some sphereMarker =>
              let '(s, next) :=
                match sphere ud with
                | Some s => (s, next)
                | None => (new_RenderableSphere next sphereMarker, S next)
                end in
              let s := sphere_set_visible s (get (settings ud) "showCovariance") in
              let s := sphere_update s sphereMarker in
              (with_userData renderable (set_sphere ud (Some s)), next, Returned)
          | None =>
              match sphere ud with
              | Some s =>
                  let s := sphere_set_visible s (JBool false) in
                  (with_userData renderable (set_sphere ud (Some s)), next, Returned)
              | None => (with_userData renderable ud, next, Returned)
              end
          end
      | Stamped m =>
          (with_userData renderable (set_pose ud (ps_pose m)), next, Returned)
      end
  end.

(** [this._updatePoseRenderable(renderable, ...)] for the renderable
    referenced by [l]: the object is mutated where it is stored. A
    reference always designates a stored object; the last case is there
    only to make the function total. *)
Definition update_in_place (l : loc) (poseMessage : PoseMessage)
    (receiveTime : Z) (st : SceneState) : SceneState * outcome :=
  match heap st !! l with
  | Some renderable =>
      let '(renderable, next, o) :=
        _updatePoseRenderable renderable poseMessage receiveTime (next_loc st) in
      ({| config := config st; renderables := renderables st;
          scene_children := scene_children st;
          heap := <[l := renderable]> (heap st); next_loc := next |}, o)
  | None => (st, Threw)
  end.

Definition addPose (topic : string) (poseMessage : PoseMessage)
    (receiveTime : Z) (st : SceneState) : SceneState * outcome :=
  match renderables st !! topic with
  | Some l => update_in_place l poseMessage receiveTime st
  | None =>
      let userSettings := topics (config st) !! topic in
      let settings := spread_opt DEFAULT_SETTINGS userSettings in
      match createArrowMarker poseMessage settings with
      | ThrowTypeError => (st, Threw)
      | Return arrowMarker =>
          let arrow := new_RenderableArrow (next_loc st) arrowMarker in
          let poseWithCovariance :=
            match poseMessage with
            | WithCovariance m => Some m
            | Stamped _ => None
            end in
          let l := S (next_loc st) in
          let renderable :=
            {| userData :=
                 {| receiveTime := receiveTime;
                    messageTime := toNanoSec (stamp (header poseMessage));
                    frameId := frame_id (header poseMessage);
                    pose :=
                      match poseWithCovariance with
                      | Some m => pc_pose (pcs_pose m)
                      | None =>
                          match poseMessage with
                          | Stamped m => ps_pose m
                          | WithCovariance m => pc_pose (pcs_pose m)
                          end
                      end;
                    settingsPath := ["topics"; topic];
                    settings := settings;
                    topic := topic;
                    poseMessage := poseMessage;
                    arrow := arrow;
                    sphere := None |};
               added := [arrow_ref arrow] |} in
          let '(renderable, next) :=
            match poseWithCovariance with
            | Some m =>
                match createSphereMarker m settings with
                | Some sphereMarker =>
                    let s := new_RenderableSphere (S l) sphereMarker in
                    ({| userData := set_sphere (userData renderable) (Some s);
                        added := added renderable ++ [sphere_ref s] |}, S (S l))
                | None => (renderable, S l)
                end
            | None => (renderable, S l)
            end in
          update_in_place l poseMessage receiveTime
            {| config := config st;
               renderables := <[topic := l]> (renderables st);
               scene_children := scene_children st ++ [l];
               heap := <[l := renderable]> (heap st);
               next_loc := next |}
      end
  end.

Inductive ActionKind := Update | PerformNodeAction.

#[global] Instance ActionKind_eq_dec : EqDecision ActionKind.
Proof. solve_decision. Defined.

(** [SettingsTreeAction]: the action kind and its payload. *)
Record SettingsTreeAction := {
  action : ActionKind;
  payload_path : list string;
  payload_value : jsval
}.

Definition handleSettingsAction (a : SettingsTreeAction) (st : SceneState)
    : SceneState * outcome :=
  let path := payload_path a in
  match action a, path with
  | Update, [_; topicName; _] =>
      let st :=
        {| config := saveSetting path (payload_value a) (config st);
           renderables := renderables st; scene_children := scene_children st;
           heap := heap st; next_loc := next_loc st |} in
      match renderables st !! topicName with
      | Some l =>
          match heap st !! l with
          | Some renderable =>
              let settings' := topics (config st) !! topicName in
              let renderable :=
                with_userData renderable
                  (set_settings (userData renderable)
                     (spread_opt (settings (userData renderable)) settings')) in
              update_in_place l
                (poseMessage (userData renderable))
                (receiveTime (userData renderable))
                {| config := config st; renderables := renderables st;
                   scene_children := scene_children st;
                   heap := <[l := renderable]> (heap st);
                   next_loc := next_loc st |}
          | None => (st, Threw)
          end
      | None => (st, Returned)
      end
  | _, _ => (st, Returned)
  end.

(** [PartialMessageEvent<T>]. *)
Record MessageEvent (T : Type) := {
  ev_topic : string;
  ev_receiveTime : Time;
  ev_message : T
}.
Arguments ev_topic {T} _.
Arguments ev_receiveTime {T} _.
Arguments ev_message {T} _.

Definition handlePoseStamped (messageEvent : MessageEvent PartialPoseStamped)
    (st : SceneState) : SceneState * outcome :=
  let poseMessage := normalizePoseStamped (ev_message messageEvent) in
  let receiveTime := toNanoSec (ev_receiveTime messageEvent) in
  addPose (ev_topic messageEvent) (Stamped poseMessage) receiveTime st.

Definition handlePoseWithCovariance
    (messageEvent : MessageEvent PartialPoseWithCovarianceStamped)
    (st : SceneState) : SceneState * outcome :=
  let poseMessage := normalizePoseWithCovarianceStamped (ev_message messageEvent) in
  let receiveTime := toNanoSec (ev_receiveTime messageEvent) in
  addPose (ev_topic messageEvent) (WithCovariance poseMessage) receiveTime st.

(** What the renderer delivers to the extension. *)
Inductive event :=
  | OnPoseStamped (e : MessageEvent PartialPoseStamped)
  | OnPoseWithCovariance (e : MessageEvent PartialPoseWithCovarianceStamped)
  | OnSettingsAction (a : SettingsTreeAction).

Definition handle (e : event) (st : SceneState) : SceneState * outcome :=
  match e with
  | OnPoseStamped e => handlePoseStamped e st
  | OnPoseWithCovariance e => handlePoseWithCovariance e st
  | OnSettingsAction a => handleSettingsAction a st
  end.

(** Events are processed one at a time; an exception leaves the state as
    mutated so far and the next event is still delivered. *)
Definition run (events : list event) (st : SceneState) : SceneState :=
  foldl (λ st e, fst (handle e st)) st events.

(** *** Vocabulary of the properties *)

(** A value that can be indexed without raising. *)
Definition indexable (v : jsval) : Prop := v ≠ JUndefined ∧ v ≠ JNull.

(** The stored time stamp is the one of the stored message. *)
Definition time_consistent (r : PoseRenderable) : Prop :=
  messageTime (userData r)
  = toNanoSec (stamp (header (poseMessage (userData r)))).

(** The store invariant: the [renderables] map and the store agree, every
    stored renderable is a scene child exactly once, and references below
    [next_loc] are the allocated ones. *)
Record wf (st : SceneState) : Prop := {
  wf_map : ∀ t l, renderables st !! t = Some l →
             ∃ r, heap st !! l = Some r ∧ topic (userData r) = t;
  wf_heap : ∀ l r, heap st !! l = Some r →
              renderables st !! topic (userData r) = Some l;
  wf_time : ∀ l r, heap st !! l = Some r → time_consistent r;
  wf_fresh : ∀ l r, heap st !! l = Some r → l < next_loc st;
  wf_children_nodup : NoDup (scene_children st);
  wf_children : ∀ l, l ∈ scene_children st ↔ is_Some (heap st !! l)
}.

(** The settings a renderable is created with. *)
Definition initial_settings (st : SceneState) (t : string) : LayerSettingsPose :=
  spread_opt DEFAULT_SETTINGS (topics (config st) !! t).

(** An edit the handler acts on: an update whose path has three segments,
    the second of which names the topic. *)
Definition edit (root t field : string) (v : jsval) : SettingsTreeAction :=
  {| action := Update; payload_path := [root; t; field]; payload_value := v |}.

(** An action the handler ignores. *)
Definition ignored (a : SettingsTreeAction) : Prop :=
  action a ≠ Update ∨ length (payload_path a) ≠ 3.

(** The state with its configuration replaced. *)
Definition with_config (st : SceneState) (cfg : RendererConfig) : SceneState :=
  {| config := cfg; renderables := renderables st;
     scene_children := scene_children st; heap := heap st;
     next_loc := next_loc st |}.

(** The settings the next message on a topic is rendered with. *)
Definition effective_settings (st : SceneState) (t : string) : LayerSettingsPose :=
  match renderables st !! t with
  | Some l =>
      match heap st !! l with
      | Some r => settings (userData r)
      | None => ∅
      end
  | None => initial_settings st t
  end.

(** Every renderable's settings already include what is saved for its
    topic. *)
Definition covers (st : SceneState) : Prop :=
  ∀ t l r, renderables st !! t = Some l → heap st !! l = Some r →
    spread_opt (settings (userData r)) (topics (config st) !! t)
    = settings (userData r).

(** The shape a settings path is documented to have:
    [["topics", topicName, fieldName]]. *)
Definition expected_shape (path : list string) : Prop :=
  ∃ topicName fieldName, path = ["topics"; topicName; fieldName].

(** *** Sample data *)

Definition empty_config : RendererConfig := {| topics := ∅; config_rest := ∅ |}.

(** A covariance whose diagonal starts 0.04, 0.09, 0.01. *)
Definition sample_covariance : list float :=
  [ 0.04; 0; 0; 0; 0; 0;
    0; 0.09; 0; 0; 0; 0;
    0; 0; 0.01; 0; 0; 0;
    0; 0; 0; 0; 0; 0;
    0; 0; 0; 0; 0; 0;
    0; 0; 0; 0; 0; 0 ]%float.

(** A [PoseWithCovarianceStamped] message on [/pose] that only carries a
    frame id and a covariance. *)
Definition sample_event : MessageEvent PartialPoseWithCovarianceStamped :=
  {| ev_topic := "/pose";
     ev_receiveTime := {| sec := 5; nsec := 7 |};
     ev_message :=
       {| p_pcs_header :=
            Some {| p_frame_id := Some "map"; p_stamp := None |};
          p_pcs_pose :=
            Some {| p_pc_pose := None;
                    p_covariance := Some sample_covariance |} |} |}.

(** The extension after that message, starting from an empty
    configuration. *)
Definition sample_state : SceneState :=
  run [OnPoseWithCovariance sample_event] (initial empty_config).

End Poses.

(** ** The diagnostics summary ([diagnostics/DiagnosticSummary.tsx]) *)

Module Diagnostics.

Record DiagnosticStatusMessage := {
  level : Z;
  name : string;
  message : string;
  hardware_id : string
}.

Record DiagnosticInfo := {
  status : DiagnosticStatusMessage;
  id : string;
  displayName : string
}.

Record DiagnosticSummaryConfig := {
  minLevel : Z;
  pinnedIds : list string;
  topicToRender : string;
  hardwareIdFilter : string;
  sortByLevel : option bool
}.

(** The helpers of [./util] the summary calls: [getDiagnosticsByLevel]
    returns a [Map] from level to entities, kept here with its entries in
    insertion order; [filterAndSortDiagnostics] takes the entities, the
    hardware id filter and the pinned ids. The properties below hold
    whatever these two compute. *)
Class DiagnosticsUtil := {
  getDiagnosticsByLevel :
    gmap string (gmap string DiagnosticInfo) → list (Z * list DiagnosticInfo);
  filterAndSortDiagnostics :
    list DiagnosticInfo → string → list string → list DiagnosticInfo
}.

(** Modelled from the spec: [toggle] of [util/toggle]; pinning adds the id
    at the end of the pinned list, unpinning removes it. *)
Definition toggle (ids : list string) (item : string) : list string :=
  if bool_decide (item ∈ ids) then filter (λ el, el ≠ item) ids
  else ids ++ [item].

(** [s.split(sep)] for a one-character separator. *)
Fixpoint split (sep : ascii) (s : string) : list string :=
  match s with
  | EmptyString => [EmptyString]
  | String c rest =>
      if decide (c = sep) then EmptyString :: split sep rest
      else
        match split sep rest with
        | part :: parts => String c part :: parts
        | [] => [String c EmptyString]
        end
  end.

(** [Array.prototype.sort()] without a comparator: elements are ordered by
    their string renderings; the sort is stable. *)
Definition Array_sort (l : list Z) : list Z :=
  merge_sort (λ a b, String.leb (pretty a) (pretty b)) l.

(** Modelled from the spec: [filterMap] of [@foxglove/den/collection];
    the pinned ids are resolved in pin order and those without a result
    are skipped, so it keeps the defined results of the callback, in
    order. *)
Definition filterMap {A B} (l : list A) (f : A → option B) : list B := omap f l.

(** lodash [compact] drops falsy elements; entities are objects, none is
    falsy. *)
Definition compact (l : list DiagnosticInfo) : list DiagnosticInfo := l.

(** [nodesByLevel.get(level) ?? []]. *)
Fixpoint Map_get (m : list (Z * list DiagnosticInfo)) (k : Z)
    : list DiagnosticInfo :=
  match m with
  | [] => []
  | (k', v) :: rest => if decide (k' = k) then v else Map_get rest k
  end.

(** What the panel shows. *)
Inductive Summary :=
  | EmptyState (topicToRender : string)
  | ReactNull
  | Rows (nodes : list DiagnosticInfo).

Section summary.
Context `{DiagnosticsUtil}.

(** The callback given to [filterMap] over the pinned ids. *)
Definition pinnedNode (diagnostics : gmap string (gmap string DiagnosticInfo))
    (id : string) : option DiagnosticInfo :=
  match split "|" id with
  | _ :: trimmedHardwareId :: name :: _ =>
      diagnosticsByName ← diagnostics !! trimmedHardwareId;
      diagnosticsByName !! name
  | _ => None
  end.

Definition pinnedNodes (config : DiagnosticSummaryConfig)
    (diagnostics : gmap string (gmap string DiagnosticInfo))
    : list DiagnosticInfo :=
  filterMap (pinnedIds config) (pinnedNode diagnostics).

Definition sortedNodes (config : DiagnosticSummaryConfig)
    (diagnostics : gmap string (gmap string DiagnosticInfo))
    : list DiagnosticInfo :=
  let nodesByLevel := getDiagnosticsByLevel diagnostics in
  let levels := reverse (Array_sort (fst <$> nodesByLevel)) in
  if default true (sortByLevel config) then
    concat ((λ level,
               filterAndSortDiagnostics (Map_get nodesByLevel level)
                 (hardwareIdFilter config) (pinnedIds config)) <$> levels)
  else
    filterAndSortDiagnostics (concat (snd <$> nodesByLevel))
      (hardwareIdFilter config) (pinnedIds config).

(** The [nodes] array of the summary. *)
Definition nodes (config : DiagnosticSummaryConfig)
    (diagnostics : gmap string (gmap string DiagnosticInfo))
    : list DiagnosticInfo :=
  filter (λ n, (minLevel config ≤ level (status n))%Z)
    (compact (pinnedNodes config diagnostics) ++ sortedNodes config diagnostics).

Definition summary (config : DiagnosticSummaryConfig)
    (diagnostics : gmap string (gmap string DiagnosticInfo)) : Summary :=
  if decide (size diagnostics = 0) then EmptyState (topicToRender config)
  else
    match nodes config diagnostics with
    | [] => ReactNull
    | nodes => Rows nodes
    end.

(** The rows on screen, top to bottom. *)
Definition rendered (config : DiagnosticSummaryConfig)
    (diagnostics : gmap string (gmap string DiagnosticInfo))
    : list DiagnosticInfo :=
  match summary config diagnostics with
  | Rows nodes => nodes
  | EmptyState _ | ReactNull => []
  end.

End summary.

(** [togglePinned]: the configuration saved when a row's pin is clicked. *)
Definition togglePinned (config : DiagnosticSummaryConfig) (info : DiagnosticInfo)
    : DiagnosticSummaryConfig :=
  {| minLevel := minLevel config;
     pinnedIds := toggle (pinnedIds config) (id info);
     topicToRender := topicToRender config;
     hardwareIdFilter := hardwareIdFilter config;
     sortByLevel := sortByLevel config |}.

(** *** Sample data *)

(** [map.get(k).push(n)], or [map.set(k, [n])] for a new key. *)
Fixpoint Map_push (m : list (Z * list DiagnosticInfo)) (k : Z)
    (n : DiagnosticInfo) : list (Z * list DiagnosticInfo) :=
  match m with
  | [] => [(k, [n])]
  | (k', v) :: rest =>
      if decide (k' = k) then (k', v ++ [n]) :: rest
      else (k', v) :: Map_push rest k n
  end.

(** Stand-ins for the two helpers: entities grouped by level in order of
    appearance; unpinned entities kept as they come. *)
Definition sample_util : DiagnosticsUtil :=
  {| getDiagnosticsByLevel := λ diagnostics,
       let all :=
         (map_to_list diagnostics).*2 ≫= (λ byName, (map_to_list byName).*2) in
       foldl (λ m n, Map_push m (level (status n)) n) [] all;
     filterAndSortDiagnostics := λ nodes _ pinned,
       filter (λ n, id n ∉ pinned) nodes |}.

Definition sample_info (hw nm : string) (lvl : Z) : DiagnosticInfo :=
  {| status := {| level := lvl; name := nm; message := ""; hardware_id := hw |};
     id := "|" +:+ hw +:+ "|" +:+ nm +:+ "|";
     displayName := hw +:+ ": " +:+ nm |}.

(** One hardware id with an entity at level 0 (ok) and one at level 2
    (error). *)
Definition sample_diagnostics : gmap string (gmap string DiagnosticInfo) :=
  {[ "hw" := {[ "quiet" := sample_info "hw" "quiet" 0;
                "loud" := sample_info "hw" "loud" 2 ]} ]}.

(** The ok entity is pinned and the minimum level is 2. *)
Definition sample_config : DiagnosticSummaryConfig :=
  {| minLevel := 2; pinnedIds := ["|hw|quiet|"]; topicToRender := "/diagnostics";
     hardwareIdFilter := ""; sortByLevel := Some true |}.

End Diagnostics.

(** ** The chart worker bridge ([Chart/worker/ChartJSManager.ts]) *)

Module ChartBridge.
Import Js.

(** One entry of [RpcScales]. *)
Record RpcScale := { left : jsval; right : jsval; min : jsval; max : jsval }.

(** The [dataset.data] array and [dataIndex] of a datalabel context. *)
Record DatalabelContext := { dataset_data : list jsval; dataIndex : nat }.

(** The datalabels options the manager writes: whether [listeners.click]
    is the manager's listener, which stores the clicked context. (The
    formatter and colour functions it also installs only affect
    drawing.) *)
Record DatalabelsOptions := { listeners_click : bool }.

(** Chart options: [plugins.datalabels], when present. *)
Record ChartOptions := { plugins_datalabels : option DatalabelsOptions }.

(** The [$zoom] object the zoom plugin attaches to a chart instance: its
    three pan handlers. *)
Record Zoom (Chart Event : Type) := {
  panStartHandler : Event → Chart → Chart;
  panHandler : Event → Chart → Chart;
  panEndHandler : Event → Chart → Chart
}.
Arguments panStartHandler {Chart Event} _.
Arguments panHandler {Chart Event} _.
Arguments panEndHandler {Chart Event} _.

(** Chart.js and its zoom and datalabels plugins, as far as the manager
    relies on them: a chart instance exposes its scales and options, and
    every library call the manager makes is a transformation of the
    instance (the calls are taken to return; [Chart_resize] includes the
    two assignments to the canvas size). [chart_zoom chart] is the
    [$zoom] property of the instance, which the zoom plugin sets when it
    starts and deletes when it stops; [None] stands for [undefined].
    [datalabel_clicked chart event] is the context of the label that the
    datalabels plugin finds clicked when the plugins are notified of
    [event], if any; the plugin then calls the click listener of the
    chart's options. *)
Class ChartJs := {
  Chart : Type;
  Event : Type;
  ChartData : Type;
  chart_scales : Chart → gmap string RpcScale;
  chart_options : Chart → ChartOptions;
  chart_width : Chart → Z;
  chart_height : Chart → Z;
  chart_zoom : Chart → option (Zoom Chart Event);
  Chart_destroy : Chart → Chart;
  Chart_update : Chart → Chart;
  Chart_resize : Z → Z → Chart → Chart;
  with_plugins : ChartOptions → Chart → Chart;
  merge_scales : ChartOptions → Chart → Chart;
  with_data : ChartData → Chart → Chart;
  with_getBoundingClientRect : Event → Event;
  datalabel_clicked : Chart → Event → option DatalabelContext
}.

Section manager.
Context `{ChartJs}.

(** A listener the zoom plugin registered on the fake node or document:
    the event name and what the listener does to the chart. *)
Definition Listener : Type := string * (Event → Chart → Chart).

(** The manager. [_chartInstance] is declared without [undefined] and the
    constructor assigns it before any method can run; [None] is only what
    the optional chaining of [destroy] provides for. *)
Record ChartJSManager := {
  _chartInstance : option Chart;
  _fakeNodeEvents : list Listener;
  _fakeDocumentEvents : list Listener;
  _lastDatalabelClickContext : option DatalabelContext
}.

Definition with_chart (m : ChartJSManager) (c : option Chart) : ChartJSManager :=
  {| _chartInstance := c;
     _fakeNodeEvents := _fakeNodeEvents m;
     _fakeDocumentEvents := _fakeDocumentEvents m;
     _lastDatalabelClickContext := _lastDatalabelClickContext m |}.

Definition with_context (m : ChartJSManager) (ctx : option DatalabelContext)
    : ChartJSManager :=
  {| _chartInstance := _chartInstance m;
     _fakeNodeEvents := _fakeNodeEvents m;
     _fakeDocumentEvents := _fakeDocumentEvents m;
     _lastDatalabelClickContext := ctx |}.

(** [emitter.emit(eventName, event)]: the listeners registered under the
    name run in order, each on the chart the plugin attached it to. *)
Definition emit (listeners : list Listener) (eventName : string) (event : Event)
    (c : Chart) : Chart :=
  foldl (λ c l, if decide (l.1 = eventName) then l.2 event c else c) c listeners.

(** [getScales]: reading [this._chartInstance.scales] raises when there is
    no instance. *)
Definition getScales (m : ChartJSManager) : completion (gmap string RpcScale) :=
  match _chartInstance m with
  | Some c =>
      Return ((λ scale, {| left := left scale; right := right scale;
                           min := min scale; max := max scale |})
              <$> chart_scales c)
  | None => ThrowTypeError
  end.

Definition wheel (event : Event) (m : ChartJSManager)
    : ChartJSManager * completion (gmap string RpcScale) :=
  let event := with_getBoundingClientRect event in
  let m := with_chart m (emit (_fakeNodeEvents m) "wheel" event <$> _chartInstance m) in
  (m, getScales m).

Definition mousedown (event : Event) (m : ChartJSManager)
    : ChartJSManager * completion (gmap string RpcScale) :=
  let event := with_getBoundingClientRect event in
  let m := with_chart m (emit (_fakeNodeEvents m) "mousedown" event <$> _chartInstance m) in
  (m, getScales m).

Definition mousemove (event : Event) (m : ChartJSManager)
    : ChartJSManager * completion (gmap string RpcScale) :=
  let event := with_getBoundingClientRect event in
  let m := with_chart m (emit (_fakeNodeEvents m) "mousemove" event <$> _chartInstance m) in
  (m, getScales m).

Definition mouseup (event : Event) (m : ChartJSManager)
    : ChartJSManager * completion (gmap string RpcScale) :=
  let event := with_getBoundingClientRect event in
  let m := with_chart m (emit (_fakeDocumentEvents m) "mouseup" event <$> _chartInstance m) in
  (m, getScales m).

(** [(this._chartInstance as any).$zoom.handler(event)]: reading the
    handler raises when the instance has no [$zoom] (and when there is no
    instance). *)
Definition pan (handler : Zoom Chart Event → Event → Chart → Chart)
    (event : Event) (m : ChartJSManager)
    : ChartJSManager * completion (gmap string RpcScale) :=
  let event := with_getBoundingClientRect event in
  match _chartInstance m with
  | Some c =>
      match chart_zoom c with
      | Some zoom =>
          let m := with_chart m (Some (handler zoom event c)) in
          (m, getScales m)
      | None => (m, ThrowTypeError)
      end
  | None => (m, ThrowTypeError)
  end.

Definition panstart := pan panStartHandler.
Definition panmove := pan panHandler.
Definition panend := pan panEndHandler.

(** [addFunctionsToConfig]: when the options configure datalabels, the
    click listener becomes the manager's. *)
Definition addFunctionsToConfig (config : ChartOptions) : ChartOptions :=
  match plugins_datalabels config with
  | Some _ => {| plugins_datalabels := Some {| listeners_click := true |} |}
  | None => config
  end.

(** [chartInstance.notifyPlugins("beforeEvent", { event })], as far as the
    manager is concerned: a clicked label makes the plugin call the click
    listener, which stores the context. *)
Definition notifyPlugins_beforeEvent (chartInstance : Chart) (event : Event)
    (m : ChartJSManager) : ChartJSManager :=
  match datalabel_clicked chartInstance event,
        plugins_datalabels (chart_options chartInstance) with
  | Some context, Some {| listeners_click := true |} =>
      with_context m (Some context)
  | _, _ => m
  end.

Definition update (data : ChartData) (options : ChartOptions) (width height : Z)
    (m : ChartJSManager) : ChartJSManager * completion (gmap string RpcScale) :=
  match _chartInstance m with
  | Some instance =>
      let instance := with_plugins (addFunctionsToConfig options) instance in
      let instance := merge_scales options instance in
      let instance := with_data data instance in
      let instance := Chart_update instance in
      let instance :=
        if decide (chart_width instance ≠ width ∨ chart_height instance ≠ height)
        then Chart_resize width height instance
        else instance in
      let m := with_chart m (Some instance) in
      (m, getScales m)
  | None => (m, ThrowTypeError)
  end.

(** [this._chartInstance?.destroy()]. *)
Definition destroy (m : ChartJSManager) : ChartJSManager * outcome :=
  (with_chart m (Chart_destroy <$> _chartInstance m), Returned).

(** What the click listener receives for an event, if it is called. *)
Definition clicked (c : Chart) (event : Event) : option DatalabelContext :=
  match datalabel_clicked c event, plugins_datalabels (chart_options c) with
  | Some context, Some {| listeners_click := true |} => Some context
  | _, _ => None
  end.

(** [context?.dataset.data[context.dataIndex]]. *)
Definition datum (context : option DatalabelContext) : jsval :=
  match context with
  | Some context => default JUndefined (dataset_data context !! dataIndex context)
  | None => JUndefined
  end.

Definition getDatalabelAtEvent (event : Event) (m : ChartJSManager)
    : ChartJSManager * completion jsval :=
  match _chartInstance m with
  | Some chartInstance =>
      let m := notifyPlugins_beforeEvent chartInstance event m in
      let context := _lastDatalabelClickContext m in
      let m := with_context m None in
      (m, Return (datum context))
  | None => (m, ThrowTypeError)
  end.

(** The operations that answer with a scale snapshot. *)
Inductive operation :=
  | Wheel (event : Event)
  | MouseDown (event : Event)
  | MouseMove (event : Event)
  | MouseUp (event : Event)
  | PanStart (event : Event)
  | PanMove (event : Event)
  | PanEnd (event : Event)
  | UpdateChart (data : ChartData) (options : ChartOptions) (width height : Z).

Definition perform (op : operation) (m : ChartJSManager)
    : ChartJSManager * completion (gmap string RpcScale) :=
  match op with
  | Wheel e => wheel e m
  | MouseDown e => mousedown e m
  | MouseMove e => mousemove e m
  | MouseUp e => mouseup e m
  | PanStart e => panstart e m
  | PanMove e => panmove e m
  | PanEnd e => panend e m
  | UpdateChart data options width height => update data options width height m
  end.

End manager.

(** *** Sample data *)

(** A stand-in chart: its scales and whether the zoom plugin's [$zoom] is
    attached. *)
Record SampleChart := {
  sample_scales : gmap string RpcScale;
  sample_zoom : bool
}.

(** A stand-in for the library: [destroy] stops the zoom plugin, which
    deletes [$zoom], and leaves the scales where they are; nothing else
    transforms the chart; the events are [true] for a click on the one
    datalabel and [false] for anything else. *)
Definition sample_chartjs : ChartJs :=
  {| Chart := SampleChart;
     Event := bool;
     ChartData := unit;
     chart_scales := sample_scales;
     chart_options := λ _,
       {| plugins_datalabels := Some {| listeners_click := true |} |};
     chart_width := λ _, 0%Z;
     chart_height := λ _, 0%Z;
     chart_zoom := λ c,
       if sample_zoom c
       then Some {| panStartHandler := λ _ c, c; panHandler := λ _ c, c;
                    panEndHandler := λ _ c, c |}
       else None;
     Chart_destroy := λ c,
       {| sample_scales := sample_scales c; sample_zoom := false |};
     Chart_update := λ c, c;
     Chart_resize := λ _ _ c, c;
     with_plugins := λ _ c, c;
     merge_scales := λ _ c, c;
     with_data := λ _ c, c;
     with_getBoundingClientRect := λ e, e;
     datalabel_clicked := λ _ e,
       if e then Some {| dataset_data := [JStr "label"]; dataIndex := 0 |}
       else None |}.

(** A chart with one scale, to which the zoom plugin has attached
    [$zoom]. *)
Definition sample_chart : SampleChart :=
  {| sample_scales :=
       {[ "x" := {| left := JNum 0; right := JNum 100;
                    min := JNum 0; max := JNum 1 |} ]};
     sample_zoom := true |}.

(** A manager as its constructor leaves it, holding that chart. *)
Definition manager_with_chart : ChartJSManager (H := sample_chartjs) :=
  @Build_ChartJSManager sample_chartjs (Some sample_chart) [] [] None.

End ChartBridge.

(** ** The settings tree of the pose extension ([Poses.settingsNodes]) *)

Module PosesSettings.
Import Js Ros Normalize Poses.

(** A topic of the data source. *)
Record Topic := { topic_name : string; datatype : string }.

(** A field of a settings node: its label, input kind, the extras of a
    [vec3] input, and the value shown. *)
Record SettingsTreeField := {
  field_label : string;
  field_input : string;
  field_labels : list string;
  field_step : option float;
  field_precision : option Z;
  field_value : jsval
}.

(** A settings node; its fields are kept in the order in which the object
    literal and the later assignments create them. Every node's [handler]
    is [handleSettingsAction]. *)
Record SettingsTreeNode := {
  node_label : string;
  node_icon : string;
  node_fields : list (string * SettingsTreeField);
  node_visible : jsval
}.

Record SettingsTreeEntry := {
  entry_path : list string;
  entry_node : SettingsTreeNode
}.

(** [v ?? d]. *)
Definition nullish_or (v d : jsval) : jsval :=
  match v with
  | JUndefined | JNull => d
  | _ => v
  end.

(** The truthiness of a value, as [if (v)] tests it. *)
Definition truthy (v : jsval) : bool :=
  match v with
  | JUndefined | JNull => false
  | JBool b => b
  | JNum n => negb (PrimFloat.eqb n 0%float || PrimFloat.is_nan n)
  | JStr s => negb (bool_decide (s = EmptyString))
  | JArr _ => true
  end.

Section nodes.
(** The two datatype sets of [../ros]. *)
Variables POSE_STAMPED_DATATYPES POSE_WITH_COVARIANCE_STAMPED_DATATYPES : gset string.

(** The body of the loop over the topics: the entry pushed for a topic,
    if any. *)
Definition settingsNode (configTopics : gmap string (gmap string jsval))
    (topic : Topic) : option SettingsTreeEntry :=
  let isPoseStamped := bool_decide (datatype topic ∈ POSE_STAMPED_DATATYPES) in
  let isPoseWithCovarianceStamped :=
    if isPoseStamped then false
    else bool_decide (datatype topic ∈ POSE_WITH_COVARIANCE_STAMPED_DATATYPES) in
  if isPoseStamped || isPoseWithCovarianceStamped then
    let config := default ∅ (configTopics !! topic_name topic) in
    let fields :=
      [ ("scale",
         {| field_label := "Scale"; field_input := "vec3";
            field_labels := ["X"; "Y"; "Z"]; field_step := Some 0.5%float;
            field_precision := Some 3%Z;
            field_value := nullish_or (get config "scale") DEFAULT_SCALE |});
        ("color",
         {| field_label := "Color"; field_input := "rgba";
            field_labels := []; field_step := None; field_precision := None;
            field_value :=
              nullish_or (get config "color") (JStr DEFAULT_COLOR_STR) |}) ] in
    let fields :=
      if isPoseWithCovarianceStamped then
        let showCovariance :=
          nullish_or (get config "showCovariance") (JBool true) in
        let covarianceColor :=
          nullish_or (get config "covarianceColor")
            (JStr DEFAULT_COVARIANCE_COLOR_STR) in
        let fields :=
          fields ++
          [ ("showCovariance",
             {| field_label := "Covariance"; field_input := "boolean";
                field_labels := []; field_step := None; field_precision := None;
                field_value := showCovariance |}) ] in
        if truthy showCovariance then
          fields ++
          [ ("covarianceColor",
             {| field_label := "Covariance Color"; field_input := "rgba";
                field_labels := []; field_step := None; field_precision := None;
                field_value := covarianceColor |}) ]
        else fields
      else fields in
    Some {| entry_path := ["topics"; topic_name topic];
            entry_node :=
              {| node_label := topic_name topic; node_icon := "Flag";
                 node_fields := fields;
                 node_visible := nullish_or (get config "visible") (JBool true) |} |}
  else None.

(** [settingsNodes]: [topics] is [this.renderer.topics], which may be
    [undefined]. *)
Definition settingsNodes (topics : option (list Topic)) (st : SceneState)
    : list SettingsTreeEntry :=
  let configTopics := Poses.topics (config st) in
  foldl (λ entries topic,
           match settingsNode configTopics topic with
           | Some entry => entries ++ [entry]
           | None => entries
           end)
    [] (default [] topics).

(** Whether a topic gets a node. *)
Definition is_pose_topic (topic : Topic) : Prop :=
  datatype topic ∈ POSE_STAMPED_DATATYPES
  ∨ datatype topic ∈ POSE_WITH_COVARIANCE_STAMPED_DATATYPES.

(** Whether a topic's node has the covariance fields. *)
Definition is_covariance_topic (topic : Topic) : Prop :=
  (datatype topic ∉ POSE_STAMPED_DATATYPES)
  ∧ datatype topic ∈ POSE_WITH_COVARIANCE_STAMPED_DATATYPES.

#[global] Instance is_pose_topic_dec topic : Decision (is_pose_topic topic).
Proof. unfold is_pose_topic. apply _. Defined.

End nodes.

(** The value a node shows for a field, if it has the field. *)
Definition shown (entry : SettingsTreeEntry) (field : string) : option jsval :=
  field_value <$>
    ((list_to_map (node_fields (entry_node entry)) : gmap string SettingsTreeField)
       !! field).

(** *** Sample data *)

Definition sample_stamped : gset string := {[ "geometry_msgs/PoseStamped" ]}.
Definition sample_with_covariance : gset string :=
  {[ "geometry_msgs/PoseWithCovarianceStamped" ]}.
Definition sample_topic : Topic :=
  {| topic_name := "/pose"; datatype := "geometry_msgs/PoseWithCovarianceStamped" |}.

End PosesSettings.

(** ** Events of the pose extension, seen from outside *)

Module PosesEvents.
Import Js Ros Normalize Poses.

(** The topic an event is about: the topic of a message, the second
    segment of the path of a settings action the handler acts on. *)
Definition event_target (e : event) : option string :=
  match e with
  | OnPoseStamped e => Some (ev_topic e)
  | OnPoseWithCovariance e => Some (ev_topic e)
  | OnSettingsAction a =>
      match action a, payload_path a with
      | Update, [_; topicName; _] => Some topicName
      | _, _ => None
      end
  end.

(** The normalized message an event hands to [addPose], if it is a
    message. *)
Definition event_message (e : event) : option PoseMessage :=
  match e with
  | OnPoseStamped e => Some (Stamped (normalizePoseStamped (ev_message e)))
  | OnPoseWithCovariance e =>
      Some (WithCovariance (normalizePoseWithCovarianceStamped (ev_message e)))
  | OnSettingsAction _ => None
  end.

(** An event that is not a covariance-bearing message on topic [t]. *)
Definition covariance_free (t : string) (e : event) : Prop :=
  match e with
  | OnPoseWithCovariance e => ev_topic e ≠ t
  | _ => True
  end.

(** How one event changes the state: it leaves everything but the
    configuration as it is, or it updates the stored renderable of its
    topic in place, or it stores a new renderable for its topic under the
    fresh reference [S (next_loc st)]. *)
Definition step_shape (e : event) (st : SceneState) : Prop :=
  (∃ cfg, (handle e st).1 = with_config st cfg
          ∧ (is_Some (event_message e) → cfg = config st))
  ∨ (∃ t l r cfg s rt r' n',
       event_target e = Some t
       ∧ renderables st !! t = Some l ∧ heap st !! l = Some r
       ∧ (is_Some (event_message e) →
          cfg = config st ∧ s = settings (userData r))
       ∧ (event_message e = None →
          s = spread_opt (settings (userData r)) (topics cfg !! t)
          ∧ rt = receiveTime (userData r))
       ∧ _updatePoseRenderable
           (with_userData r (set_settings (userData r) s))
           (default (poseMessage (userData r)) (event_message e))
           rt (next_loc st) = (r', n', (handle e st).2)
       ∧ (handle e st).1
         = {| config := cfg; renderables := renderables st;
              scene_children := scene_children st;
              heap := <[l := r']> (heap st); next_loc := n' |})
  ∨ (∃ t m rt r0 n0 r' n',
       event_target e = Some t ∧ event_message e = Some m
       ∧ renderables st !! t = None
       ∧ heap st !! S (next_loc st) = None
       ∧ topic (userData r0) = t
       ∧ settings (userData r0) = initial_settings st t
       ∧ added r0
         = next_loc st :: match sphere (userData r0) with
                          | Some s => [sphere_ref s]
                          | None => []
                          end
       ∧ arrow_ref (arrow (userData r0)) = next_loc st
       ∧ Forall (λ a, a < n0) (added r0)
       ∧ match m with
         | WithCovariance _ =>
             ∃ s, sphere (userData r0) = Some s
                  ∧ sphere_ref s = S (S (next_loc st))
         | Stamped _ => sphere (userData r0) = None
         end
       ∧ _updatePoseRenderable r0 m rt n0 = (r', n', (handle e st).2)
       ∧ (handle e st).1
         = {| config := config st;
              renderables := <[t := S (next_loc st)]> (renderables st);
              scene_children := scene_children st ++ [S (next_loc st)];
              heap := <[S (next_loc st) := r']> (heap st);
              next_loc := n' |}).

(** The renderable of [t], if any, has no sphere and holds a
    [PoseStamped] message. *)
Definition sphereless (t : string) (st : SceneState) : Prop :=
  ∀ l r, renderables st !! t = Some l → heap st !! l = Some r →
    sphere (userData r) = None ∧ ∃ m, poseMessage (userData r) = Stamped m.

(** The children added to the stored renderables were allocated before
    [next_loc]. *)
Definition children_allocated (st : SceneState) : Prop :=
  ∀ l r, heap st !! l = Some r → Forall (λ a, a < next_loc st) (added r).

(** A [PoseStamped] message on [/pose] with nothing in it. *)
Definition sample_stamped_event : MessageEvent PartialPoseStamped :=
  {| ev_topic := "/pose";
     ev_receiveTime := {| sec := 1; nsec := 0 |};
     ev_message := {| p_ps_header := None; p_ps_pose := None |} |}.

(** A configuration that saves a [null] scale for [/pose]. *)
Definition unscaled_config : RendererConfig :=
  {| topics := {[ "/pose" := {[ "scale" := JNull ]} ]}; config_rest := ∅ |}.

(** The sample state after the renderer's configuration has been replaced
    by [unscaled_config] and a settings action, which raises, has merged
    it into the renderable. *)
Definition sample_unscaled_state : SceneState :=
  (handleSettingsAction (edit "topics" "/pose" "color" (JStr "red"))
     (with_config sample_state unscaled_config)).1.

End PosesEvents.

(** ** More of the diagnostics summary *)

Module DiagnosticsMore.
Import Diagnostics.

Definition ALLOWED_DATATYPES : list string :=
  [ "diagnostic_msgs/DiagnosticArray";
    "diagnostic_msgs/msg/DiagnosticArray";
    "ros.diagnostic_msgs.DiagnosticArray" ].

(** lodash [uniq]: each value is pushed to the result unless the result
    already includes it. *)
Definition uniq (l : list string) : list string :=
  foldl (λ result value,
           if bool_decide (value ∈ result) then result else result ++ [value])
    [] l.

(** [availableTopics]: [DIAGNOSTIC_TOPIC] is the constant of
    [util/globalConstants]; [topics] are the topics of the data source. *)
Definition availableTopics (DIAGNOSTIC_TOPIC : string)
    (topics : list PosesSettings.Topic) (topicToRender : string) : list string :=
  let filtered :=
    PosesSettings.topic_name <$>
      filter (λ topic, PosesSettings.datatype topic ∈ ALLOWED_DATATYPES) topics in
  uniq ([DIAGNOSTIC_TOPIC] ++ filtered ++ [topicToRender]).

(** Whether a character occurs in a string. *)
Fixpoint has_char (c : ascii) (s : string) : bool :=
  match s with
  | EmptyString => false
  | String c' rest => bool_decide (c' = c) || has_char c rest
  end.

(** The order in which [Array.prototype.sort()] leaves two numbers: the
    order of their string renderings. *)
Definition rendering_le (a b : Z) : Prop :=
  String.leb (pretty a) (pretty b).

(** The levels in the order in which the summary lists them when it sorts
    by level. *)
Definition levels_shown (keys : list Z) : list Z := reverse (Array_sort keys).

(** *** The pinned entities, as the specification speaks of them *)

(** Modelled from the spec: the id that [./util] gives an entity
    identifies it by its composite key, the hardware id and the name. It
    is taken in the form in which the summary takes a pinned id apart:
    the hardware id is the second and the name the third of the segments
    that ["|"] separates. *)
Definition diagnostic_id (hardwareId name : string) : string :=
  "|" +:+ hardwareId +:+ "|" +:+ name +:+ "|".

(** An id of that form, for a hardware id and a name without ["|"]. *)
Definition is_diagnostic_id (pinned : string) : Prop :=
  ∃ hardwareId name,
    pinned = diagnostic_id hardwareId name
    ∧ has_char "|" hardwareId = false ∧ has_char "|" name = false.

(** The entity is part of the diagnostics, under a hardware id and a
    name. *)
Definition stored_at (diagnostics : gmap string (gmap string DiagnosticInfo))
    (hardwareId name : string) (n : DiagnosticInfo) : Prop :=
  ∃ byName, diagnostics !! hardwareId = Some byName ∧ byName !! name = Some n.

(** Every entity of the diagnostics carries the id of the key it is
    stored under, and no key contains ["|"]. *)
Definition well_keyed (diagnostics : gmap string (gmap string DiagnosticInfo))
    : Prop :=
  ∀ hardwareId name n, stored_at diagnostics hardwareId name n →
    id n = diagnostic_id hardwareId name
    ∧ has_char "|" hardwareId = false ∧ has_char "|" name = false.

(** All entities of the diagnostics. *)
Definition entities (diagnostics : gmap string (gmap string DiagnosticInfo))
    : list DiagnosticInfo :=
  (map_to_list diagnostics).*2 ≫= λ byName, (map_to_list byName).*2.

(** Following the specification's words, not the code: the pinned entity
    that a pinned id stands for is the entity of the diagnostics that has
    this id. *)
Definition spec_pinned_entity
    (diagnostics : gmap string (gmap string DiagnosticInfo)) (pinned : string)
    : option DiagnosticInfo :=
  head (filter (λ n, id n = pinned) (entities diagnostics)).

(** Following the specification's words: the pinned entities in the order
    in which they were pinned, those below the minimum level left out. *)
Definition spec_pinned_rows (minLevel : Z) (pinnedIds : list string)
    (diagnostics : gmap string (gmap string DiagnosticInfo))
    : list DiagnosticInfo :=
  filter (λ n, (minLevel ≤ level (status n))%Z)
    (omap (spec_pinned_entity diagnostics) pinnedIds).

(** The error entity is pinned and every level is shown. *)
Definition sample_pinned_config : DiagnosticSummaryConfig :=
  {| minLevel := 0; pinnedIds := ["|hw|loud|"]; topicToRender := "/diagnostics";
     hardwareIdFilter := ""; sortByLevel := Some true |}.

(** An entity whose name contains the separator. *)
Definition sample_separator_diagnostics
    : gmap string (gmap string DiagnosticInfo) :=
  {[ "hw" := {[ "a|b" := sample_info "hw" "a|b" 2 ]} ]}.

End DiagnosticsMore.

(** ** More of the chart worker bridge *)

Module ChartMore.
Import Js ChartBridge.

(** *** The fake DOM node: [addEventListener] and [removeEventListener] *)

(** An eventemitter3 [EventEmitter], as far as the two helpers use it: its
    registrations in order, each an event name and a listener; listeners
    are functions, compared by identity, and stand here as references. *)
Definition EventEmitter : Type := list (string * nat).

(** [emitter.listeners(eventName)]. *)
Definition listeners (emitter : EventEmitter) (eventName : string) : list nat :=
  (filter (λ registration, registration.1 = eventName) emitter).*2.

(** [emitter.on(eventName, fn)]. *)
Definition on (emitter : EventEmitter) (eventName : string) (fn : nat)
    : EventEmitter :=
  emitter ++ [(eventName, fn)].

(** [emitter.off(eventName, fn)]: every registration of [fn] under the
    name is removed. *)
Definition off (emitter : EventEmitter) (eventName : string) (fn : nat)
    : EventEmitter :=
  filter (λ registration, ¬ (registration.1 = eventName ∧ registration.2 = fn))
    emitter.

(** [addEventListener(emitter)(eventName, fn)]; [fn] may be [undefined]. *)
Definition addEventListener (emitter : EventEmitter) (eventName : string)
    (fn : option nat) : EventEmitter :=
  match fn with
  | None => emitter
  | Some fn =>
      let existing := listeners emitter eventName in
      if bool_decide (fn ∈ existing) then emitter
      else on emitter eventName fn
  end.

(** [removeEventListener(emitter)(eventName, fn)]. *)
Definition removeEventListener (emitter : EventEmitter) (eventName : string)
    (fn : option nat) : EventEmitter :=
  match fn with
  | Some fn => off emitter eventName fn
  | None => emitter
  end.

(** A call the zoom plugin makes on the fake node. *)
Inductive node_call :=
  | AddListener (eventName : string) (fn : option nat)
  | RemoveListener (eventName : string) (fn : option nat).

Definition node_step (emitter : EventEmitter) (c : node_call) : EventEmitter :=
  match c with
  | AddListener eventName fn => addEventListener emitter eventName fn
  | RemoveListener eventName fn => removeEventListener emitter eventName fn
  end.

(** *** [getElementsAtEvent] *)

(** A data point of a dataset: a number, an object, or nothing. *)
Inductive datum :=
  | DatumUndefined
  | DatumNull
  | DatumNumber (n : float)
  | DatumObject (o : gmap string jsval).

(** An element Chart.js reports under an event: where its data point is
    and where it is drawn. *)
Record HitElement := {
  datasetIndex : nat;
  index : nat;
  element_x : jsval;
  element_y : jsval
}.

Record RpcElement := {
  view_x : jsval;
  view_y : jsval;
  data : gmap string jsval
}.

(** What [getElementsAtEvent] asks of the chart: the elements under an
    event (for the hover mode and options of the chart) and the data
    arrays of its datasets. *)
Class ChartJsData `{ChartJs} := {
  getElementsAtEventForMode : Chart → Event → list HitElement;
  chart_datasets : Chart → list (list datum)
}.

Section elements.
Context `{ChartJsData}.

(** [datasets[element.datasetIndex]?.data[element.index]]. *)
Definition data_of (c : Chart) (element : HitElement) : datum :=
  match chart_datasets c !! datasetIndex element with
  | Some d => default DatumUndefined (d !! index element)
  | None => DatumUndefined
  end.

Definition getElementsAtEvent (event : Event) (m : ChartJSManager)
    : completion (list RpcElement) :=
  match _chartInstance m with
  | Some c =>
      let elements := getElementsAtEventForMode c event in
      Return
        (foldl (λ out element,
                  match data_of c element with
                  | DatumUndefined | DatumNull | DatumNumber _ => out
                  | DatumObject o =>
                      out ++ [ {| view_x := element_x element;
                                  view_y := element_y element;
                                  data := o |} ]
                  end)
           [] elements)
  | None => ThrowTypeError
  end.

End elements.

(** *** The datalabels functions of [addFunctionsToConfig] *)

(** [value?.key]. *)
Definition optional_property (value : datum) (key : string) : jsval :=
  match value with
  | DatumObject o => get o key
  | DatumUndefined | DatumNull | DatumNumber _ => JUndefined
  end.

(** [config.plugins.datalabels.formatter]. *)
Definition datalabels_formatter (value : datum) : jsval :=
  PosesSettings.nullish_or (optional_property value "label") JNull.

(** [config.plugins.datalabels.color]: [configured] is the colour the
    options came with, [data] and [dataIndex] are
    [context.dataset.data] and [context.dataIndex]. *)
Definition datalabels_color (configured : jsval) (data : list datum)
    (dataIndex : nat) : jsval :=
  let staticColor := PosesSettings.nullish_or configured (JStr "white") in
  let value := default DatumUndefined (data !! dataIndex) in
  PosesSettings.nullish_or (optional_property value "labelColor") staticColor.

(** *** Requests to the manager *)

Section requests.
Context `{ChartJs}.

Inductive request :=
  | Perform (op : operation)
  | GetDatalabelAtEvent (event : Event)
  | Destroy.

(** The manager after a request; a request that raises leaves the manager
    as mutated so far. *)
Definition serve (m : ChartJSManager) (r : request) : ChartJSManager :=
  match r with
  | Perform op => (perform op m).1
  | GetDatalabelAtEvent event => (getDatalabelAtEvent event m).1
  | Destroy => (destroy m).1
  end.

End requests.

(** *** Sample data *)

(** The sample chart with one dataset of two data points, an object and a
    number; a click reports three elements: one on each data point and one
    of a dataset that is not there. *)
Definition sample_elements (c : SampleChart) (e : bool)
    : list HitElement :=
  if e then
    [ {| datasetIndex := 0; index := 0;
         element_x := JNum 10; element_y := JNum 20 |};
      {| datasetIndex := 0; index := 1;
         element_x := JNum 30; element_y := JNum 40 |};
      {| datasetIndex := 3; index := 0;
         element_x := JNum 50; element_y := JNum 60 |} ]
  else [].

Definition sample_datasets (c : SampleChart) : list (list datum) :=
  [ [ DatumObject {[ "label" := JStr "a" ]}; DatumNumber 1 ] ].

#[export] Instance sample_chartjs_data : @ChartJsData sample_chartjs :=
  @Build_ChartJsData sample_chartjs sample_elements sample_datasets.

End ChartMore.

(* ===================================================================== *)
(** * Properties *)
(* ===================================================================== *)

(** ** Facts about the pose scene extension *)

Module PosesFacts.
Import Js Ros Normalize Poses.

#[local] Arguments saveSetting : simpl never.

Lemma index_returns v i : indexable v → ∃ w, index v i = Return w.
Proof. intros [Hu Hn]. destruct v; simpl; eauto; congruence. Qed.

Lemma createArrowMarker_returns m s :
  indexable (get s "scale") → ∃ mk, createArrowMarker m s = Return mk.
Proof.
  intros Hs. unfold createArrowMarker.
  destruct (index_returns _ 0 Hs) as [w0 ->].
  destruct (index_returns _ 1 Hs) as [w1 ->].
  destruct (index_returns _ 2 Hs) as [w2 ->]. eauto.
Qed.

Lemma createArrowMarker_throws m s :
  createArrowMarker m s = ThrowTypeError → ¬ indexable (get s "scale").
Proof.
  intros Ht Hs. destruct (createArrowMarker_returns m s Hs) as [mk Hmk].
  congruence.
Qed.

Lemma createSphereMarker_defined m s : is_Some (createSphereMarker m s).
Proof. unfold createSphereMarker. eauto. Qed.

Ltac split_update H :=
  unfold _updatePoseRenderable in H; simpl in H;
  repeat match type of H with
         | context [createSphereMarker ?m ?s] =>
             let E := fresh "Hsm" in
             destruct (createSphereMarker_defined m s) as [? E];
             rewrite E in H; simpl in H
         | context [match sphere ?u with _ => _ end] =>
             destruct (sphere u) eqn:?; simpl in H
         | context [match ?x with _ => _ end] => destruct x eqn:?; simpl in H
         end;
  simplify_eq/=.

(** What an update never touches, and what it always writes. *)
Lemma update_frame r m rt n r' n' o :
  _updatePoseRenderable r m rt n = (r', n', o) →
  topic (userData r') = topic (userData r)
  ∧ settings (userData r') = settings (userData r)
  ∧ settingsPath (userData r') = settingsPath (userData r)
  ∧ added r' = added r
  ∧ arrow_ref (arrow (userData r')) = arrow_ref (arrow (userData r))
  ∧ receiveTime (userData r') = rt
  ∧ messageTime (userData r') = toNanoSec (stamp (header m))
  ∧ frameId (userData r') = frame_id (header m)
  ∧ poseMessage (userData r') = m
  ∧ n ≤ n'.
Proof. intros H. split_update H; repeat split; auto; lia. Qed.

(** An existing sphere keeps its identity and nothing is allocated. *)
Lemma update_keeps_sphere r m rt n r' n' o s0 :
  sphere (userData r) = Some s0 →
  _updatePoseRenderable r m rt n = (r', n', o) →
  n' = n ∧ ∃ s, sphere (userData r') = Some s ∧ sphere_ref s = sphere_ref s0.
Proof. intros Hs H. split_update H; split; eauto. Qed.

(** A returning update re-derives the arrow from the message and the
    renderable's settings. *)
Lemma update_arrow r m rt n r' n' :
  _updatePoseRenderable r m rt n = (r', n', Returned) →
  createArrowMarker m (settings (userData r))
  = Return (arrow_marker (arrow (userData r'))).
Proof. intros H. split_update H; auto. Qed.

(** A returning update with a covariance-bearing message leaves a sphere
    showing the derived marker, visible as the settings say. *)
Lemma update_sphere r m rt n r' n' :
  _updatePoseRenderable r (WithCovariance m) rt n = (r', n', Returned) →
  ∃ s, sphere (userData r') = Some s
       ∧ createSphereMarker m (settings (userData r)) = Some (sphere_marker s)
       ∧ sphere_visible s = get (settings (userData r)) "showCovariance"
       ∧ sphere_ref s = match sphere (userData r) with
                        | Some s0 => sphere_ref s0
                        | None => n
                        end.
Proof. intros H. split_update H; eauto 10. Qed.

Lemma update_outcome r m rt n :
  (_updatePoseRenderable r m rt n).2 = Returned
  ↔ ∃ mk, createArrowMarker m (settings (userData r)) = Return mk.
Proof.
  destruct (_updatePoseRenderable r m rt n) as [[r' n'] o] eqn:H.
  split_update H; split; eauto; try done; intros [? ?]; done.
Qed.

Lemma update_returned r m rt n r' n' o :
  _updatePoseRenderable r m rt n = (r', n', o) →
  indexable (get (settings (userData r)) "scale") → o = Returned.
Proof.
  intros Hu Hi. pose proof (update_outcome r m rt n) as Ho.
  rewrite Hu in Ho. apply Ho. by apply createArrowMarker_returns.
Qed.

(** *** The store invariant *)

Lemma wf_initial cfg : wf (initial cfg).
Proof.
  split; simpl; intros *; rewrite ?lookup_empty; try done.
  - constructor.
  - split; [by intros ?%elem_of_nil | by intros [? ?]].
Qed.

(** Overwriting a stored renderable with one for the same topic. *)
Lemma wf_replace st l r r' n cfg :
  wf st → heap st !! l = Some r →
  topic (userData r') = topic (userData r) →
  time_consistent r' → next_loc st ≤ n →
  wf {| config := cfg; renderables := renderables st;
        scene_children := scene_children st;
        heap := <[l := r']> (heap st); next_loc := n |}.
Proof.
  intros [Hm Hh Ht Hf Hnd Hc] Hl Htop Htime Hn. split; simpl.
  - intros t l0 Hr. destruct (Hm _ _ Hr) as (r0 & Hr0 & Ht0).
    destruct (decide (l0 = l)) as [->|Hne].
    + exists r'. rewrite lookup_insert_eq. split; [done|]. congruence.
    + exists r0. by rewrite lookup_insert_ne.
  - intros l0 r0. rewrite lookup_insert. case_decide as Hd.
    + intros [= <-]. subst l0. rewrite Htop. by apply Hh.
    + apply Hh.
  - intros l0 r0. rewrite lookup_insert. case_decide.
    + by intros [= <-].
    + apply Ht.
  - intros l0 r0. rewrite lookup_insert. case_decide.
    + intros _. subst l0. specialize (Hf _ _ Hl). lia.
    + intros Hl0. specialize (Hf _ _ Hl0). lia.
  - done.
  - intros l0. rewrite Hc, lookup_insert. case_decide; [|done].
    subst l0. split; eauto.
Qed.

(** Storing a freshly allocated renderable for a topic that had none. *)
Lemma wf_alloc st t l r n cfg :
  wf st → renderables st !! t = None → next_loc st ≤ l → l < n →
  topic (userData r) = t → time_consistent r →
  wf {| config := cfg; renderables := <[t := l]> (renderables st);
        scene_children := scene_children st ++ [l];
        heap := <[l := r]> (heap st); next_loc := n |}.
Proof.
  intros [Hm Hh Ht Hf Hnd Hc] Hnone Hl Hn Htop Htime.
  assert (Hfree : heap st !! l = None).
  { destruct (heap st !! l) as [r0|] eqn:E; [|done].
    specialize (Hf _ _ E). lia. }
  split; simpl.
  - intros t0 l0. rewrite lookup_insert. case_decide as Hd.
    + intros [= <-]. exists r. rewrite lookup_insert_eq. split; congruence.
    + intros Hr. destruct (Hm _ _ Hr) as (r0 & Hr0 & Ht0).
      exists r0. rewrite lookup_insert_ne; [done|]. congruence.
  - intros l0 r0. rewrite lookup_insert. case_decide as Hd.
    + intros [= <-]. subst l0. rewrite Htop. by rewrite lookup_insert_eq.
    + intros Hl0. specialize (Hh _ _ Hl0).
      rewrite lookup_insert_ne; [done|]. congruence.
  - intros l0 r0. rewrite lookup_insert. case_decide.
    + by intros [= <-].
    + apply Ht.
  - intros l0 r0. rewrite lookup_insert. case_decide.
    + intros _. lia.
    + intros Hl0. specialize (Hf _ _ Hl0). lia.
  - apply NoDup_app. split; [done|]. split; [|apply NoDup_singleton].
    intros l0 Hin ->%list_elem_of_singleton.
    apply Hc in Hin. rewrite Hfree in Hin. by destruct Hin.
  - intros l0. rewrite elem_of_app, list_elem_of_singleton, Hc, lookup_insert.
    case_decide as Hd; [|split; [by intros [?|?] | auto]].
    subst l0. split; eauto.
Qed.

(** [update_in_place] on a stored renderable, spelled out. *)
Lemma update_in_place_stored st l r m rt :
  heap st !! l = Some r →
  ∃ r' n', _updatePoseRenderable r m rt (next_loc st)
           = (r', n', (update_in_place l m rt st).2)
    ∧ (update_in_place l m rt st).1
      = {| config := config st; renderables := renderables st;
           scene_children := scene_children st;
           heap := <[l := r']> (heap st); next_loc := n' |}.
Proof.
  intros Hl. unfold update_in_place. rewrite Hl.
  destruct (_updatePoseRenderable r m rt (next_loc st)) as [[r' n'] o].
  by exists r', n'.
Qed.

Lemma update_in_place_wf st l r m rt :
  wf st → heap st !! l = Some r → wf (update_in_place l m rt st).1.
Proof.
  intros Hwf Hl.
  destruct (update_in_place_stored st l r m rt Hl) as (r' & n' & Hu & ->).
  apply update_frame in Hu as (Ht & _ & _ & _ & _ & _ & Hmt & _ & Hpm & Hn).
  eapply wf_replace; eauto.
  unfold time_consistent. by rewrite Hmt, Hpm.
Qed.

(** *** [addPose] *)

Lemma addPose_existing st t l m rt :
  renderables st !! t = Some l →
  addPose t m rt st = update_in_place l m rt st.
Proof. intros H. unfold addPose. by rewrite H. Qed.

Lemma addPose_throws st t m rt :
  renderables st !! t = None →
  createArrowMarker m (initial_settings st t) = ThrowTypeError →
  addPose t m rt st = (st, Threw).
Proof. intros H Hc. unfold addPose, initial_settings in *. by rewrite H, Hc. Qed.

(** On a topic without renderable, and when the arrow can be derived,
    [addPose] stores a new renderable under a fresh reference and then
    updates it in place. *)
Lemma addPose_creates st t m rt mk :
  renderables st !! t = None →
  createArrowMarker m (initial_settings st t) = Return mk →
  ∃ r0 n0,
    addPose t m rt st
    = update_in_place (S (next_loc st)) m rt
        {| config := config st;
           renderables := <[t := S (next_loc st)]> (renderables st);
           scene_children := scene_children st ++ [S (next_loc st)];
           heap := <[S (next_loc st) := r0]> (heap st);
           next_loc := n0 |}
    ∧ topic (userData r0) = t
    ∧ settings (userData r0) = initial_settings st t
    ∧ time_consistent r0
    ∧ S (next_loc st) < n0
    ∧ arrow_ref (arrow (userData r0)) = next_loc st
    ∧ match m with
      | WithCovariance _ =>
          ∃ s, sphere (userData r0) = Some s ∧ sphere_ref s = S (S (next_loc st))
      | Stamped _ => sphere (userData r0) = None
      end.
Proof.
  intros H Hc. unfold addPose, initial_settings in *. rewrite H, Hc.
  destruct m as [m|m]; simpl.
  - eexists _, _. split; [reflexivity|]. repeat split; simpl; auto.
  - eexists _, _. split; [reflexivity|]. repeat split; simpl; eauto.
Qed.

Lemma addPose_wf st t m rt : wf st → wf (addPose t m rt st).1.
Proof.
  intros Hwf. destruct (renderables st !! t) as [l|] eqn:Hr.
  - rewrite (addPose_existing _ _ _ _ _ Hr).
    destruct (wf_map _ Hwf _ _ Hr) as (r & Hl & _).
    by eapply update_in_place_wf.
  - destruct (createArrowMarker m (initial_settings st t)) as [mk|] eqn:Hc.
    + destruct (addPose_creates st t m rt mk Hr Hc)
        as (r0 & n0 & -> & Ht & _ & Htc & Hn & _).
      eapply update_in_place_wf; [|simpl; apply lookup_insert_eq].
      apply wf_alloc; auto.
    + by rewrite (addPose_throws _ _ _ _ Hr Hc).
Qed.

(** *** [handleSettingsAction] *)

Lemma not_ignored a :
  ¬ ignored a →
  ∃ root t field, a = edit root t field (payload_value a).
Proof.
  intros Hn. destruct a as [[] p v]; unfold ignored in Hn; simpl in *.
  - destruct p as [|root [|t [|field [|? ?]]]]; simpl in *;
      try (exfalso; apply Hn; right; lia).
    by exists root, t, field.
  - exfalso. apply Hn. by left.
Qed.

Lemma handleSettingsAction_ignored a st :
  ignored a → handleSettingsAction a st = (st, Returned).
Proof.
  intros Hi. unfold handleSettingsAction.
  destruct a as [[] p v]; simpl in *; [|done].
  destruct Hi as [Hi|Hi]; [done|]. simpl in Hi.
  by destruct p as [|root [|t [|field [|? ?]]]].
Qed.

Lemma handleSettingsAction_no_renderable root t field v st :
  renderables st !! t = None →
  handleSettingsAction (edit root t field v) st
  = (with_config st (saveSetting [root; t; field] v (config st)), Returned).
Proof. intros H. unfold handleSettingsAction. simpl. by rewrite H. Qed.

Lemma handleSettingsAction_renderable root t field v st l r :
  renderables st !! t = Some l → heap st !! l = Some r →
  let cfg := saveSetting [root; t; field] v (config st) in
  let r1 := with_userData r
              (set_settings (userData r)
                 (spread_opt (settings (userData r)) (topics cfg !! t))) in
  handleSettingsAction (edit root t field v) st
  = update_in_place l (poseMessage (userData r)) (receiveTime (userData r))
      {| config := cfg; renderables := renderables st;
         scene_children := scene_children st;
         heap := <[l := r1]> (heap st); next_loc := next_loc st |}.
Proof.
  intros Hr Hl. unfold handleSettingsAction. simpl. by rewrite Hr, Hl.
Qed.

Lemma with_config_wf st cfg : wf st → wf (with_config st cfg).
Proof. intros [? ? ? ? ? ?]. by split. Qed.

Lemma handleSettingsAction_wf a st : wf st → wf (handleSettingsAction a st).1.
Proof.
  intros Hwf. destruct (decide (action a = Update)) as [Ha|Ha];
    [destruct (decide (length (payload_path a) = 3)) as [Hp|Hp]|].
  - destruct (not_ignored a) as (root & t & field & ->).
    { intros [?|?]; done. }
    destruct (renderables st !! t) as [l|] eqn:Hr.
    + destruct (wf_map _ Hwf _ _ Hr) as (r & Hl & Ht).
      rewrite (handleSettingsAction_renderable _ _ _ _ _ _ _ Hr Hl).
      eapply update_in_place_wf; [|simpl; apply lookup_insert_eq].
      eapply wf_replace; eauto. apply (wf_time _ Hwf _ _ Hl).
    + rewrite (handleSettingsAction_no_renderable _ _ _ _ _ Hr).
      by apply with_config_wf.
  - rewrite handleSettingsAction_ignored; [done|by right].
  - rewrite handleSettingsAction_ignored; [done|by left].
Qed.

Lemma handle_wf e st : wf st → wf (handle e st).1.
Proof.
  intros Hwf. destruct e; simpl.
  - by apply addPose_wf.
  - by apply addPose_wf.
  - by apply handleSettingsAction_wf.
Qed.

Lemma run_app evs1 evs2 st : run (evs1 ++ evs2) st = run evs2 (run evs1 st).
Proof. unfold run. apply foldl_app. Qed.

Lemma run_wf evs st : wf st → wf (run evs st).
Proof.
  revert st. induction evs as [|e evs IH]; intros st Hwf; [done|].
  simpl. apply IH. by apply handle_wf.
Qed.

(** *** The [renderables] map only grows, by fresh references *)

Lemma update_in_place_renderables st l r m rt :
  heap st !! l = Some r →
  renderables (update_in_place l m rt st).1 = renderables st.
Proof.
  intros Hl.
  by destruct (update_in_place_stored st l r m rt Hl) as (r' & n' & _ & ->).
Qed.

Lemma update_in_place_config st l r m rt :
  heap st !! l = Some r →
  config (update_in_place l m rt st).1 = config st.
Proof.
  intros Hl.
  by destruct (update_in_place_stored st l r m rt Hl) as (r' & n' & _ & ->).
Qed.

Lemma handle_renderables e st :
  wf st →
  renderables (handle e st).1 = renderables st
  ∨ ∃ t, renderables st !! t = None
         ∧ heap st !! S (next_loc st) = None
         ∧ renderables (handle e st).1
           = <[t := S (next_loc st)]> (renderables st).
Proof.
  intros Hwf.
  assert (Hadd : ∀ t m rt,
    renderables (addPose t m rt st).1 = renderables st
    ∨ ∃ t0, renderables st !! t0 = None
            ∧ heap st !! S (next_loc st) = None
            ∧ renderables (addPose t m rt st).1
              = <[t0 := S (next_loc st)]> (renderables st)).
  { intros t m rt. destruct (renderables st !! t) as [l|] eqn:Hr.
    - left. rewrite (addPose_existing _ _ _ _ _ Hr).
      destruct (wf_map _ Hwf _ _ Hr) as (r & Hl & _).
      by apply (update_in_place_renderables _ _ r).
    - destruct (createArrowMarker m (initial_settings st t)) as [mk|] eqn:Hc.
      + right. exists t. split; [done|]. split.
        { destruct (heap st !! S (next_loc st)) as [r|] eqn:E; [|done].
          pose proof (wf_fresh _ Hwf _ _ E). lia. }
        destruct (addPose_creates st t m rt mk Hr Hc) as (r0 & n0 & -> & _).
        rewrite (update_in_place_renderables _ _ r0); [done|]. simpl.
        apply lookup_insert_eq.
      + left. by rewrite (addPose_throws _ _ _ _ Hr Hc). }
  destruct e as [e|e|a]; simpl; [apply Hadd | apply Hadd |].
  left. destruct (decide (ignored a)) as [Hi|Hi].
  { by rewrite handleSettingsAction_ignored. }
  destruct (not_ignored a Hi) as (root & t & field & ->).
  destruct (renderables st !! t) as [l|] eqn:Hr.
  - destruct (wf_map _ Hwf _ _ Hr) as (r & Hl & _).
    rewrite (handleSettingsAction_renderable _ _ _ _ _ _ _ Hr Hl).
    erewrite update_in_place_renderables; [done|]. simpl.
    apply lookup_insert_eq.
  - by rewrite (handleSettingsAction_no_renderable _ _ _ _ _ Hr).
Qed.

Lemma handle_keeps_ref e st t l :
  wf st → renderables st !! t = Some l →
  renderables (handle e st).1 !! t = Some l.
Proof.
  intros Hwf Hr.
  destruct (handle_renderables e st Hwf) as [->|(t0 & Hnone & _ & ->)]; [done|].
  rewrite lookup_insert_ne; [done|]. congruence.
Qed.

Lemma run_keeps_ref evs st t l :
  wf st → renderables st !! t = Some l →
  renderables (run evs st) !! t = Some l.
Proof.
  revert st. induction evs as [|e evs IH]; intros st Hwf Hr; [done|].
  simpl. apply IH; [by apply handle_wf | by apply handle_keeps_ref].
Qed.

(** Two stored renderables for one topic are the same object. *)
Lemma wf_unique st l1 l2 r1 r2 :
  wf st → heap st !! l1 = Some r1 → heap st !! l2 = Some r2 →
  topic (userData r1) = topic (userData r2) → l1 = l2.
Proof.
  intros Hwf H1 H2 Ht.
  pose proof (wf_heap _ Hwf _ _ H1) as E1.
  pose proof (wf_heap _ Hwf _ _ H2) as E2.
  rewrite Ht in E1. congruence.
Qed.

(** *** When [addPose] returns *)

Lemma createArrowMarker_indexable m s mk :
  createArrowMarker m s = Return mk → indexable (get s "scale").
Proof.
  unfold createArrowMarker, indexable. intros H.
  destruct (get s "scale"); simpl in H; try done.
Qed.

Lemma addPose_outcome st t m rt :
  wf st →
  (addPose t m rt st).2 = Returned
  ↔ indexable (get (effective_settings st t) "scale").
Proof.
  intros Hwf. unfold effective_settings.
  destruct (renderables st !! t) as [l|] eqn:Hr.
  - rewrite (addPose_existing _ _ _ _ _ Hr).
    destruct (wf_map _ Hwf _ _ Hr) as (r & Hl & _). rewrite Hl.
    destruct (update_in_place_stored st l r m rt Hl) as (r' & n' & Hu & _).
    pose proof (update_outcome r m rt (next_loc st)) as Ho.
    rewrite Hu in Ho. simpl in Ho. rewrite Ho. split.
    + intros [mk Hmk]. by eapply createArrowMarker_indexable.
    + apply createArrowMarker_returns.
  - destruct (createArrowMarker m (initial_settings st t)) as [mk|] eqn:Hc.
    + split; [intros _; by eapply createArrowMarker_indexable|intros _].
      destruct (addPose_creates st t m rt mk Hr Hc)
        as (r0 & n0 & -> & _ & Hs & _).
      match goal with |- (update_in_place ?l ?m ?rt ?st1).2 = _ =>
        destruct (update_in_place_stored st1 l r0 m rt) as (r' & n' & Hu & _);
          [simpl; apply lookup_insert_eq|];
        pose proof (update_outcome r0 m rt (next_loc st1)) as Ho;
        rewrite Hu in Ho; simpl in Ho; apply Ho
      end.
      rewrite Hs. eauto.
    + rewrite (addPose_throws _ _ _ _ Hr Hc). simpl. split; [done|].
      intros Hi. by apply createArrowMarker_throws in Hc.
Qed.

(** *** Saved settings are always part of a renderable's settings *)

Lemma spread_opt_idem (a : gmap string jsval) o :
  spread_opt (spread_opt a o) o = spread_opt a o.
Proof.
  destruct o as [o|]; simpl; [|done]. unfold spread.
  by rewrite (assoc_L (∪)), (idemp_L (∪)).
Qed.

Lemma saveSetting_topics_other root t field v cfg t' :
  t' ≠ t →
  topics (saveSetting [root; t; field] v cfg) !! t' = topics cfg !! t'.
Proof.
  intros Hne. unfold saveSetting. case_decide; simpl; [|done].
  by rewrite lookup_partial_alter_ne.
Qed.

Lemma saveSetting_topics_same t field v cfg :
  topics (saveSetting ["topics"; t; field] v cfg) !! t
  = save_field field v (topics cfg !! t).
Proof. unfold saveSetting. simpl. apply lookup_partial_alter_eq. Qed.

Lemma save_field_value field v entry :
  nullish v = false →
  save_field field v entry = Some (<[field := v]> (default ∅ entry)).
Proof. unfold save_field. by intros ->. Qed.

Lemma save_field_nullish field v entry :
  nullish v = true → save_field field v entry = delete field <$> entry.
Proof. unfold save_field. by intros ->. Qed.

Lemma saveSetting_elsewhere root t field v cfg :
  root ≠ "topics" → topics (saveSetting [root; t; field] v cfg) = topics cfg.
Proof. intros Hne. unfold saveSetting. by case_decide. Qed.

Lemma covers_initial cfg : covers (initial cfg).
Proof. intros t l r H. simpl in H. by rewrite lookup_empty in H. Qed.

Lemma covers_replace st l r r' n cfg :
  wf st → covers st → heap st !! l = Some r →
  topic (userData r') = topic (userData r) →
  spread_opt (settings (userData r')) (topics cfg !! topic (userData r))
  = settings (userData r') →
  (∀ t', t' ≠ topic (userData r) → topics cfg !! t' = topics (config st) !! t') →
  covers {| config := cfg; renderables := renderables st;
            scene_children := scene_children st;
            heap := <[l := r']> (heap st); next_loc := n |}.
Proof.
  intros Hwf Hcov Hl Htop Hs Hother t0 l0 r0. simpl. intros Hr0.
  destruct (wf_map _ Hwf _ _ Hr0) as (r1 & Hl1 & Ht1).
  rewrite lookup_insert. case_decide as Hd.
  - intros [= <-]. subst l0. assert (r1 = r) by congruence. subst r1.
    by rewrite <- Ht1.
  - intros Hl0. assert (r1 = r0) by congruence. subst r1.
    rewrite Hother; [by eapply Hcov|].
    intros Heq. apply Hd.
    pose proof (wf_heap _ Hwf _ _ Hl) as E. rewrite <- Heq in E.
    congruence.
Qed.

Lemma covers_alloc st t l r n :
  wf st → covers st → renderables st !! t = None → heap st !! l = None →
  spread_opt (settings (userData r)) (topics (config st) !! t)
  = settings (userData r) →
  covers {| config := config st; renderables := <[t := l]> (renderables st);
            scene_children := scene_children st ++ [l];
            heap := <[l := r]> (heap st); next_loc := n |}.
Proof.
  intros Hwf Hcov Hnone Hfree Hs t0 l0 r0. simpl.
  rewrite lookup_insert. case_decide as Hd.
  - intros [= <-]. subst t0. rewrite lookup_insert_eq. by intros [= <-].
  - intros Hr0. destruct (wf_map _ Hwf _ _ Hr0) as (r1 & Hl1 & Ht1).
    rewrite lookup_insert_ne; [|congruence]. by apply Hcov.
Qed.

Lemma update_in_place_covers st l r m rt :
  wf st → covers st → heap st !! l = Some r →
  covers (update_in_place l m rt st).1.
Proof.
  intros Hwf Hcov Hl.
  destruct (update_in_place_stored st l r m rt Hl) as (r' & n' & Hu & ->).
  apply update_frame in Hu as (Ht & Hs & _).
  eapply covers_replace; eauto. rewrite Hs.
  eapply Hcov; [|done]. by apply (wf_heap _ Hwf).
Qed.

Lemma handle_covers e st : wf st → covers st → covers (handle e st).1.
Proof.
  intros Hwf Hcov.
  assert (Hadd : ∀ t m rt, covers (addPose t m rt st).1).
  { intros t m rt. destruct (renderables st !! t) as [l|] eqn:Hr.
    - rewrite (addPose_existing _ _ _ _ _ Hr).
      destruct (wf_map _ Hwf _ _ Hr) as (r & Hl & _).
      by eapply update_in_place_covers.
    - destruct (createArrowMarker m (initial_settings st t)) as [mk|] eqn:Hc.
      + destruct (addPose_creates st t m rt mk Hr Hc)
          as (r0 & n0 & -> & Ht & Hs & Htc & Hn & _).
        assert (Hfree : heap st !! S (next_loc st) = None).
        { destruct (heap st !! S (next_loc st)) as [r1|] eqn:E; [|done].
          pose proof (wf_fresh _ Hwf _ _ E). lia. }
        eapply update_in_place_covers; [| |simpl; apply lookup_insert_eq].
        * apply wf_alloc; auto.
        * apply covers_alloc; auto. rewrite Hs. apply spread_opt_idem.
      + by rewrite (addPose_throws _ _ _ _ Hr Hc). }
  destruct e as [e|e|a]; simpl; [apply Hadd | apply Hadd |].
  destruct (decide (ignored a)) as [Hi|Hi].
  { by rewrite handleSettingsAction_ignored. }
  destruct (not_ignored a Hi) as (root & t & field & ->).
  destruct (renderables st !! t) as [l|] eqn:Hr.
  - destruct (wf_map _ Hwf _ _ Hr) as (r & Hl & Ht).
    rewrite (handleSettingsAction_renderable _ _ _ _ _ _ _ Hr Hl).
    eapply update_in_place_covers; [| |simpl; apply lookup_insert_eq].
    + eapply wf_replace; eauto. apply (wf_time _ Hwf _ _ Hl).
    + eapply covers_replace; eauto; simpl.
      * rewrite Ht. apply spread_opt_idem.
      * intros t' Hne. apply saveSetting_topics_other. congruence.
  - rewrite (handleSettingsAction_no_renderable _ _ _ _ _ Hr).
    intros t0 l0 r0. unfold with_config.
    cbn [fst config renderables heap]. intros Hr0 Hl0.
    rewrite saveSetting_topics_other; [by eapply Hcov | congruence].
Qed.

Lemma run_covers evs st : wf st → covers st → covers (run evs st).
Proof.
  revert st. induction evs as [|e evs IH]; intros st Hwf Hcov; [done|].
  simpl. apply IH; [by apply handle_wf | by apply handle_covers].
Qed.

(** The first message on a topic, spelled out: a renderable is built with
    the initial settings, stored under the fresh reference
    [S (next_loc st)], and updated once. *)
Lemma addPose_new st t m rt :
  wf st → renderables st !! t = None →
  indexable (get (initial_settings st t) "scale") →
  ∃ r0 r n0 n,
    _updatePoseRenderable r0 m rt n0 = (r, n, Returned)
    ∧ topic (userData r0) = t
    ∧ settings (userData r0) = initial_settings st t
    ∧ match m with
      | WithCovariance _ =>
          ∃ s, sphere (userData r0) = Some s ∧ sphere_ref s = S (S (next_loc st))
      | Stamped _ => sphere (userData r0) = None
      end
    ∧ heap st !! S (next_loc st) = None
    ∧ addPose t m rt st
      = ({| config := config st;
            renderables := <[t := S (next_loc st)]> (renderables st);
            scene_children := scene_children st ++ [S (next_loc st)];
            heap := <[S (next_loc st) := r]> (heap st);
            next_loc := n |}, Returned).
Proof.
  intros Hwf Hr Hi.
  destruct (createArrowMarker_returns m _ Hi) as [mk Hc].
  destruct (addPose_creates st t m rt mk Hr Hc)
    as (r0 & n0 & Ha & Ht & Hs & _ & _ & _ & Hsph).
  pose proof (proj2 (addPose_outcome st t m rt Hwf)) as Ho.
  unfold effective_settings in Ho. rewrite Hr in Ho. specialize (Ho Hi).
  rewrite Ha in Ho.
  match type of Ha with _ = update_in_place ?l _ _ ?st1 =>
    destruct (update_in_place_stored st1 l r0 m rt) as (r & n & Hu & Hst);
      [simpl; apply lookup_insert_eq|]
  end.
  rewrite Ho in Hu. simpl in Hu, Hst. rewrite insert_insert_eq in Hst.
  exists r0, r, n0, n. repeat split; auto.
  - destruct (heap st !! S (next_loc st)) as [r1|] eqn:E; [|done].
    pose proof (wf_fresh _ Hwf _ _ E). lia.
  - rewrite Ha. apply injective_projections; simpl; [by rewrite Hst | done].
Qed.

(** A later message on the topic, spelled out: the stored renderable is
    updated where it is, nothing else changes. *)
Lemma addPose_again st t l m rt :
  wf st → renderables st !! t = Some l →
  ∃ r r' n' o,
    heap st !! l = Some r ∧ topic (userData r) = t
    ∧ _updatePoseRenderable r m rt (next_loc st) = (r', n', o)
    ∧ addPose t m rt st
      = ({| config := config st; renderables := renderables st;
            scene_children := scene_children st;
            heap := <[l := r']> (heap st); next_loc := n' |}, o).
Proof.
  intros Hwf Hr. destruct (wf_map _ Hwf _ _ Hr) as (r & Hl & Ht).
  rewrite (addPose_existing _ _ _ _ _ Hr).
  destruct (update_in_place_stored st l r m rt Hl) as (r' & n' & Hu & Hst).
  exists r, r', n', (update_in_place l m rt st).2. repeat split; auto.
  apply injective_projections; simpl; [by rewrite Hst | done].
Qed.

(** C2: for every sequence of events delivered to a scene extension, at
    most one renderable exists per topic at any time: two stored
    renderables for the same topic are the same object; the first message
    on a topic creates the renderable under a fresh reference; every later
    message on the topic leaves the [renderables] map and the scene
    children as they are and mutates the object behind the same reference;
    and whatever follows never rebinds the topic to another reference. *)
Theorem one_renderable_per_topic (cfg : RendererConfig) (evs : list event) :
  let st := run evs (initial cfg) in
  (∀ l1 l2 r1 r2,
     heap st !! l1 = Some r1 → heap st !! l2 = Some r2 →
     topic (userData r1) = topic (userData r2) → l1 = l2)
  ∧ (∀ t m rt,
       renderables st !! t = None →
       indexable (get (initial_settings st t) "scale") →
       let st' := (addPose t m rt st).1 in
       ∃ l r, heap st !! l = None
              ∧ renderables st' = <[t := l]> (renderables st)
              ∧ scene_children st' = scene_children st ++ [l]
              ∧ heap st' !! l = Some r
              ∧ topic (userData r) = t
              ∧ poseMessage (userData r) = m)
  ∧ (∀ t l m rt,
       renderables st !! t = Some l →
       let st' := (addPose t m rt st).1 in
       renderables st' = renderables st
       ∧ scene_children st' = scene_children st
       ∧ ∃ r, heap st' !! l = Some r
              ∧ topic (userData r) = t
              ∧ poseMessage (userData r) = m
              ∧ receiveTime (userData r) = rt)
  ∧ (∀ t l more,
       renderables st !! t = Some l →
       renderables (run more st) !! t = Some l).
Proof.
  intros st. assert (Hwf : wf st) by apply run_wf, wf_initial.
  split; [|split; [|split]].
  - intros l1 l2 r1 r2. by apply wf_unique.
  - intros t m rt Hr Hi st'.
    destruct (addPose_new st t m rt Hwf Hr Hi)
      as (r0 & r & n0 & n & Hu & Ht & _ & _ & Hfree & Ha).
    apply update_frame in Hu as (Ht' & _ & _ & _ & _ & _ & _ & _ & Hpm & _).
    exists (S (next_loc st)), r. subst st'. rewrite Ha. simpl.
    rewrite lookup_insert_eq. repeat split; auto. congruence.
  - intros t l m rt Hr st'.
    destruct (addPose_again st t l m rt Hwf Hr)
      as (r & r' & n' & o & Hl & Ht & Hu & Ha).
    apply update_frame in Hu as (Ht' & _ & _ & _ & _ & Hrt & _ & _ & Hpm & _).
    subst st'. rewrite Ha. simpl. rewrite lookup_insert_eq.
    repeat split; auto. exists r'. repeat split; auto. congruence.
  - intros t l more. by apply run_keeps_ref.
Qed.

(** *** Settings edits on an existing renderable *)

(** An edit addressed to a topic with a renderable, spelled out. *)
Lemma edit_existing st root t field v l r :
  wf st → renderables st !! t = Some l → heap st !! l = Some r →
  let cfg := saveSetting [root; t; field] v (config st) in
  let r1 := with_userData r
              (set_settings (userData r)
                 (spread_opt (settings (userData r)) (topics cfg !! t))) in
  ∃ r' n' o,
    _updatePoseRenderable r1 (poseMessage (userData r))
      (receiveTime (userData r)) (next_loc st) = (r', n', o)
    ∧ handleSettingsAction (edit root t field v) st
      = ({| config := cfg; renderables := renderables st;
            scene_children := scene_children st;
            heap := <[l := r']> (heap st); next_loc := n' |}, o).
Proof.
  intros Hwf Hr Hl cfg r1.
  rewrite (handleSettingsAction_renderable _ _ _ _ _ _ _ Hr Hl).
  fold cfg. fold r1.
  match goal with |- context [update_in_place l ?m ?rt ?st1] =>
    destruct (update_in_place_stored st1 l r1 m rt) as (r' & n' & Hu & Hst);
      [simpl; apply lookup_insert_eq|];
    exists r', n', (update_in_place l m rt st1).2
  end.
  split; [done|]. simpl in Hst. rewrite insert_insert_eq in Hst.
  apply injective_projections; simpl; [by rewrite Hst | done].
Qed.

(** With the saved settings already part of the renderable's settings, an
    edit below ["topics"] with a value overwrites exactly the edited
    field. *)
Lemma edit_settings st t field v l r :
  covers st → renderables st !! t = Some l → heap st !! l = Some r →
  nullish v = false →
  spread_opt (settings (userData r))
    (topics (saveSetting ["topics"; t; field] v (config st)) !! t)
  = <[field := v]> (settings (userData r)).
Proof.
  intros Hcov Hr Hl Hv. rewrite saveSetting_topics_same, save_field_value by done.
  simpl. unfold spread.
  rewrite <- insert_union_l. f_equal.
  specialize (Hcov _ _ _ Hr Hl).
  destruct (topics (config st) !! t) as [o|]; simpl in *; [done|].
  apply (left_id_L ∅ (∪)).
Qed.

(** And an edit with a nullish value, which unsets the field in the
    configuration, leaves the renderable's settings as they are. *)
Lemma edit_settings_unset st t field v l r :
  covers st → renderables st !! t = Some l → heap st !! l = Some r →
  nullish v = true →
  spread_opt (settings (userData r))
    (topics (saveSetting ["topics"; t; field] v (config st)) !! t)
  = settings (userData r).
Proof.
  intros Hcov Hr Hl Hv. rewrite saveSetting_topics_same, save_field_nullish by done.
  specialize (Hcov _ _ _ Hr Hl).
  destruct (topics (config st) !! t) as [o|]; simpl in *; [|done].
  unfold spread in *. apply map_eq. intros k.
  apply (f_equal (λ m, m !! k)) in Hcov. revert Hcov.
  rewrite !lookup_union. destruct (decide (k = field)) as [->|Hk].
  - rewrite lookup_delete_eq. by rewrite (left_id_L None _).
  - by rewrite lookup_delete_ne.
Qed.

(** C7: for every valid settings edit addressing a topic that has a
    renderable, the edit is persisted, the renderable's settings are
    recomputed from the saved ones and its geometry is derived again from
    them (the arrow always, the sphere when the stored message carries a
    covariance), while the stored message, its time stamp and the receive
    time are what they were before the edit. *)
Theorem settings_edit_keeps_message (cfg : RendererConfig) (evs : list event)
    (root t field : string) (v : jsval) (l : loc) (r : PoseRenderable) :
  let st := run evs (initial cfg) in
  renderables st !! t = Some l → heap st !! l = Some r →
  let st' := (handleSettingsAction (edit root t field v) st).1 in
  let o := (handleSettingsAction (edit root t field v) st).2 in
  config st' = saveSetting [root; t; field] v (config st)
  ∧ renderables st' = renderables st
  ∧ ∃ r', heap st' !! l = Some r'
      ∧ poseMessage (userData r') = poseMessage (userData r)
      ∧ messageTime (userData r') = messageTime (userData r)
      ∧ receiveTime (userData r') = receiveTime (userData r)
      ∧ settings (userData r')
        = spread_opt (settings (userData r)) (topics (config st') !! t)
      ∧ (∀ mk, createArrowMarker (poseMessage (userData r))
                 (settings (userData r')) = Return mk →
               o = Returned ∧ arrow_marker (arrow (userData r')) = mk)
      ∧ (∀ m, o = Returned → poseMessage (userData r) = WithCovariance m →
              ∃ s, sphere (userData r') = Some s
                   ∧ createSphereMarker m (settings (userData r'))
                     = Some (sphere_marker s)).
Proof.
  intros st Hr Hl st' o.
  assert (Hwf : wf st) by apply run_wf, wf_initial.
  destruct (edit_existing st root t field v l r Hwf Hr Hl)
    as (r' & n' & o' & Hu & Ha).
  subst st' o. rewrite Ha. simpl. split; [done|]. split; [done|].
  exists r'. rewrite lookup_insert_eq.
  pose proof (update_frame _ _ _ _ _ _ _ Hu)
    as (_ & Hs & _ & _ & _ & Hrt & Hmt & _ & Hpm & _).
  simpl in Hs.
  pose proof (update_outcome
                (with_userData r
                   (set_settings (userData r)
                      (spread_opt (settings (userData r))
                         (topics (saveSetting [root; t; field] v (config st))
                            !! t))))
                (poseMessage (userData r))
                (receiveTime (userData r)) (next_loc st)) as Ho.
  rewrite Hu in Ho. simpl in Ho. rewrite <- Hs in Ho.
  repeat split; auto.
  - rewrite Hmt. symmetry. apply (wf_time _ Hwf _ _ Hl).
  - apply Ho. eauto.
  - assert (o' = Returned) as -> by (apply Ho; eauto).
    apply update_arrow in Hu. simpl in Hu. rewrite <- Hs in Hu. congruence.
  - intros m -> Hm. rewrite Hm in Hu.
    apply update_sphere in Hu as (s & Hsph & Hmk & _).
    exists s. split; [done|]. by rewrite Hs.
Qed.

(** C3: once a renderable has its sphere and shows a covariance-bearing
    message, switching [showCovariance] off and on again keeps the very
    same sphere object: both edits return, nothing is allocated, the
    sphere's reference is unchanged, its visible flag is [false] after the
    first edit and [true] after the second, and the two spheres differ in
    that flag only. *)
Theorem covariance_toggle_keeps_sphere (cfg : RendererConfig)
    (evs : list event) (t : string) (l : loc) (r : PoseRenderable)
    (s0 : RenderableSphere) (m : PoseWithCovarianceStamped) :
  let st := run evs (initial cfg) in
  renderables st !! t = Some l → heap st !! l = Some r →
  sphere (userData r) = Some s0 →
  poseMessage (userData r) = WithCovariance m →
  indexable (get (settings (userData r)) "scale") →
  let off :=
    handleSettingsAction (edit "topics" t "showCovariance" (JBool false)) st in
  let on :=
    handleSettingsAction (edit "topics" t "showCovariance" (JBool true)) off.1 in
  off.2 = Returned ∧ on.2 = Returned
  ∧ next_loc on.1 = next_loc st
  ∧ ∃ r1 s1 r2,
      heap off.1 !! l = Some r1
      ∧ sphere (userData r1) = Some s1
      ∧ sphere_ref s1 = sphere_ref s0
      ∧ sphere_visible s1 = JBool false
      ∧ get (settings (userData r1)) "showCovariance" = JBool false
      ∧ heap on.1 !! l = Some r2
      ∧ sphere (userData r2) = Some (sphere_set_visible s1 (JBool true))
      ∧ get (settings (userData r2)) "showCovariance" = JBool true.
Proof.
  intros st Hr Hl Hs0 Hm Hi off on.
  assert (Hwf : wf st) by apply run_wf, wf_initial.
  assert (Hcov : covers st) by (apply run_covers; [apply wf_initial | apply covers_initial]).
  (* first edit *)
  destruct (edit_existing st "topics" t "showCovariance" (JBool false) l r
              Hwf Hr Hl) as (r1 & n1 & o1 & Hu1 & Ha1).
  rewrite (edit_settings st t "showCovariance" (JBool false) l r Hcov Hr Hl
             eq_refl) in Hu1.
  rewrite Hm in Hu1.
  pose proof (update_frame _ _ _ _ _ _ _ Hu1)
    as (_ & Hset1 & _ & _ & _ & Hrt1 & _ & _ & Hpm1 & _).
  simpl in Hset1.
  assert (o1 = Returned) as ->.
  { apply (update_returned _ _ _ _ _ _ _ Hu1). simpl. unfold get.
    rewrite lookup_insert_ne; [apply Hi | done]. }
  pose proof Hu1 as Hk1.
  eapply (update_keeps_sphere _ _ _ _ _ _ _ s0) in Hk1; [|exact Hs0].
  destruct Hk1 as (-> & s1 & Hs1 & Href1).
  destruct (update_sphere _ _ _ _ _ _ Hu1) as (s1' & Hs1' & Hmk1 & Hvis1 & _).
  assert (s1' = s1) by congruence. subst s1'. simpl in Hmk1, Hvis1.
  unfold get in Hvis1 at 1. rewrite lookup_insert_eq in Hvis1. simpl in Hvis1.
  (* second edit *)
  assert (Hoff : off = ({| config := saveSetting ["topics"; t; "showCovariance"]
                                       (JBool false) (config st);
                           renderables := renderables st;
                           scene_children := scene_children st;
                           heap := <[l := r1]> (heap st);
                           next_loc := next_loc st |}, Returned)) by apply Ha1.
  assert (Hwf1 : wf off.1) by (subst off; by apply handleSettingsAction_wf).
  assert (Hcov1 : covers off.1).
  { subst off. by apply (handle_covers (OnSettingsAction _)). }
  assert (Hr1 : renderables off.1 !! t = Some l) by (by rewrite Hoff).
  assert (Hl1 : heap off.1 !! l = Some r1).
  { rewrite Hoff. simpl. apply lookup_insert_eq. }
  destruct (edit_existing off.1 "topics" t "showCovariance" (JBool true) l r1
              Hwf1 Hr1 Hl1) as (r2 & n2 & o2 & Hu2 & Ha2).
  rewrite (edit_settings off.1 t "showCovariance" (JBool true) l r1 Hcov1 Hr1
             Hl1 eq_refl) in Hu2.
  rewrite Hpm1 in Hu2.
  pose proof (update_frame _ _ _ _ _ _ _ Hu2) as (_ & Hset2 & _).
  simpl in Hset2.
  assert (o2 = Returned) as ->.
  { apply (update_returned _ _ _ _ _ _ _ Hu2). simpl. unfold get.
    rewrite lookup_insert_ne; [|done]. rewrite Hset1.
    rewrite lookup_insert_ne; [apply Hi | done]. }
  pose proof Hu2 as Hk2.
  eapply (update_keeps_sphere _ _ _ _ _ _ _ s1) in Hk2; [|exact Hs1].
  destruct Hk2 as (-> & s2 & Hs2 & Href2).
  destruct (update_sphere _ _ _ _ _ _ Hu2) as (s2' & Hs2' & Hmk2 & Hvis2 & _).
  assert (s2' = s2) by congruence. subst s2'. simpl in Hmk2, Hvis2.
  unfold get in Hvis2 at 1. rewrite lookup_insert_eq in Hvis2. simpl in Hvis2.
  assert (Hsame : sphere_marker s2 = sphere_marker s1).
  { unfold createSphereMarker in Hmk1, Hmk2. unfold get in Hmk1, Hmk2.
    rewrite lookup_insert_ne in Hmk2 by done. rewrite Hset1 in Hmk2.
    congruence. }
  fold on in Ha2. rewrite Ha2, Hoff. simpl.
  repeat split; try done.
  exists r1, s1, r2. rewrite !lookup_insert_eq. repeat split; try done.
  - rewrite Hset1. unfold get. by rewrite lookup_insert_eq.
  - rewrite Hs2. f_equal. destruct s2, s1; unfold sphere_set_visible; simpl in *.
    congruence.
  - rewrite Hset2. unfold get. by rewrite lookup_insert_eq.
Qed.

(** *** Geometry of the covariance sphere *)

(** C1: for every normalized [PoseWithCovarianceStamped] message the
    sphere marker has scale [sqrt K[0], sqrt K[7], sqrt K[14]], [K] being
    the message's covariance; once the message is handled (its topic's
    scale setting being indexable, so that the arrow can be derived) the
    renderable of the topic holds a sphere showing that scale; and a
    covariance with 0.04, 0.09 and 0.01 at offsets 0, 7 and 14 gives the
    scale 0.2, 0.3, 0.1. *)
Theorem sphere_scale_from_covariance (cfg : RendererConfig) (evs : list event)
    (e : MessageEvent PartialPoseWithCovarianceStamped) :
  let st := run evs (initial cfg) in
  let m := normalizePoseWithCovarianceStamped (ev_message e) in
  let K := covariance (pcs_pose m) in
  let scale :=
    {| x := JNum (Math_sqrt (K !! 0%nat));
       y := JNum (Math_sqrt (K !! 7%nat));
       z := JNum (Math_sqrt (K !! 14%nat)) |} in
  (∀ s, m_scale <$> createSphereMarker m s = Some scale)
  ∧ (indexable (get (effective_settings st (ev_topic e)) "scale") →
     let st' := (handlePoseWithCovariance e st).1 in
     ∃ l r s, renderables st' !! ev_topic e = Some l
              ∧ heap st' !! l = Some r
              ∧ sphere (userData r) = Some s
              ∧ m_type (sphere_marker s) = SPHERE
              ∧ m_scale (sphere_marker s) = scale)
  ∧ (K !! 0%nat = Some 0.04%float → K !! 7%nat = Some 0.09%float →
     K !! 14%nat = Some 0.01%float →
     scale = {| x := JNum 0.2%float; y := JNum 0.3%float; z := JNum 0.1%float |}).
Proof.
  intros st m K scale. split; [done|]. split.
  - intros Hi st'.
    assert (Hwf : wf st) by apply run_wf, wf_initial.
    assert (Hgen : ∀ r rt n r' n',
      _updatePoseRenderable r (WithCovariance m) rt n = (r', n', Returned) →
      ∃ s, sphere (userData r') = Some s ∧ m_type (sphere_marker s) = SPHERE
           ∧ m_scale (sphere_marker s) = scale).
    { intros r rt n r' n' Hu.
      apply update_sphere in Hu as (s & Hs & Hmk & _).
      exists s. split; [done|]. unfold createSphereMarker in Hmk.
      injection Hmk as <-. done. }
    subst st'. unfold handlePoseWithCovariance. fold m.
    unfold effective_settings in Hi.
    destruct (renderables st !! ev_topic e) as [l|] eqn:Hr.
    + destruct (addPose_again st _ l (WithCovariance m)
                  (toNanoSec (ev_receiveTime e)) Hwf Hr)
        as (r & r' & n' & o & Hl & _ & Hu & ->).
      rewrite Hl in Hi.
      pose proof (update_returned _ _ _ _ _ _ _ Hu Hi) as ->.
      destruct (Hgen _ _ _ _ _ Hu) as (s & Hs & Hty & Hsc).
      exists l, r', s. simpl. rewrite Hr, lookup_insert_eq. done.
    + destruct (addPose_new st _ (WithCovariance m)
                  (toNanoSec (ev_receiveTime e)) Hwf Hr Hi)
        as (r0 & r & n0 & n & Hu & _ & _ & _ & _ & ->).
      destruct (Hgen _ _ _ _ _ Hu) as (s & Hs & Hty & Hsc).
      exists (S (next_loc st)), r, s. simpl. rewrite !lookup_insert_eq. done.
  - intros H0 H7 H14. subst scale. rewrite H0, H7, H14. reflexivity.
Qed.

(** *** Merging settings *)

Lemma spread_lookup (a b : gmap string jsval) k :
  spread a b !! k = match b !! k with Some v => Some v | None => a !! k end.
Proof.
  unfold spread. rewrite lookup_union. destruct (b !! k), (a !! k); done.
Qed.

Lemma spread_assoc (a b c : gmap string jsval) :
  spread (spread a b) c = spread a (spread b c).
Proof. unfold spread. by rewrite (assoc_L (∪)). Qed.

Lemma spread_opt_spread (a : gmap string jsval) o :
  spread_opt a o = spread a (default ∅ o).
Proof.
  destruct o; [done|]. simpl. unfold spread. by rewrite (left_id_L ∅ (∪)).
Qed.

(** C4: the effective settings are the defaults with every field set in
    an override taking precedence, the later override first, and fields
    set in neither override are those of the defaults; applying the
    overrides one after the other is the single merge
    [{...defaults, ...override1, ...override2}]; and this is what the
    extension does: a renderable created under the saved settings
    [override1] and then edited, the saved settings becoming [override2],
    has the settings [{...DEFAULT_SETTINGS, ...override1, ...override2}]. *)
Theorem settings_merge_sequential (defaults override1 override2 : gmap string jsval) :
  (∀ k, spread (spread defaults override1) override2 !! k
        = match override2 !! k with
          | Some v => Some v
          | None => match override1 !! k with
                    | Some v => Some v
                    | None => defaults !! k
                    end
          end)
  ∧ (∀ k, is_Some (defaults !! k) →
          is_Some (spread (spread defaults override1) override2 !! k))
  ∧ spread_all [spread_all [defaults; override1]; override2]
    = spread_all [defaults; override1; override2]
  ∧ spread (spread defaults override1) override2
    = spread_all [defaults; override1; override2]
  ∧ (∀ cfg evs t m rt root field v,
       let st := run evs (initial cfg) in
       renderables st !! t = None →
       indexable (get (initial_settings st t) "scale") →
       override1 = default ∅ (topics (config st) !! t) →
       let st1 := (addPose t m rt st).1 in
       let st2 := (handleSettingsAction (edit root t field v) st1).1 in
       override2 = default ∅ (topics (config st2) !! t) →
       ∃ l r, renderables st2 !! t = Some l ∧ heap st2 !! l = Some r
              ∧ settings (userData r)
                = spread_all [DEFAULT_SETTINGS; override1; override2]).
Proof.
  assert (Hall : ∀ a b c : gmap string jsval,
            spread_all [a; b; c] = spread (spread a b) c).
  { intros a b c. unfold spread_all. simpl. unfold spread at 3.
    by rewrite (right_id_L ∅ (∪)). }
  split; [|split; [|split; [|split]]].
  - intros k. rewrite !spread_lookup. done.
  - intros k [v Hv]. rewrite !spread_lookup, Hv.
    destruct (override2 !! k), (override1 !! k); eauto.
  - rewrite Hall. unfold spread_all. simpl. unfold spread at 2 4.
    by rewrite !(right_id_L ∅ (∪)).
  - by rewrite Hall.
  - intros cfg evs t m rt root field v st Hr Hi Ho1 st1 st2 Ho2.
    assert (Hwf : wf st) by apply run_wf, wf_initial.
    destruct (addPose_new st t m rt Hwf Hr Hi)
      as (r0 & r & n0 & n & Hu & _ & Hs0 & _ & _ & Ha).
    apply update_frame in Hu as (_ & Hs & _).
    assert (Hwf1 : wf st1) by (subst st1; by apply addPose_wf).
    assert (Hr1 : renderables st1 !! t = Some (S (next_loc st))).
    { subst st1. rewrite Ha. simpl. apply lookup_insert_eq. }
    assert (Hl1 : heap st1 !! S (next_loc st) = Some r).
    { subst st1. rewrite Ha. simpl. apply lookup_insert_eq. }
    destruct (edit_existing st1 root t field v _ r Hwf1 Hr1 Hl1)
      as (r' & n' & o & Hu' & Ha').
    apply update_frame in Hu' as (_ & Hs' & _). simpl in Hs'.
    exists (S (next_loc st)), r'. subst st2. rewrite Ha' in *. simpl in *.
    rewrite lookup_insert_eq. repeat split; auto.
    rewrite Hall, Hs', Hs, Hs0. unfold initial_settings.
    rewrite !spread_opt_spread. by subst.
Qed.

(** *** Actions the settings handler ignores *)

(** C6: an action that is not an update, or whose path does not have
    exactly three segments, changes nothing and returns; any other action
    is persisted under its path, whatever its segments are. *)
Theorem settings_action_guard (a : SettingsTreeAction) (st : SceneState) :
  (ignored a → handleSettingsAction a st = (st, Returned))
  ∧ (¬ ignored a →
     config (handleSettingsAction a st).1
     = saveSetting (payload_path a) (payload_value a) (config st)).
Proof.
  split.
  - apply handleSettingsAction_ignored.
  - intros Hi. destruct (not_ignored a Hi) as (root & t & field & Ha).
    rewrite Ha. simpl.
    unfold handleSettingsAction. simpl.
    destruct (renderables st !! t) as [l|] eqn:Hr; [|done].
    destruct (heap st !! l) as [r|] eqn:Hl; [|done].
    erewrite update_in_place_config; [done|]. simpl. apply lookup_insert_eq.
Qed.

(** An update whose path has three segments but does not start with
    ["topics"] is not ignored: it is persisted. *)
Lemma wrong_segment_is_persisted :
  let a := edit "layers" "/pose" "color" (JStr "red") in
  ¬ expected_shape (payload_path a)
  ∧ (handleSettingsAction a (initial empty_config)).1 ≠ initial empty_config.
Proof.
  split.
  - intros (t & f & H). discriminate H.
  - intros H.
    apply (f_equal (λ st, bool_decide (is_Some (config_rest (config st) !! "layers"))))
      in H.
    vm_compute in H. discriminate H.
Qed.

(** *** Normalisation *)


(** *** The properties at work on the sample data *)

Ltac by_evaluation :=
  match goal with
  | |- ?lhs = _ =>
      let v := eval vm_compute in lhs in
      transitivity v; [vm_compute; reflexivity | reflexivity]
  end.

Lemma sphere_scale_from_covariance_witness :
  ∃ l r s,
    renderables (handlePoseWithCovariance sample_event (initial empty_config)).1
      !! "/pose" = Some l
    ∧ heap (handlePoseWithCovariance sample_event (initial empty_config)).1
        !! l = Some r
    ∧ sphere (userData r) = Some s
    ∧ m_scale (sphere_marker s)
      = {| x := JNum 0.2%float; y := JNum 0.3%float; z := JNum 0.1%float |}.
Proof.
  pose proof (sphere_scale_from_covariance empty_config [] sample_event) as H.
  cbv zeta in H.
  change (run [] (initial empty_config)) with (initial empty_config) in H.
  destruct H as (_ & H2 & H3).
  destruct H2 as (l & r & s & Hr & Hl & Hs & _ & Hsc).
  { split; vm_compute; discriminate. }
  exists l, r, s. split; [exact Hr|]. split; [exact Hl|]. split; [exact Hs|].
  rewrite Hsc. apply H3; vm_compute; reflexivity.
Defined.

Lemma settings_edit_keeps_message_witness :
  config (handleSettingsAction (edit "topics" "/pose" "color" (JStr "red"))
            sample_state).1
  = saveSetting ["topics"; "/pose"; "color"] (JStr "red") (config sample_state).
Proof.
  unfold sample_state.
  eapply (settings_edit_keeps_message empty_config
            [OnPoseWithCovariance sample_event] "topics" "/pose" "color"
            (JStr "red") 1).
  - vm_compute. reflexivity.
  - by_evaluation.
Defined.

Lemma covariance_toggle_keeps_sphere_witness :
  (handleSettingsAction (edit "topics" "/pose" "showCovariance" (JBool true))
     (handleSettingsAction (edit "topics" "/pose" "showCovariance" (JBool false))
        sample_state).1).2 = Returned.
Proof.
  unfold sample_state.
  eapply (covariance_toggle_keeps_sphere empty_config
            [OnPoseWithCovariance sample_event] "/pose" 1).
  - vm_compute. reflexivity.
  - by_evaluation.
  - by_evaluation.
  - by_evaluation.
  - split; vm_compute; discriminate.
Defined.

Lemma settings_merge_sequential_witness :
  ∃ l r,
    renderables
      (handleSettingsAction (edit "topics" "/pose" "color" (JStr "red"))
         (addPose "/pose" (Stamped (normalizePoseStamped
                                      {| p_ps_header := None; p_ps_pose := None |}))
            0 (initial empty_config)).1).1 !! "/pose" = Some l
    ∧ heap
        (handleSettingsAction (edit "topics" "/pose" "color" (JStr "red"))
           (addPose "/pose" (Stamped (normalizePoseStamped
                                        {| p_ps_header := None; p_ps_pose := None |}))
              0 (initial empty_config)).1).1 !! l = Some r
    ∧ settings (userData r)
      = spread_all [DEFAULT_SETTINGS; ∅; {["color" := JStr "red"]}].
Proof.
  pose proof (settings_merge_sequential DEFAULT_SETTINGS ∅
                {["color" := JStr "red"]}) as H.
  destruct H as (_ & _ & _ & _ & H).
  specialize (H empty_config [] "/pose"
                (Stamped (normalizePoseStamped
                            {| p_ps_header := None; p_ps_pose := None |}))
                0%Z "topics" "color" (JStr "red")).
  cbv zeta in H.
  change (run [] (initial empty_config)) with (initial empty_config) in H.
  apply H.
  - vm_compute. reflexivity.
  - split; vm_compute; discriminate.
  - vm_compute. reflexivity.
  - vm_compute. reflexivity.
Defined.

Lemma settings_action_guard_witness :
  handleSettingsAction
    {| action := Update; payload_path := ["topics"; "/pose"];
       payload_value := JBool false |} sample_state
  = (sample_state, Returned)
  ∧ config (handleSettingsAction
              (edit "layers" "/pose" "color" (JStr "red")) sample_state).1
    = saveSetting ["layers"; "/pose"; "color"] (JStr "red") (config sample_state).
Proof.
  split.
  - apply (proj1 (settings_action_guard _ _)). right. simpl. lia.
  - apply (proj2 (settings_action_guard
                    (edit "layers" "/pose" "color" (JStr "red")) sample_state)).
    intros [H|H]; [by apply H | simpl in H; lia].
Defined.


Lemma one_renderable_per_topic_witness :
  (∃ l, renderables (addPose "/pose"
                       (WithCovariance
                          (normalizePoseWithCovarianceStamped
                             (ev_message sample_event)))
                       0 (initial empty_config)).1 !! "/pose" = Some l)
  ∧ renderables
      (run [OnPoseWithCovariance sample_event]
         (run [OnPoseWithCovariance sample_event] (initial empty_config)))
      !! "/pose" = Some 1.
Proof.
  split.
  - pose proof (one_renderable_per_topic empty_config []) as H.
    cbv zeta in H.
    change (run [] (initial empty_config)) with (initial empty_config) in H.
    destruct H as (_ & H & _).
    destruct (H "/pose"
                (WithCovariance
                   (normalizePoseWithCovarianceStamped (ev_message sample_event)))
                0%Z)
      as (l & r & _ & Hr & _).
    + vm_compute. reflexivity.
    + split; vm_compute; discriminate.
    + exists l. rewrite Hr. apply lookup_insert_eq.
  - pose proof (one_renderable_per_topic empty_config
                  [OnPoseWithCovariance sample_event]) as H.
    cbv zeta in H. destruct H as (_ & _ & _ & H).
    apply (H "/pose" 1 [OnPoseWithCovariance sample_event]).
    vm_compute. reflexivity.
Defined.

End PosesFacts.

(** ** Facts about the diagnostics summary *)

Module DiagnosticsFacts.
Import Diagnostics.

Lemma toggle_absent ids i : i ∉ ids → toggle ids i = ids ++ [i].
Proof. intros Hi. unfold toggle. by rewrite bool_decide_eq_false_2. Qed.

Lemma toggle_present ids i : i ∈ ids → toggle ids i = filter (λ el, el ≠ i) ids.
Proof. intros Hi. unfold toggle. by rewrite bool_decide_eq_true_2. Qed.

Lemma toggle_twice ids i :
  i ∈ ids → toggle (toggle ids i) i = filter (λ el, el ≠ i) ids ++ [i].
Proof.
  intros Hi. rewrite (toggle_present _ _ Hi). apply toggle_absent.
  rewrite list_elem_of_filter. by intros [? _].
Qed.

Section summary_facts.
Context `{DiagnosticsUtil}.

Lemma rendered_nodes config diagnostics :
  size diagnostics ≠ 0 → rendered config diagnostics = nodes config diagnostics.
Proof.
  intros Hs. unfold rendered, summary. case_decide; [done|].
  by destruct (nodes config diagnostics).
Qed.

End summary_facts.

(** With the ok entity pinned and a minimum level of error, the only row
    is the unpinned error entity: the pinned entity is not first, it is
    not shown. *)
Lemma pinned_below_minLevel_not_rendered :
  pinnedNodes sample_config sample_diagnostics = [sample_info "hw" "quiet" 0]
  ∧ rendered (H := sample_util) sample_config sample_diagnostics
    = [sample_info "hw" "loud" 2]
  ∧ ¬ ∃ rest, rendered (H := sample_util) sample_config sample_diagnostics
              = pinnedNodes sample_config sample_diagnostics ++ rest.
Proof.
  assert (H1 : pinnedNodes sample_config sample_diagnostics
               = [sample_info "hw" "quiet" 0]) by (vm_compute; reflexivity).
  assert (H2 : rendered (H := sample_util) sample_config sample_diagnostics
               = [sample_info "hw" "loud" 2]) by (vm_compute; reflexivity).
  split; [done|]. split; [done|].
  rewrite H1, H2. intros [rest Hrest]. simpl in Hrest.
  injection Hrest as Hrest _. vm_compute in Hrest. discriminate Hrest.
Qed.

End DiagnosticsFacts.

(** ** Facts about the chart worker bridge *)

Module ChartBridgeFacts.
Import Js ChartBridge.

Section manager_facts.
Context `{ChartJs}.

Lemma with_chart_same (m : ChartJSManager) : with_chart m (_chartInstance m) = m.
Proof. by destruct m. Qed.


(** An operation never touches the stored click context, keeps a chart
    instance where there is one, and leaves a manager without instance as
    it is. *)
Lemma perform_frame op (m : ChartJSManager) :
  _lastDatalabelClickContext (perform op m).1 = _lastDatalabelClickContext m
  ∧ (is_Some (_chartInstance (perform op m).1) ↔ is_Some (_chartInstance m))
  ∧ (_chartInstance m = None → (perform op m).1 = m).
Proof.
  destruct (_chartInstance m) as [c|] eqn:Hc.
  - destruct op; simpl;
      unfold wheel, mousedown, mousemove, mouseup, panstart, panmove, panend,
        pan, update; rewrite Hc; cbv zeta;
      try destruct (chart_zoom c); simpl; rewrite ?Hc;
      (split; [done|]); (split; [|done]); (split; eauto).
  - destruct op; simpl;
      unfold wheel, mousedown, mousemove, mouseup, panstart, panmove, panend,
        pan, update; rewrite Hc; cbv zeta; simpl; rewrite ?Hc;
      (split; [done|]); (split; [done|]); intros _; try done;
      rewrite <- Hc; apply with_chart_same.
Qed.


Lemma notify_chart c e (m : ChartJSManager) :
  _chartInstance (notifyPlugins_beforeEvent c e m) = _chartInstance m.
Proof. unfold notifyPlugins_beforeEvent. by repeat case_match. Qed.

Lemma notify_no_click c e (m : ChartJSManager) :
  datalabel_clicked c e = None → notifyPlugins_beforeEvent c e m = m.
Proof. intros Hn. unfold notifyPlugins_beforeEvent. by rewrite Hn. Qed.

(** What a datalabel query does on a manager with a chart instance: it
    answers with the data point of the context that is stored once the
    plugins were notified, the one its own event clicked if it clicked
    one and the one stored before otherwise, and stores none. *)
Lemma getDatalabelAtEvent_consumes (event : Event) (m : ChartJSManager) c :
  _chartInstance m = Some c →
  getDatalabelAtEvent event m
  = (with_context m None,
     Return (datum (match clicked c event with
                    | Some context => Some context
                    | None => _lastDatalabelClickContext m
                    end))).
Proof.
  intros Hc. unfold getDatalabelAtEvent, notifyPlugins_beforeEvent, clicked.
  rewrite Hc.
  destruct (datalabel_clicked c event) as [context|]; [|done].
  destruct (plugins_datalabels (chart_options c)) as [[[]]|]; done.
Qed.

(** C10: [getDatalabelAtEvent] consumes the stored click context. A call
    answers with the data point of the most recent datalabel click, the
    one of its own event or else the stored one, and leaves no context
    behind, the manager being otherwise unchanged; so the call that
    follows answers [undefined] when its own event clicks no datalabel,
    and with the data point of its own click otherwise, never with the
    one the first call answered with. *)
Theorem datalabel_context_consumed (e1 e2 : Event) (m : ChartJSManager)
    (c : Chart) :
  _chartInstance m = Some c →
  let recent := match clicked c e1 with
                | Some context => Some context
                | None => _lastDatalabelClickContext m
                end in
  let first := getDatalabelAtEvent e1 m in
  first = (with_context m None, Return (datum recent))
  ∧ _lastDatalabelClickContext first.1 = None
  ∧ getDatalabelAtEvent e2 first.1
    = (first.1, Return (datum (clicked c e2)))
  ∧ (clicked c e2 = None →
     getDatalabelAtEvent e2 first.1 = (first.1, Return JUndefined)).
Proof.
  intros Hc recent first.
  assert (Hfirst : first = (with_context m None, Return (datum recent)))
    by by apply getDatalabelAtEvent_consumes.
  assert (Hsecond : getDatalabelAtEvent e2 first.1
                    = (first.1, Return (datum (clicked c e2)))).
  { rewrite Hfirst. cbn [fst].
    rewrite (getDatalabelAtEvent_consumes e2 (with_context m None) c Hc).
    simpl. by destruct (clicked c e2). }
  split; [done|]. split; [by rewrite Hfirst|]. split; [done|].
  intros Hnone. by rewrite Hsecond, Hnone.
Qed.

End manager_facts.



Lemma datalabel_context_consumed_witness :
  getDatalabelAtEvent (H := sample_chartjs) true manager_with_chart
  = (manager_with_chart, Return (JStr "label"))
  ∧ getDatalabelAtEvent (H := sample_chartjs) false manager_with_chart
    = (manager_with_chart, Return JUndefined).
Proof.
  pose proof (datalabel_context_consumed (H := sample_chartjs) true false
                manager_with_chart _ eq_refl) as H.
  cbv zeta in H. destruct H as (H1 & _ & _ & H2).
  split; [exact H1 | exact (H2 eq_refl)].
Defined.

End ChartBridgeFacts.

(** ** More facts about the pose scene extension *)

Module PosesMore.
Import Js Ros Normalize Poses PosesEvents PosesFacts.

#[local] Arguments saveSetting : simpl never.

Lemma with_settings_same r :
  with_userData r (set_settings (userData r) (settings (userData r))) = r.
Proof. by destruct r as [[] ?]. Qed.

Lemma with_config_same st : with_config st (config st) = st.
Proof. by destruct st. Qed.

(** An update with a [PoseStamped] message never touches the sphere. *)
Lemma update_stamped r m rt n r' n' o :
  _updatePoseRenderable r (Stamped m) rt n = (r', n', o) →
  sphere (userData r') = sphere (userData r) ∧ n' = n.
Proof. intros H. split_update H; auto. Qed.

(** What a raising update leaves behind. *)
Lemma update_threw r m rt n r' n' :
  _updatePoseRenderable r m rt n = (r', n', Threw) →
  r' = with_userData r (set_message (userData r) rt m) ∧ n' = n.
Proof. intros H. split_update H; auto. Qed.

Lemma addPose_creates_added st t m rt mk :
  renderables st !! t = None →
  createArrowMarker m (initial_settings st t) = Return mk →
  ∃ r0 n0,
    addPose t m rt st
    = update_in_place (S (next_loc st)) m rt
        {| config := config st;
           renderables := <[t := S (next_loc st)]> (renderables st);
           scene_children := scene_children st ++ [S (next_loc st)];
           heap := <[S (next_loc st) := r0]> (heap st);
           next_loc := n0 |}
    ∧ topic (userData r0) = t
    ∧ settings (userData r0) = initial_settings st t
    ∧ added r0
      = next_loc st :: match sphere (userData r0) with
                       | Some s => [sphere_ref s]
                       | None => []
                       end
    ∧ arrow_ref (arrow (userData r0)) = next_loc st
    ∧ Forall (λ a, a < n0) (added r0)
    ∧ match m with
      | WithCovariance _ =>
          ∃ s, sphere (userData r0) = Some s ∧ sphere_ref s = S (S (next_loc st))
      | Stamped _ => sphere (userData r0) = None
      end.
Proof.
  intros H Hc. unfold addPose, initial_settings in *. rewrite H, Hc.
  destruct m as [m|m]; simpl.
  - eexists _, _. split; [reflexivity|]. simpl.
    split; [done|]. split; [done|]. split; [done|]. split; [done|].
    split; [|done]. repeat constructor.
  - eexists _, _. split; [reflexivity|]. simpl.
    split; [done|]. split; [done|]. split; [done|]. split; [done|].
    split; [|eauto]. repeat constructor; lia.
Qed.

Lemma addPose_shape e st t m rt :
  wf st → handle e st = addPose t m rt st →
  event_target e = Some t → event_message e = Some m →
  step_shape e st.
Proof.
  intros Hwf He Ht Hm. unfold step_shape. rewrite He.
  destruct (renderables st !! t) as [l|] eqn:Hr.
  - right. left.
    destruct (addPose_again st t l m rt Hwf Hr)
      as (r & r' & n' & o & Hl & _ & Hu & Ha).
    exists t, l, r, (config st), (settings (userData r)), rt, r', n'.
    rewrite Hm, Ha, with_settings_same. simpl.
    split; [done|]. split; [done|]. split; [done|]. split; [done|].
    split; [by intros [=]|]. done.
  - destruct (createArrowMarker m (initial_settings st t)) as [mk|] eqn:Hc.
    + right. right.
      assert (Hfree : heap st !! S (next_loc st) = None).
      { destruct (heap st !! S (next_loc st)) as [r1|] eqn:E; [|done].
        pose proof (wf_fresh _ Hwf _ _ E). lia. }
      destruct (addPose_creates_added st t m rt mk Hr Hc)
        as (r0 & n0 & Ha & Htop & Hset & Hadded & Harrow & Hbound & Hsph).
      match type of Ha with _ = update_in_place ?l _ _ ?st1 =>
        destruct (update_in_place_stored st1 l r0 m rt)
          as (r' & n' & Hu & Hst); [simpl; apply lookup_insert_eq|]
      end.
      simpl in Hst. rewrite insert_insert_eq in Hst. simpl in Hu.
      exists t, m, rt, r0, n0, r', n'. rewrite Ha.
      split; [done|]. split; [done|]. split; [done|]. split; [done|].
      split; [done|]. split; [done|]. split; [done|]. split; [done|].
      split; [done|]. split; [done|]. split; [exact Hu|exact Hst].
    + left. exists (config st). rewrite (addPose_throws _ _ _ _ Hr Hc).
      simpl. by rewrite with_config_same.
Qed.

Lemma handle_cases e st : wf st → step_shape e st.
Proof.
  intros Hwf. destruct e as [e|e|a].
  - by eapply addPose_shape.
  - by eapply addPose_shape.
  - unfold step_shape. destruct (decide (ignored a)) as [Hi|Hi].
    { left. exists (config st). simpl.
      rewrite handleSettingsAction_ignored by done. simpl.
      by rewrite with_config_same. }
    destruct (not_ignored a Hi) as (root & t & field & Ha).
    rewrite Ha. simpl.
    destruct (renderables st !! t) as [l|] eqn:Hr.
    + right. left. destruct (wf_map _ Hwf _ _ Hr) as (r & Hl & _).
      destruct (edit_existing st root t field (payload_value a) l r Hwf Hr Hl)
        as (r' & n' & o & Hu & Hh).
      exists t, l, r, (saveSetting [root; t; field] (payload_value a) (config st)),
        (spread_opt (settings (userData r))
           (topics (saveSetting [root; t; field] (payload_value a) (config st))
              !! t)),
        (receiveTime (userData r)), r', n'.
      rewrite Hh. simpl.
      split; [done|]. split; [done|]. split; [done|].
      split; [by intros [? [=]]|]. done.
    + left. rewrite (handleSettingsAction_no_renderable _ _ _ _ _ Hr).
      eexists. split; [reflexivity|]. by intros [? [=]].
Qed.

Lemma reachable_wf cfg evs : wf (run evs (initial cfg)).
Proof. apply run_wf, wf_initial. Qed.

Lemma reachable_covers cfg evs : covers (run evs (initial cfg)).
Proof. apply run_covers; [apply wf_initial | apply covers_initial]. Qed.

Lemma run_snoc evs e st : run (evs ++ [e]) st = (handle e (run evs st)).1.
Proof. by rewrite run_app. Qed.

(** Two references of the [renderables] map that are equal belong to the
    same topic. *)
Lemma wf_ref_inj st t1 t2 l :
  wf st → renderables st !! t1 = Some l → renderables st !! t2 = Some l →
  t1 = t2.
Proof.
  intros Hwf H1 H2.
  destruct (wf_map _ Hwf _ _ H1) as (r1 & Hl1 & <-).
  destruct (wf_map _ Hwf _ _ H2) as (r2 & Hl2 & <-). congruence.
Qed.

(** *** Events only touch the renderable of their topic *)

(** X1: an event that is not about topic [t] leaves the renderable of [t]
    exactly as it is, whatever state the extension has reached, and a
    message never changes the configuration. *)
Theorem events_touch_only_their_topic (cfg : RendererConfig)
    (evs : list event) (e : event) (t : string) (l : loc) :
  let st := run evs (initial cfg) in
  renderables st !! t = Some l →
  event_target e ≠ Some t →
  renderables (handle e st).1 !! t = Some l
  ∧ heap (handle e st).1 !! l = heap st !! l
  ∧ (is_Some (event_message e) → config (handle e st).1 = config st).
Proof.
  intros st Hr Hne. assert (Hwf : wf st) by apply reachable_wf.
  destruct (handle_cases e st Hwf)
    as [(c & -> & Hc)
       |[(t0 & l0 & r & c & s & rt & r' & n' & Ht & Hr0 & Hl0 & Hm & _ & _ & ->)
        |(t0 & m & rt & r0 & n0 & r' & n' & Ht & Hm & Hr0 & Hfree & _ & _
          & _ & _ & _ & _ & _ & ->)]]; simpl.
  - split; [done|]. split; [done|]. done.
  - split; [done|]. split; [|by intros [-> _]%Hm].
    apply lookup_insert_ne. intros <-. apply Hne. rewrite Ht. f_equal.
    by eapply wf_ref_inj.
  - split; [|split; [|done]].
    + rewrite lookup_insert_ne; [done|]. congruence.
    + apply lookup_insert_ne. intros <-.
      destruct (wf_map _ Hwf _ _ Hr) as (r1 & Hl1 & _). congruence.
Qed.

(** *** Primitives keep their identity *)

Lemma handle_keeps_primitives e st l r :
  wf st → heap st !! l = Some r →
  ∃ r', heap (handle e st).1 !! l = Some r'
        ∧ topic (userData r') = topic (userData r)
        ∧ arrow_ref (arrow (userData r')) = arrow_ref (arrow (userData r))
        ∧ added r' = added r
        ∧ (∀ s, sphere (userData r) = Some s →
                ∃ s', sphere (userData r') = Some s'
                      ∧ sphere_ref s' = sphere_ref s).
Proof.
  intros Hwf Hl.
  destruct (handle_cases e st Hwf)
    as [(c & -> & Hc)
       |[(t0 & l0 & r0 & c & s & rt & r' & n' & Ht & Hr0 & Hl0 & _ & _ & Hu & ->)
        |(t0 & m & rt & r0 & n0 & r' & n' & Ht & Hm & Hr0 & Hfree & _ & _
          & _ & _ & _ & _ & _ & ->)]]; simpl.
  - exists r. eauto 10.
  - destruct (decide (l = l0)) as [->|Hne].
    + assert (r0 = r) by congruence. subst r0.
      exists r'. rewrite lookup_insert_eq.
      pose proof (update_frame _ _ _ _ _ _ _ Hu)
        as (Htop & _ & _ & Hadd & Harr & _).
      repeat split; auto. intros s0 Hs0.
      by eapply (update_keeps_sphere _ _ _ _ _ _ _ s0) in Hu as (_ & Hk).
    + exists r. rewrite lookup_insert_ne by done. eauto 10.
  - exists r. rewrite lookup_insert_ne by congruence. eauto 10.
Qed.

(** X2: whatever events follow, a stored renderable stays stored under
    its reference with the same topic, the same arrow object and the same
    list of added children, and a sphere it has is never dropped or
    replaced by another object. *)
Theorem primitives_keep_identity (cfg : RendererConfig) (evs more : list event)
    (l : loc) (r : PoseRenderable) :
  let st := run evs (initial cfg) in
  heap st !! l = Some r →
  ∃ r', heap (run more st) !! l = Some r'
        ∧ topic (userData r') = topic (userData r)
        ∧ arrow_ref (arrow (userData r')) = arrow_ref (arrow (userData r))
        ∧ added r' = added r
        ∧ (∀ s, sphere (userData r) = Some s →
                ∃ s', sphere (userData r') = Some s'
                      ∧ sphere_ref s' = sphere_ref s).
Proof.
  intros st. assert (Hwf : wf st) by apply reachable_wf. clearbody st.
  revert st r Hwf. induction more as [|e more IH]; intros st r Hwf Hl.
  - exists r. eauto 10.
  - simpl.
    destruct (handle_keeps_primitives e st l r Hwf Hl)
      as (r1 & Hl1 & Ht1 & Ha1 & Hd1 & Hs1).
    destruct (IH (handle e st).1 r1 (handle_wf _ _ Hwf) Hl1)
      as (r2 & Hl2 & Ht2 & Ha2 & Hd2 & Hs2).
    exists r2. repeat split; try congruence.
    intros s Hs. destruct (Hs1 s Hs) as (s1 & Hs1' & Hr1).
    destruct (Hs2 s1 Hs1') as (s2 & Hs2' & Hr2).
    exists s2. split; [done|congruence].
Qed.

(** *** Topics that never carry a covariance *)

Lemma covariance_free_message t e m :
  covariance_free t e → event_target e = Some t → event_message e = Some m →
  ∃ m', m = Stamped m'.
Proof.
  destruct e as [e|e|a]; simpl; intros Hf Ht Hm; simplify_eq; eauto.
Qed.

Lemma handle_sphereless t e st :
  wf st → sphereless t st → covariance_free t e → sphereless t (handle e st).1.
Proof.
  intros Hwf HQ Hf.
  destruct (handle_cases e st Hwf)
    as [(c & -> & Hc)
       |[(t0 & l0 & r0 & c & s & rt & r' & n' & Ht & Hr0 & Hl0 & _ & _ & Hu & ->)
        |(t0 & m & rt & r0 & n0 & r' & n' & Ht & Hm & Hr0 & Hfree & _ & _
          & _ & _ & _ & Hsph & Hu & ->)]]; intros l r; simpl.
  - apply HQ.
  - intros Hr. rewrite lookup_insert. case_decide as Hd; [|by apply HQ].
    intros [= <-]. subst l0.
    assert (t0 = t) by (by eapply wf_ref_inj). subst t0.
    destruct (HQ _ _ Hr Hl0) as (Hs0 & m0 & Hm0).
    assert (∃ m', default (poseMessage (userData r0)) (event_message e)
                  = Stamped m') as [m' Hm'].
    { destruct (event_message e) as [m|] eqn:Hm; simpl; [|eauto].
      by eapply covariance_free_message. }
    rewrite Hm' in Hu.
    pose proof (update_frame _ _ _ _ _ _ _ Hu) as (_ & _ & _ & _ & _ & _ & _ & _ & Hpm & _).
    apply update_stamped in Hu as (Hs & _). simpl in Hs.
    split; [congruence|eauto].
  - rewrite lookup_insert. case_decide as Hd.
    + intros [= <-]. subst t0. rewrite lookup_insert_eq. intros [= <-].
      destruct (covariance_free_message t e m Hf Ht Hm) as [m' ->].
      pose proof (update_frame _ _ _ _ _ _ _ Hu) as (_ & _ & _ & _ & _ & _ & _ & _ & Hpm & _).
      apply update_stamped in Hu as (Hs & _).
      split; [congruence|eauto].
    + intros Hr. destruct (wf_map _ Hwf _ _ Hr) as (r1 & Hl1 & _).
      rewrite lookup_insert_ne by congruence. by apply HQ.
Qed.

(** X3: on a topic that never received a covariance-bearing message, the
    renderable has no sphere and nothing was allocated for one, whatever
    [PoseStamped] messages and settings edits (also of [showCovariance])
    were handled. *)
Theorem stamped_topics_have_no_sphere (cfg : RendererConfig)
    (evs : list event) (t : string) (l : loc) (r : PoseRenderable) :
  Forall (covariance_free t) evs →
  renderables (run evs (initial cfg)) !! t = Some l →
  heap (run evs (initial cfg)) !! l = Some r →
  sphere (userData r) = None ∧ added r = [arrow_ref (arrow (userData r))].
Proof.
  intros Hf.
  assert (Hgen : ∀ st, wf st →
    (∀ l r, renderables st !! t = Some l → heap st !! l = Some r →
       (sphere (userData r) = None ∧ ∃ m, poseMessage (userData r) = Stamped m)
       ∧ added r = [arrow_ref (arrow (userData r))]) →
    ∀ l r, renderables (run evs st) !! t = Some l →
           heap (run evs st) !! l = Some r →
           (sphere (userData r) = None ∧ ∃ m, poseMessage (userData r) = Stamped m)
           ∧ added r = [arrow_ref (arrow (userData r))]).
  { clear l r. induction Hf as [|e evs He Hf IH]; intros st Hwf HQ; [done|].
    simpl. apply IH; [by apply handle_wf|].
    intros l r Hr Hl. split.
    { eapply (handle_sphereless t e st Hwf); eauto.
      intros l0 r0 Hr0 Hl0. by apply (HQ l0 r0). }
    destruct (handle_cases e st Hwf)
      as [(c & Hst & Hc)
         |[(t0 & l0 & r0 & c & s & rt & r' & n' & Ht & Hr0 & Hl0 & _ & _ & Hu & Hst)
          |(t0 & m & rt & r0 & n0 & r' & n' & Ht & Hm & Hr0 & Hfree & _ & _
            & Hadded & Harr & _ & Hsph & Hu & Hst)]];
      rewrite Hst in Hr, Hl; simpl in Hr, Hl.
    - by apply (HQ l r).
    - rewrite lookup_insert in Hl. case_decide as Hd; [|by apply (HQ l r)].
      injection Hl as <-. subst l0.
      pose proof (update_frame _ _ _ _ _ _ _ Hu) as (_ & _ & _ & Hadd & Ha & _).
      simpl in Hadd, Ha. rewrite Hadd, Ha. by apply (HQ l r0).
    - rewrite lookup_insert in Hr. case_decide as Hd.
      + injection Hr as <-. subst t0. rewrite lookup_insert_eq in Hl.
        injection Hl as <-.
        destruct (covariance_free_message t e m He Ht Hm) as [m' ->].
        pose proof (update_frame _ _ _ _ _ _ _ Hu) as (_ & _ & _ & Hadd & Ha & _).
        rewrite Hadd, Ha, Hadded, Hsph, Harr. done.
      + destruct (wf_map _ Hwf _ _ Hr) as (r1 & Hl1 & _).
        rewrite lookup_insert_ne in Hl by congruence. by apply (HQ l r). }
  intros Hr Hl.
  destruct (Hgen (initial cfg) (wf_initial cfg)) with (l := l) (r := r)
    as ((Hs & _) & Ha); auto.
  intros l0 r0 H0. simpl in H0. by rewrite lookup_empty in H0.
Qed.

(** *** A sphere created late *)

Lemma handle_children_allocated e st :
  wf st → children_allocated st → children_allocated (handle e st).1.
Proof.
  intros Hwf HI.
  assert (Hmono : ∀ n (r : PoseRenderable),
            next_loc st ≤ n → Forall (λ a, a < next_loc st) (added r) →
            Forall (λ a, a < n) (added r)).
  { intros n r Hn Hf. eapply Forall_impl; [exact Hf|]. intros a Ha. simpl in Ha. lia. }
  destruct (handle_cases e st Hwf)
    as [(c & -> & Hc)
       |[(t0 & l0 & r0 & c & s & rt & r' & n' & Ht & Hr0 & Hl0 & _ & _ & Hu & ->)
        |(t0 & m & rt & r0 & n0 & r' & n' & Ht & Hm & Hr0 & Hfree & _ & _
          & Hadded & Harr & Hbound & Hsph & Hu & ->)]]; intros l r; simpl.
  - apply HI.
  - pose proof (update_frame _ _ _ _ _ _ _ Hu)
      as (_ & _ & _ & Hadd & _ & _ & _ & _ & _ & Hn).
    rewrite lookup_insert. case_decide.
    + intros [= <-]. rewrite Hadd. simpl. apply Hmono; [done|]. by eapply HI.
    + intros Hl. apply Hmono; [done|]. by eapply HI.
  - pose proof (update_frame _ _ _ _ _ _ _ Hu)
      as (_ & _ & _ & Hadd & _ & _ & _ & _ & _ & Hn).
    rewrite lookup_insert. case_decide.
    + intros [= <-]. rewrite Hadd. eapply Forall_impl; [exact Hbound|].
      intros a Ha. simpl in Ha. lia.
    + intros Hl. apply Hmono; [|by eapply HI].
      assert (n0 ≤ n') by done.
      destruct (added r0) as [|a0 ?]; [done|].
      apply Forall_cons in Hbound as [Hb _]. injection Hadded as -> _. lia.
Qed.

Lemma reachable_children_allocated cfg evs :
  children_allocated (run evs (initial cfg)).
Proof.
  assert (Hgen : ∀ st, wf st → children_allocated st →
                       children_allocated (run evs st)).
  { induction evs as [|e evs IH]; intros st Hwf HI; [done|].
    simpl. apply IH; [by apply handle_wf | by apply handle_children_allocated]. }
  apply Hgen; [apply wf_initial|].
  intros l r H. simpl in H. by rewrite lookup_empty in H.
Qed.

(** X4: when a covariance-bearing message arrives for a renderable that
    has no sphere (it was created by a [PoseStamped] message), a sphere is
    allocated under the next free reference and kept in the user data,
    but it is not added to the renderable: the list of added children is
    unchanged and does not contain the sphere. *)
Theorem late_sphere_is_not_added (cfg : RendererConfig) (evs : list event)
    (t : string) (l : loc) (r : PoseRenderable)
    (m : PoseWithCovarianceStamped) (rt : Z) :
  let st := run evs (initial cfg) in
  renderables st !! t = Some l → heap st !! l = Some r →
  sphere (userData r) = None →
  indexable (get (settings (userData r)) "scale") →
  let st' := (addPose t (WithCovariance m) rt st).1 in
  ∃ r' s, heap st' !! l = Some r'
          ∧ sphere (userData r') = Some s
          ∧ sphere_ref s = next_loc st
          ∧ next_loc st' = S (next_loc st)
          ∧ added r' = added r
          ∧ sphere_ref s ∉ added r'.
Proof.
  intros st Hr Hl Hs Hi st'.
  assert (Hwf : wf st) by apply reachable_wf.
  destruct (addPose_again st t l (WithCovariance m) rt Hwf Hr)
    as (r0 & r' & n' & o & Hl0 & _ & Hu & Ha).
  assert (r0 = r) by congruence. subst r0.
  pose proof (update_returned _ _ _ _ _ _ _ Hu Hi) as ->.
  pose proof (update_frame _ _ _ _ _ _ _ Hu) as (_ & _ & _ & Hadd & _).
  destruct (update_sphere _ _ _ _ _ _ Hu) as (s & Hs' & _ & _ & Href).
  rewrite Hs in Href.
  assert (n' = S (next_loc st)) as ->.
  { clear -Hu Hs. split_update Hu; congruence. }
  exists r', s. subst st'. rewrite Ha. simpl. rewrite lookup_insert_eq.
  repeat split; auto. rewrite Hadd, Href. intros Hin.
  pose proof (reachable_children_allocated cfg evs l r Hl) as Hb.
  rewrite Forall_forall in Hb. specialize (Hb _ Hin). fold st in Hb. lia.
Qed.

(** *** Settings saved before the first message *)

Lemma initial_settings_after_edit st t field v :
  nullish v = false →
  initial_settings
    (with_config st (saveSetting ["topics"; t; field] v (config st))) t
  = <[field := v]> (initial_settings st t).
Proof.
  intros Hv. unfold initial_settings, with_config. cbn [config].
  rewrite saveSetting_topics_same, save_field_value by done.
  simpl. unfold spread.
  rewrite <- insert_union_l. f_equal.
  destruct (topics (config st) !! t); simpl; [done|].
  by rewrite (left_id_L ∅ (∪)).
Qed.

Lemma initial_settings_after_unset st t field v :
  nullish v = true →
  initial_settings
    (with_config st (saveSetting ["topics"; t; field] v (config st))) t
  = spread_opt DEFAULT_SETTINGS (delete field <$> topics (config st) !! t).
Proof.
  intros Hv. unfold initial_settings, with_config. cbn [config].
  by rewrite saveSetting_topics_same, save_field_nullish.
Qed.

Lemma get_after_unset (defaults : gmap string jsval) field entry :
  get (spread_opt defaults (delete field <$> entry)) field = get defaults field.
Proof.
  unfold get. destruct entry as [o|]; simpl; [|done]. unfold spread.
  by rewrite lookup_union, lookup_delete_eq, (left_id_L None _).
Qed.

(** X5: an edit for a topic that has no renderable yet only changes the
    configuration, and the first message on the topic then creates the
    renderable from the defaults and what is then saved: with the edited
    value in the field, on top of the defaults and of what was saved
    before, when the edit carries a value; with the default in the field
    when the edit carries [undefined] or [null], which unsets it. *)
Theorem saved_settings_apply_at_creation (cfg : RendererConfig)
    (evs : list event) (t field : string) (v : jsval) (m : PoseMessage) (rt : Z) :
  let st := run evs (initial cfg) in
  let st1 := (handleSettingsAction (edit "topics" t field v) st).1 in
  let st2 := (addPose t m rt st1).1 in
  renderables st !! t = None →
  indexable (get (initial_settings st1 t) "scale") →
  heap st1 = heap st ∧ renderables st1 = renderables st
  ∧ ∃ l r, renderables st2 !! t = Some l ∧ heap st2 !! l = Some r
           ∧ (nullish v = false →
              settings (userData r) = <[field := v]> (initial_settings st t)
              ∧ get (settings (userData r)) field = v)
           ∧ (nullish v = true →
              settings (userData r)
              = spread_opt DEFAULT_SETTINGS
                  (delete field <$> topics (config st) !! t)
              ∧ get (settings (userData r)) field = get DEFAULT_SETTINGS field).
Proof.
  intros st st1 st2 Hr Hi1.
  assert (Hwf : wf st) by apply reachable_wf.
  assert (Hst1 : st1 = with_config st
                         (saveSetting ["topics"; t; field] v (config st))).
  { subst st1. by rewrite (handleSettingsAction_no_renderable _ _ _ _ _ Hr). }
  split; [by rewrite Hst1|]. split; [by rewrite Hst1|].
  assert (Hwf1 : wf st1) by (rewrite Hst1; by apply with_config_wf).
  assert (Hr1 : renderables st1 !! t = None) by (by rewrite Hst1).
  destruct (addPose_new st1 t m rt Hwf1 Hr1 Hi1)
    as (r0 & r & n0 & n & Hu & _ & Hs0 & _ & _ & Ha).
  apply update_frame in Hu as (_ & Hs & _).
  exists (S (next_loc st1)), r. subst st2. rewrite Ha. simpl.
  rewrite !lookup_insert_eq.
  split; [done|]. split; [done|]. split; intros Hv.
  - assert (Hset : settings (userData r)
                   = <[field := v]> (initial_settings st t)).
    { by rewrite Hs, Hs0, Hst1, initial_settings_after_edit. }
    split; [done|]. rewrite Hset. unfold get. by rewrite lookup_insert_eq.
  - assert (Hset : settings (userData r)
                   = spread_opt DEFAULT_SETTINGS
                       (delete field <$> topics (config st) !! t)).
    { by rewrite Hs, Hs0, Hst1, initial_settings_after_unset. }
    split; [done|]. rewrite Hset. apply get_after_unset.
Qed.

(** *** A scale that cannot be indexed *)

Lemma update_raises r m rt n r' n' o :
  _updatePoseRenderable r m rt n = (r', n', o) →
  ¬ indexable (get (settings (userData r)) "scale") → o = Threw.
Proof.
  intros Hu Hn. destruct o; [|done]. exfalso. apply Hn.
  pose proof (update_outcome r m rt n) as Ho. rewrite Hu in Ho.
  destruct (proj1 Ho eq_refl) as [mk Hmk].
  by eapply createArrowMarker_indexable.
Qed.

(** X6: an edit that carries [undefined] or [null] resets a field: it is
    removed from what is saved for the topic, so that the settings a
    renderable would be created with have the default in it. The
    renderable that exists is not reset: the handler returns and leaves
    it with exactly the settings it had, the value of the field
    included, and with its message. *)
Theorem reset_keeps_renderable_settings (cfg : RendererConfig)
    (evs : list event) (t field : string) (v : jsval) (l : loc)
    (r : PoseRenderable) :
  let st := run evs (initial cfg) in
  let reset := handleSettingsAction (edit "topics" t field v) st in
  renderables st !! t = Some l → heap st !! l = Some r →
  nullish v = true →
  indexable (get (settings (userData r)) "scale") →
  reset.2 = Returned
  ∧ topics (config reset.1) !! t = delete field <$> topics (config st) !! t
  ∧ (∀ t', t' ≠ t → topics (config reset.1) !! t' = topics (config st) !! t')
  ∧ get (initial_settings reset.1 t) field = get DEFAULT_SETTINGS field
  ∧ ∃ r', heap reset.1 !! l = Some r'
          ∧ settings (userData r') = settings (userData r)
          ∧ poseMessage (userData r') = poseMessage (userData r).
Proof.
  intros st reset Hr Hl Hv Hi.
  assert (Hwf : wf st) by apply reachable_wf.
  assert (Hcov : covers st) by apply reachable_covers.
  destruct (edit_existing st "topics" t field v l r Hwf Hr Hl)
    as (r' & n' & o & Hu & Ha).
  rewrite (edit_settings_unset st t field v l r Hcov Hr Hl Hv) in Hu.
  pose proof (update_frame _ _ _ _ _ _ _ Hu)
    as (_ & Hs & _ & _ & _ & _ & _ & _ & Hpm & _).
  simpl in Hs.
  assert (o = Returned) as -> by (by apply (update_returned _ _ _ _ _ _ _ Hu)).
  subst reset. rewrite Ha. cbn [fst snd config heap].
  split; [done|]. split; [|split; [|split]].
  - by rewrite saveSetting_topics_same, save_field_nullish.
  - intros t' Hne. by apply saveSetting_topics_other.
  - unfold initial_settings. cbn [config].
    rewrite saveSetting_topics_same, save_field_nullish by done.
    apply get_after_unset.
  - exists r'. rewrite lookup_insert_eq. by repeat split.
Qed.

(** X7: a message for a renderable whose scale cannot be indexed raises
    after the message, its time stamp, the receive time and the frame id
    have been stored: the renderable then holds the new message with the
    pose, the arrow and the sphere of the previous one, and nothing else
    in the extension has changed. This holds in every state of the
    extension, so in particular in every state it reaches. *)
Theorem raising_message_is_half_recorded (st : SceneState) (t : string)
    (l : loc) (r : PoseRenderable) (m : PoseMessage) (rt : Z) :
  renderables st !! t = Some l → heap st !! l = Some r →
  ¬ indexable (get (settings (userData r)) "scale") →
  addPose t m rt st
  = ({| config := config st; renderables := renderables st;
        scene_children := scene_children st;
        heap := <[l := with_userData r (set_message (userData r) rt m)]> (heap st);
        next_loc := next_loc st |}, Threw).
Proof.
  intros Hr Hl Hn.
  rewrite (addPose_existing _ _ _ _ _ Hr).
  destruct (update_in_place_stored st l r m rt Hl) as (r' & n' & Hu & Hst).
  pose proof (update_raises _ _ _ _ _ _ _ Hu Hn) as Ho.
  rewrite Ho in Hu. apply update_threw in Hu as (-> & ->).
  apply injective_projections; simpl; [by rewrite Hst | done].
Qed.

(** *** The properties at work on the sample data *)

Lemma events_touch_only_their_topic_witness :
  heap (handle (OnSettingsAction (edit "topics" "/other" "color" (JStr "red")))
          (run [OnPoseWithCovariance sample_event] (initial empty_config))).1 !! 1
  = heap (run [OnPoseWithCovariance sample_event] (initial empty_config)) !! 1.
Proof.
  eapply (events_touch_only_their_topic empty_config
            [OnPoseWithCovariance sample_event]
            (OnSettingsAction (edit "topics" "/other" "color" (JStr "red")))
            "/pose" 1).
  - vm_compute. reflexivity.
  - simpl. intros H. discriminate H.
Defined.

Lemma primitives_keep_identity_witness :
  ∃ r', heap (run [OnPoseStamped sample_stamped_event]
                (run [OnPoseWithCovariance sample_event] (initial empty_config)))
          !! 1 = Some r'
        ∧ arrow_ref (arrow (userData r')) = 0.
Proof.
  edestruct (primitives_keep_identity empty_config
               [OnPoseWithCovariance sample_event]
               [OnPoseStamped sample_stamped_event] 1)
    as (r' & Hl & _ & Ha & _).
  - by_evaluation.
  - exists r'. split; [exact Hl|]. rewrite Ha. reflexivity.
Defined.

Lemma stamped_topics_have_no_sphere_witness :
  ∃ r, heap (run [OnPoseStamped sample_stamped_event;
                  OnSettingsAction
                    (edit "topics" "/pose" "showCovariance" (JBool true))]
               (initial empty_config)) !! 1 = Some r
       ∧ sphere (userData r) = None.
Proof.
  eexists. split; [by_evaluation|].
  eapply (stamped_topics_have_no_sphere empty_config
            [OnPoseStamped sample_stamped_event;
             OnSettingsAction (edit "topics" "/pose" "showCovariance" (JBool true))]
            "/pose" 1).
  - repeat constructor.
  - vm_compute. reflexivity.
  - vm_compute. reflexivity.
Defined.

Lemma late_sphere_is_not_added_witness :
  ∃ r' s,
    heap (addPose "/pose"
            (WithCovariance (normalizePoseWithCovarianceStamped
                               (ev_message sample_event)))
            0 (run [OnPoseStamped sample_stamped_event] (initial empty_config))).1
      !! 1 = Some r'
    ∧ sphere (userData r') = Some s
    ∧ sphere_ref s ∉ added r'.
Proof.
  edestruct (late_sphere_is_not_added empty_config
               [OnPoseStamped sample_stamped_event] "/pose" 1)
    as (r' & s & Hl & Hs & _ & _ & _ & Hn).
  - vm_compute. reflexivity.
  - by_evaluation.
  - vm_compute. reflexivity.
  - split; vm_compute; discriminate.
  - exists r', s. split; [exact Hl|]. split; [exact Hs|exact Hn].
Defined.

Lemma saved_settings_apply_at_creation_witness :
  ∃ l r,
    renderables
      (addPose "/pose" (Stamped (normalizePoseStamped
                                   (ev_message sample_stamped_event))) 0
         (handleSettingsAction (edit "topics" "/pose" "color" (JStr "red"))
            (initial empty_config)).1).1 !! "/pose" = Some l
    ∧ heap
        (addPose "/pose" (Stamped (normalizePoseStamped
                                     (ev_message sample_stamped_event))) 0
           (handleSettingsAction (edit "topics" "/pose" "color" (JStr "red"))
              (initial empty_config)).1).1 !! l = Some r
    ∧ get (settings (userData r)) "color" = JStr "red".
Proof.
  pose proof (saved_settings_apply_at_creation empty_config [] "/pose" "color"
                (JStr "red")
                (Stamped (normalizePoseStamped (ev_message sample_stamped_event)))
                0%Z) as H.
  cbv zeta in H.
  change (run [] (initial empty_config)) with (initial empty_config) in H.
  destruct H as (_ & _ & l & r & Hr & Hl & Hg & _).
  - vm_compute. reflexivity.
  - split; vm_compute; discriminate.
  - exists l, r. split; [exact Hr|]. split; [exact Hl|].
    exact (proj2 (Hg eq_refl)).
Defined.

Lemma reset_keeps_renderable_settings_witness :
  (handleSettingsAction (edit "topics" "/pose" "color" JUndefined)
     (run [OnPoseWithCovariance sample_event;
           OnSettingsAction (edit "topics" "/pose" "color" (JStr "red"))]
        (initial empty_config))).2 = Returned
  ∧ ∃ r', heap (handleSettingsAction (edit "topics" "/pose" "color" JUndefined)
                  (run [OnPoseWithCovariance sample_event;
                        OnSettingsAction
                          (edit "topics" "/pose" "color" (JStr "red"))]
                     (initial empty_config))).1 !! 1 = Some r'
          ∧ get (settings (userData r')) "color" = JStr "red".
Proof.
  pose proof (reset_keeps_renderable_settings empty_config
                [OnPoseWithCovariance sample_event;
                 OnSettingsAction (edit "topics" "/pose" "color" (JStr "red"))]
                "/pose" "color" JUndefined 1) as H.
  cbv zeta in H. edestruct H as (Ho & _ & _ & _ & r' & Hl & Hs & _).
  - vm_compute. reflexivity.
  - by_evaluation.
  - reflexivity.
  - split; vm_compute; discriminate.
  - split; [exact Ho|]. exists r'. split; [exact Hl|].
    rewrite Hs. vm_compute. reflexivity.
Defined.

Lemma raising_message_is_half_recorded_witness :
  (addPose "/pose"
     (Stamped (normalizePoseStamped (ev_message sample_stamped_event))) 9
     sample_unscaled_state).2 = Threw.
Proof.
  erewrite (raising_message_is_half_recorded sample_unscaled_state "/pose" 1).
  - reflexivity.
  - vm_compute. reflexivity.
  - by_evaluation.
  - intros [_ Hnull]. apply Hnull. vm_compute. reflexivity.
Defined.

End PosesMore.

(** ** Facts about the settings tree of the pose extension *)

Module PosesSettingsFacts.
Import Js Ros Normalize Poses PosesEvents PosesFacts PosesSettings.

#[local] Arguments saveSetting : simpl never.

Section nodes_facts.
Variables S C : gset string.

Lemma settingsNodes_omap topics st :
  settingsNodes S C topics st
  = omap (settingsNode S C (Poses.topics (config st))) (default [] topics).
Proof.
  unfold settingsNodes. generalize (default [] topics). intros l.
  assert (Hgen : ∀ acc,
    foldl (λ entries topic,
             match settingsNode S C (Poses.topics (config st)) topic with
             | Some entry => entries ++ [entry]
             | None => entries
             end) acc l
    = acc ++ omap (settingsNode S C (Poses.topics (config st))) l).
  { induction l as [|topic l IH]; intros acc; simpl.
    - by rewrite app_nil_r.
    - rewrite IH. destruct (settingsNode S C _ topic); [|done].
      by rewrite <- app_assoc. }
  apply (Hgen []).
Qed.

Lemma settingsNode_path cfgT topic entry :
  settingsNode S C cfgT topic = Some entry →
  is_pose_topic S C topic ∧ entry_path entry = ["topics"; topic_name topic].
Proof.
  unfold settingsNode, is_pose_topic. intros H.
  destruct (bool_decide (datatype topic ∈ S)) eqn:E1;
    [|destruct (bool_decide (datatype topic ∈ C)) eqn:E2]; simpl in H;
    try discriminate H; injection H as <-; (split; [|done]).
  - left. by apply bool_decide_eq_true in E1.
  - right. by apply bool_decide_eq_true in E2.
Qed.

Lemma settingsNode_defined cfgT topic :
  is_pose_topic S C topic → is_Some (settingsNode S C cfgT topic).
Proof.
  unfold settingsNode, is_pose_topic. intros H.
  destruct (bool_decide (datatype topic ∈ S)) eqn:E1; simpl; [eauto|].
  destruct (bool_decide (datatype topic ∈ C)) eqn:E2; simpl; [eauto|].
  apply bool_decide_eq_false in E1, E2. tauto.
Qed.

(** X8: the settings tree has one node per topic whose datatype is a pose
    datatype, in the order of the topics, and none for any other topic or
    when the renderer has no topic list; each node sits at
    [["topics", name]], so that an update of any of its fields has a path
    of three segments, which the extension's handler does not ignore and
    which addresses that topic. *)
Theorem settings_nodes_cover_pose_topics (topics : option (list Topic))
    (st : SceneState) :
  entry_path <$> settingsNodes S C topics st
  = (λ topic, ["topics"; topic_name topic])
    <$> filter (is_pose_topic S C) (default [] topics)
  ∧ settingsNodes S C None st = []
  ∧ (∀ entry field v,
       entry ∈ settingsNodes S C topics st →
       let a := {| action := Update;
                   payload_path := entry_path entry ++ [field];
                   payload_value := v |} in
       ¬ ignored a ∧ expected_shape (payload_path a)
       ∧ ∃ topic, topic ∈ default [] topics
                  ∧ event_target (OnSettingsAction a) = Some (topic_name topic)).
Proof.
  split; [|split; [done|]].
  - rewrite settingsNodes_omap. induction (default [] topics) as [|topic l IH];
      [done|].
    change (omap ?f (topic :: l))
      with (match f topic with Some y => y :: omap f l | None => omap f l end).
    destruct (settingsNode S C _ topic) as [entry|] eqn:E.
    + destruct (settingsNode_path _ _ _ E) as [Hp Hpath].
      rewrite filter_cons_True by done. rewrite !fmap_cons. by rewrite Hpath, IH.
    + rewrite filter_cons_False; [done|]. intros Hp.
      destruct (settingsNode_defined (Poses.topics (config st)) topic Hp) as [? ?].
      congruence.
  - intros entry field v. rewrite settingsNodes_omap, list_elem_of_omap.
    intros (topic & Hin & Hnode) a.
    destruct (settingsNode_path _ _ _ Hnode) as [_ Hpath].
    subst a. rewrite Hpath. simpl. split; [|split].
    + intros [H|H]; [by apply H | simpl in H; lia].
    + by exists (topic_name topic), field.
    + by exists topic.
Qed.

(** The configuration after an edit, whatever the state. *)
Lemma handleSettingsAction_config root t field v st :
  config (handleSettingsAction (edit root t field v) st).1
  = saveSetting [root; t; field] v (config st).
Proof.
  unfold handleSettingsAction. simpl.
  destruct (renderables st !! t) as [l|] eqn:Hr; [|done].
  destruct (heap st !! l) as [r|] eqn:Hl; [|done].
  erewrite update_in_place_config; [done|]. simpl. apply lookup_insert_eq.
Qed.

(** What a node shows for the edited field: the edited value, or the
    default of the field when the edit unset it. *)
Lemma node_value_after_edit t field v st (d : jsval) :
  nullish_or
    (get (default ∅
            (Poses.topics
               (config (handleSettingsAction (edit "topics" t field v) st).1)
               !! t)) field) d
  = nullish_or v d.
Proof.
  rewrite handleSettingsAction_config, saveSetting_topics_same.
  unfold save_field. destruct (nullish v) eqn:Hv.
  - assert (Hget : get (default ∅ (delete field <$> Poses.topics (config st) !! t))
                     field = JUndefined).
    { unfold get. destruct (Poses.topics (config st) !! t); simpl.
      - by rewrite lookup_delete_eq.
      - by rewrite lookup_empty. }
    rewrite Hget. by destruct v.
  - simpl. unfold get. by rewrite lookup_insert_eq.
Qed.

Lemma shown_cons path label icon visible k f fields k' :
  shown {| entry_path := path;
           entry_node := {| node_label := label; node_icon := icon;
                            node_fields := (k, f) :: fields;
                            node_visible := visible |} |} k'
  = if decide (k = k') then Some (field_value f)
    else shown {| entry_path := path;
                  entry_node := {| node_label := label; node_icon := icon;
                                   node_fields := fields;
                                   node_visible := visible |} |} k'.
Proof.
  unfold shown. simpl. rewrite lookup_insert. by case_decide.
Qed.

Lemma shown_nil path label icon visible k' :
  shown {| entry_path := path;
           entry_node := {| node_label := label; node_icon := icon;
                            node_fields := []; node_visible := visible |} |} k'
  = None.
Proof. unfold shown. simpl. by rewrite lookup_empty. Qed.

Ltac shown_eval :=
  repeat (rewrite shown_cons; first [rewrite decide_True by done
                                    |rewrite decide_False by done]);
  rewrite ?shown_nil.

(** X9: after the handler has processed an edit of [showCovariance] for a
    covariance topic, the topic's node shows the edited value (or [true]
    when the value is [undefined] or [null]) and has a [covarianceColor]
    field exactly when that value is truthy; the node of a topic whose
    datatype is a [PoseStamped] datatype has the fields [scale] and
    [color] only, also when its datatype is in both sets. *)
Theorem covariance_color_field_follows_showCovariance (topics : list Topic)
    (topic : Topic) (v : jsval) (st : SceneState) :
  topic ∈ topics →
  let st' := (handleSettingsAction
                (edit "topics" (topic_name topic) "showCovariance" v) st).1 in
  (is_covariance_topic S C topic →
   ∃ entry, entry ∈ settingsNodes S C (Some topics) st'
            ∧ entry_path entry = ["topics"; topic_name topic]
            ∧ shown entry "showCovariance" = Some (nullish_or v (JBool true))
            ∧ (is_Some (shown entry "covarianceColor")
               ↔ truthy (nullish_or v (JBool true)) = true))
  ∧ (datatype topic ∈ S →
     ∃ entry, entry ∈ settingsNodes S C (Some topics) st'
              ∧ entry_path entry = ["topics"; topic_name topic]
              ∧ (node_fields (entry_node entry)).*1 = ["scale"; "color"]).
Proof.
  intros Hin st'. split.
  - intros [HnS HC].
    destruct (settingsNode S C (Poses.topics (config st')) topic)
      as [entry|] eqn:E.
    2:{ destruct (settingsNode_defined (Poses.topics (config st')) topic) as [? ?];
          [by right | congruence]. }
    exists entry. split.
    { rewrite settingsNodes_omap, list_elem_of_omap. eauto. }
    destruct (settingsNode_path _ _ _ E) as [_ Hpath]. split; [done|].
    unfold settingsNode in E.
    rewrite bool_decide_eq_false_2, bool_decide_eq_true_2 in E by done.
    cbv zeta in E. cbn [orb] in E. subst st'.
    rewrite !(node_value_after_edit (topic_name topic) "showCovariance" v st
                (JBool true)) in E.
    destruct (truthy (nullish_or v (JBool true))) eqn:Ht;
      injection E as <-; cbn [app]; shown_eval.
    + split; [done|]. split; [done|eauto].
    + split; [done|]. split; [by intros [? ?]|done].
  - intros HS.
    destruct (settingsNode S C (Poses.topics (config st')) topic)
      as [entry|] eqn:E.
    2:{ destruct (settingsNode_defined (Poses.topics (config st')) topic) as [? ?];
          [by left | congruence]. }
    exists entry. split.
    { rewrite settingsNodes_omap, list_elem_of_omap. eauto. }
    destruct (settingsNode_path _ _ _ E) as [_ Hpath]. split; [done|].
    unfold settingsNode in E. rewrite bool_decide_eq_true_2 in E by done.
    cbv zeta in E. cbn [orb] in E. by injection E as <-.
Qed.

(** X10: after the handler has processed an edit of [scale] or [color]
    for a pose topic, the topic's node shows the edited value, or the
    default when the value is [undefined] or [null]; the nodes of the
    other topics are what they were. *)
Theorem edited_value_is_shown (topics : list Topic) (topic : Topic)
    (field : string) (v : jsval) (st : SceneState) :
  topic ∈ topics → is_pose_topic S C topic →
  field = "scale" ∨ field = "color" →
  let st' := (handleSettingsAction
                (edit "topics" (topic_name topic) field v) st).1 in
  (∃ entry, entry ∈ settingsNodes S C (Some topics) st'
            ∧ entry_path entry = ["topics"; topic_name topic]
            ∧ shown entry field
              = Some (nullish_or v
                        (if decide (field = "scale") then DEFAULT_SCALE
                         else JStr DEFAULT_COLOR_STR)))
  ∧ (∀ other, topic_name other ≠ topic_name topic →
       settingsNode S C (Poses.topics (config st')) other
       = settingsNode S C (Poses.topics (config st)) other).
Proof.
  intros Hin Hp Hf st'. split.
  - destruct (settingsNode S C (Poses.topics (config st')) topic)
      as [entry|] eqn:E.
    2:{ destruct (settingsNode_defined (Poses.topics (config st')) topic Hp)
          as [? ?]. congruence. }
    exists entry. split.
    { rewrite settingsNodes_omap, list_elem_of_omap. eauto. }
    destruct (settingsNode_path _ _ _ E) as [_ Hpath]. split; [done|].
    unfold settingsNode in E. subst st'. cbv zeta in E.
    assert (Hshown : ∀ d,
      nullish_or
        (get (default ∅
                (Poses.topics
                   (config (handleSettingsAction
                              (edit "topics" (topic_name topic) field v) st).1)
                   !! topic_name topic)) field) d
      = nullish_or v d) by apply node_value_after_edit.
    destruct (bool_decide (datatype topic ∈ S)) eqn:E1;
      [|destruct (bool_decide (datatype topic ∈ C)) eqn:E2]; cbn [orb] in E;
      try discriminate E.
    + injection E as <-.
      destruct Hf as [-> | ->]; shown_eval; by rewrite Hshown.
    + destruct (truthy _); injection E as <-; cbn [app];
        destruct Hf as [-> | ->]; shown_eval; by rewrite Hshown.
  - intros other Hne. unfold settingsNode. subst st'.
    rewrite handleSettingsAction_config.
    rewrite saveSetting_topics_other by done. done.
Qed.

End nodes_facts.

(** *** The properties at work on the sample data *)

Lemma sample_topic_is_covariance :
  is_covariance_topic sample_stamped sample_with_covariance sample_topic.
Proof.
  split.
  - intros H. apply elem_of_singleton in H. discriminate H.
  - by apply elem_of_singleton.
Defined.

Lemma settings_nodes_cover_pose_topics_witness :
  entry_path <$> settingsNodes sample_stamped sample_with_covariance
                   (Some [sample_topic]) sample_state
  = (λ topic, ["topics"; topic_name topic])
    <$> filter (is_pose_topic sample_stamped sample_with_covariance)
          (default [] (Some [sample_topic])).
Proof.
  exact (proj1 (settings_nodes_cover_pose_topics sample_stamped
                  sample_with_covariance (Some [sample_topic]) sample_state)).
Defined.

Lemma covariance_color_field_follows_showCovariance_witness :
  ∃ entry,
    entry ∈ settingsNodes sample_stamped sample_with_covariance
              (Some [sample_topic])
              (handleSettingsAction
                 (edit "topics" "/pose" "showCovariance" (JBool false))
                 sample_state).1
    ∧ shown entry "showCovariance" = Some (JBool false)
    ∧ ¬ is_Some (shown entry "covarianceColor").
Proof.
  destruct (covariance_color_field_follows_showCovariance
              sample_stamped sample_with_covariance [sample_topic] sample_topic
              (JBool false) sample_state) as [H _].
  - apply list_elem_of_here.
  - destruct (H sample_topic_is_covariance) as (entry & Hin & _ & Hs & Hc).
    exists entry. split; [exact Hin|]. split; [exact Hs|].
    intros Hsome. apply Hc in Hsome. discriminate Hsome.
Defined.

Lemma edited_value_is_shown_witness :
  ∃ entry,
    entry ∈ settingsNodes sample_stamped sample_with_covariance
              (Some [sample_topic])
              (handleSettingsAction
                 (edit "topics" "/pose" "color" (JStr "red")) sample_state).1
    ∧ shown entry "color" = Some (JStr "red").
Proof.
  destruct (edited_value_is_shown
              sample_stamped sample_with_covariance [sample_topic] sample_topic
              "color" (JStr "red") sample_state) as [(entry & Hin & _ & Hs) _].
  - apply list_elem_of_here.
  - right. by apply elem_of_singleton.
  - by right.
  - exists entry. split; [exact Hin|exact Hs].
Defined.

End PosesSettingsFacts.

(** ** More facts about the diagnostics summary *)

Module DiagnosticsMoreFacts.
Import Diagnostics DiagnosticsMore.

(** *** The topics offered in the settings *)

Lemma uniq_go (result l : list string) :
  NoDup result →
  let r := foldl (λ result value,
                    if bool_decide (value ∈ result) then result
                    else result ++ [value]) result l in
  NoDup r ∧ (∀ x, x ∈ r ↔ x ∈ result ∨ x ∈ l)
  ∧ ∃ k, r = result ++ k ∧ sublist k l.
Proof.
  revert result. induction l as [|v l IH]; intros result Hnd; simpl.
  - split; [done|]. split.
    + intros x. rewrite elem_of_nil. tauto.
    + exists []. by rewrite app_nil_r.
  - case_bool_decide as Hin.
    + destruct (IH result Hnd) as (H1 & H2 & k & H3 & H4).
      split; [done|]. split.
      * intros x. rewrite H2, elem_of_cons. split; [tauto|].
        intros [?|[->|?]]; auto.
      * exists k. split; [done|]. by apply sublist_cons.
    + assert (Hnd' : NoDup (result ++ [v])).
      { apply NoDup_app. split; [done|]. split; [|apply NoDup_singleton].
        intros x Hx ->%list_elem_of_singleton. done. }
      destruct (IH (result ++ [v]) Hnd') as (H1 & H2 & k & H3 & H4).
      split; [done|]. split.
      * intros x. rewrite H2, elem_of_app, list_elem_of_singleton, elem_of_cons.
        tauto.
      * exists (v :: k). split; [by rewrite H3, <- app_assoc|].
        by apply sublist_skip.
Qed.

(** What [uniq] keeps is, element for element, what there is. *)
Lemma available_topics_elements (DIAGNOSTIC_TOPIC : string)
    (topics : list PosesSettings.Topic) (topicToRender : string) :
  let available := availableTopics DIAGNOSTIC_TOPIC topics topicToRender in
  NoDup available
  ∧ head available = Some DIAGNOSTIC_TOPIC
  ∧ topicToRender ∈ available
  ∧ (∀ x, x ∈ available ↔
          x = DIAGNOSTIC_TOPIC ∨ x = topicToRender
          ∨ ∃ topic, topic ∈ topics
                     ∧ PosesSettings.datatype topic ∈ ALLOWED_DATATYPES
                     ∧ PosesSettings.topic_name topic = x)
  ∧ sublist available
      ([DIAGNOSTIC_TOPIC]
       ++ (PosesSettings.topic_name <$>
             filter (λ topic, PosesSettings.datatype topic ∈ ALLOWED_DATATYPES)
               topics)
       ++ [topicToRender]).
Proof.
  intros available. subst available. unfold availableTopics, uniq.
  set (filtered := PosesSettings.topic_name <$> filter _ topics).
  change ([DIAGNOSTIC_TOPIC] ++ filtered ++ [topicToRender])
    with (DIAGNOSTIC_TOPIC :: (filtered ++ [topicToRender])).
  simpl. rewrite ?bool_decide_eq_false_2 by apply not_elem_of_nil. simpl.
  destruct (uniq_go [DIAGNOSTIC_TOPIC] (filtered ++ [topicToRender]))
    as (H1 & H2 & k & H3 & H4); [apply NoDup_singleton|].
  cbv zeta in H1, H2, H3. split; [done|]. split; [by rewrite H3|].
  split; [|split].
  - apply H2. right. apply elem_of_app. right. apply list_elem_of_here.
  - intros x. rewrite H2, list_elem_of_singleton, elem_of_app,
      list_elem_of_singleton. subst filtered. rewrite list_elem_of_fmap.
    split.
    + intros [?|[(topic & -> & Hin)|?]]; auto.
      apply list_elem_of_filter in Hin as [Hd Hin]. right. right. eauto.
    + intros [?|[?|(topic & Hin & Hd & <-)]]; auto.
      right. left. exists topic. split; [done|].
      by apply list_elem_of_filter.
  - rewrite H3. by apply sublist_skip.
Qed.

(** [uniq] keeps each value where it occurs first: what is shown before
    it are the values that occur before its first occurrence. *)
Lemma uniq_first_occurrence (before : list string) (x : string)
    (after : list string) :
  x ∉ before →
  ∃ shown_before shown_after,
    uniq (before ++ x :: after) = shown_before ++ x :: shown_after
    ∧ NoDup shown_before
    ∧ (∀ y, y ∈ shown_before ↔ y ∈ before).
Proof.
  intros Hx. unfold uniq. rewrite foldl_app.
  destruct (uniq_go [] before) as (Hnd & Hel & _); [constructor|].
  cbv zeta in Hnd, Hel.
  set (shown := foldl (λ result value,
                         if bool_decide (value ∈ result) then result
                         else result ++ [value]) [] before) in *.
  assert (Hshown : ∀ y, y ∈ shown ↔ y ∈ before).
  { intros y. rewrite Hel, elem_of_nil. tauto. }
  simpl. rewrite bool_decide_eq_false_2 by (by rewrite Hshown).
  destruct (uniq_go (shown ++ [x]) after) as (_ & _ & k & Hk & _).
  { apply NoDup_app. split; [done|]. split; [|apply NoDup_singleton].
    intros y Hy ->%list_elem_of_singleton. by apply Hshown in Hy. }
  cbv zeta in Hk. exists shown, k. by rewrite Hk, <- app_assoc.
Qed.

(** X11: the topics offered for selection never repeat a name, start with
    the default diagnostics topic, contain the topic being rendered even
    when no topic of the data source has that name, contain exactly the
    default topic, the rendered topic and the names of the topics with a
    diagnostics datatype, and list them in the order of their first
    occurrence: in the list of the default topic, those names and the
    rendered topic, wherever a name occurs for the first time, the names
    offered before it are exactly the names that occur before it. *)
Theorem available_topics_are_unique (DIAGNOSTIC_TOPIC : string)
    (topics : list PosesSettings.Topic) (topicToRender : string) :
  let available := availableTopics DIAGNOSTIC_TOPIC topics topicToRender in
  let candidates :=
    [DIAGNOSTIC_TOPIC]
    ++ (PosesSettings.topic_name <$>
          filter (λ topic, PosesSettings.datatype topic ∈ ALLOWED_DATATYPES)
            topics)
    ++ [topicToRender] in
  NoDup available
  ∧ head available = Some DIAGNOSTIC_TOPIC
  ∧ topicToRender ∈ available
  ∧ (∀ x, x ∈ available ↔
          x = DIAGNOSTIC_TOPIC ∨ x = topicToRender
          ∨ ∃ topic, topic ∈ topics
                     ∧ PosesSettings.datatype topic ∈ ALLOWED_DATATYPES
                     ∧ PosesSettings.topic_name topic = x)
  ∧ sublist available candidates
  ∧ (∀ before x after,
       candidates = before ++ x :: after → x ∉ before →
       ∃ offered_before offered_after,
         available = offered_before ++ x :: offered_after
         ∧ (∀ y, y ∈ offered_before ↔ y ∈ before)).
Proof.
  intros available candidates.
  destruct (available_topics_elements DIAGNOSTIC_TOPIC topics topicToRender)
    as (H1 & H2 & H3 & H4 & H5).
  split; [done|]. split; [done|]. split; [done|]. split; [done|].
  split; [done|].
  intros before x after Heq Hx. subst available. unfold availableTopics.
  fold candidates. rewrite Heq.
  destruct (uniq_first_occurrence before x after Hx)
    as (shown_before & shown_after & Hu & Hnd & Hel).
  by exists shown_before, shown_after.
Qed.

(** *** Resolving a pinned id *)

Lemma split_free sep s : has_char sep s = false → split sep s = [s].
Proof.
  induction s as [|c s IH]; simpl; [done|].
  intros [Hc Hs]%orb_false_elim. apply bool_decide_eq_false in Hc.
  rewrite decide_False by done. by rewrite (IH Hs).
Qed.

Lemma split_app sep s t :
  has_char sep s = false →
  split sep (s +:+ String sep t) = s :: split sep t.
Proof.
  induction s as [|c s IH]; simpl.
  - intros _. by rewrite decide_True.
  - intros [Hc Hs]%orb_false_elim. apply bool_decide_eq_false in Hc.
    rewrite decide_False by done. by rewrite (IH Hs).
Qed.

(** X12: a pinned id is resolved through its second and third
    ["|"]-separated segments, the hardware id and the name: whatever
    precedes the first separator and whatever follows the third is
    ignored, an id with fewer than three segments resolves to nothing, and
    a hardware id or name that is not in the diagnostics resolves to
    nothing. *)
Theorem pinned_id_is_parsed_by_segments
    (diagnostics : gmap string (gmap string DiagnosticInfo))
    (before hw nm rest : string) :
  has_char "|" before = false → has_char "|" hw = false →
  has_char "|" nm = false →
  pinnedNode diagnostics (before +:+ "|" +:+ hw +:+ "|" +:+ nm +:+ "|" +:+ rest)
  = (diagnostics !! hw ≫= λ byName, byName !! nm)
  ∧ pinnedNode diagnostics (before +:+ "|" +:+ hw +:+ "|" +:+ nm)
    = (diagnostics !! hw ≫= λ byName, byName !! nm)
  ∧ pinnedNode diagnostics (before +:+ "|" +:+ hw) = None
  ∧ pinnedNode diagnostics before = None
  ∧ (diagnostics !! hw = None →
     pinnedNode diagnostics (before +:+ "|" +:+ hw +:+ "|" +:+ nm) = None).
Proof.
  intros Hb Hh Hn. unfold pinnedNode.
  assert (Hbar : ∀ s, "|" +:+ s = String "|" s) by done.
  rewrite !Hbar.
  assert (H3 : split "|" (before +:+ String "|" (hw +:+ String "|" nm))
               = [before; hw; nm]).
  { by rewrite (split_app _ _ _ Hb), (split_app _ _ _ Hh), (split_free _ _ Hn). }
  split; [|split; [|split; [|split]]].
  - rewrite (split_app _ _ _ Hb), (split_app _ _ _ Hh), (split_app _ _ _ Hn).
    done.
  - by rewrite H3.
  - by rewrite (split_app _ _ _ Hb), (split_free _ _ Hh).
  - by rewrite (split_free _ _ Hb).
  - intros Hnone. by rewrite H3, Hnone.
Qed.

(** *** What the summary shows *)

Section summary_more.
Context `{DiagnosticsUtil}.

(** X13: without diagnostics the summary shows the waiting state, whatever
    is pinned; otherwise it never shows an empty list, every row it shows
    is at or above the minimum level, and every row is either the entity
    of a pinned id or one of the sorted entities. *)
Theorem rendered_rows_pass_the_level (config : DiagnosticSummaryConfig)
    (diagnostics : gmap string (gmap string DiagnosticInfo)) :
  (size diagnostics = 0 →
   summary config diagnostics = EmptyState (topicToRender config))
  ∧ (∀ rows, summary config diagnostics = Rows rows → rows ≠ [])
  ∧ (∀ n, n ∈ rendered config diagnostics →
          (minLevel config ≤ level (status n))%Z
          ∧ ((∃ pinned, pinned ∈ pinnedIds config
                        ∧ pinnedNode diagnostics pinned = Some n)
             ∨ n ∈ sortedNodes config diagnostics)).
Proof.
  split; [|split].
  - intros Hs. unfold summary. by rewrite decide_True.
  - intros rows. unfold summary. case_decide; [done|].
    destruct (nodes config diagnostics) eqn:E; [done|]. by intros [= <-].
  - intros n. unfold rendered, summary. case_decide; [by intros ?%elem_of_nil|].
    assert (Hn : n ∈ nodes config diagnostics →
                 (minLevel config ≤ level (status n))%Z
                 ∧ ((∃ pinned, pinned ∈ pinnedIds config
                               ∧ pinnedNode diagnostics pinned = Some n)
                    ∨ n ∈ sortedNodes config diagnostics)).
    { unfold nodes, compact, pinnedNodes, filterMap.
      rewrite list_elem_of_filter, elem_of_app, list_elem_of_omap.
      intros [Hl [(p & Hp & Hn)|Hin]]; eauto. }
    destruct (nodes config diagnostics) eqn:E; [by intros ?%elem_of_nil|].
    exact Hn.
Qed.

End summary_more.

(** *** The order of the levels *)

#[local] Instance rendering_le_total : Total rendering_le.
Proof.
  intros a b. unfold rendering_le.
  destruct (String.leb_total (pretty a) (pretty b)) as [E|E]; rewrite E; auto.
Qed.

Lemma Sorted_weaken {A} (R R' : relation A) (P : A → Prop) l :
  Sorted R l → Forall P l →
  (∀ a b, P a → P b → R a b → R' a b) → Sorted R' l.
Proof.
  intros Hs Hf Himp. induction Hs as [|a l Hs IH Hhd]; [constructor|].
  apply Forall_cons in Hf as [Pa Hf]. constructor; [by apply IH|].
  destruct Hhd as [|b l' Hab]; constructor.
  apply Forall_cons in Hf as [Pb _]. by apply Himp.
Qed.

Lemma digit_cases (a : Z) :
  (0 ≤ a ≤ 9)%Z →
  a = 0%Z ∨ a = 1%Z ∨ a = 2%Z ∨ a = 3%Z ∨ a = 4%Z ∨ a = 5%Z ∨ a = 6%Z
  ∨ a = 7%Z ∨ a = 8%Z ∨ a = 9%Z.
Proof. lia. Qed.

Lemma rendering_le_digits (a b : Z) :
  (0 ≤ a ≤ 9)%Z → (0 ≤ b ≤ 9)%Z → rendering_le a b → (a ≤ b)%Z.
Proof.
  intros Ha%digit_cases Hb%digit_cases. unfold rendering_le.
  repeat (destruct Ha as [->|Ha]); try subst a;
    repeat (destruct Hb as [->|Hb]); try subst b;
    vm_compute; intros Hle; try (exact (λ E, match E with end));
    try discriminate; try (destruct Hle).
Qed.

Section levels.
Context `{DiagnosticsUtil}.

(** X14: when the summary sorts by level, it lists the entities level by
    level, the levels in the reverse of the order of their string
    renderings; as long as every level is a single digit, that is from
    the highest level down to the lowest. *)
Theorem levels_are_listed_downwards (config : DiagnosticSummaryConfig)
    (diagnostics : gmap string (gmap string DiagnosticInfo)) :
  sortByLevel config ≠ Some false →
  let nodesByLevel := getDiagnosticsByLevel diagnostics in
  let levels := levels_shown (fst <$> nodesByLevel) in
  sortedNodes config diagnostics
  = concat ((λ level,
               filterAndSortDiagnostics (Map_get nodesByLevel level)
                 (hardwareIdFilter config) (pinnedIds config)) <$> levels)
  ∧ levels ≡ₚ fst <$> nodesByLevel
  ∧ Sorted (flip rendering_le) levels
  ∧ (Forall (λ k, (0 ≤ k ≤ 9)%Z) (fst <$> nodesByLevel) →
     Sorted (λ a b, (b ≤ a)%Z) levels).
Proof.
  intros Hs nodesByLevel levels.
  assert (Hperm : Array_sort (fst <$> nodesByLevel) ≡ₚ fst <$> nodesByLevel)
    by apply merge_sort_Permutation.
  assert (Hsorted : Sorted rendering_le (Array_sort (fst <$> nodesByLevel)))
    by apply (Sorted_merge_sort rendering_le).
  split; [|split; [|split]].
  - unfold sortedNodes. fold nodesByLevel.
    destruct (sortByLevel config) as [[]|]; simpl; done.
  - subst levels. unfold levels_shown. by rewrite reverse_Permutation.
  - subst levels. unfold levels_shown. by apply Sorted_reverse.
  - intros Hd. subst levels. unfold levels_shown.
    apply (Sorted_reverse Z.le).
    eapply (Sorted_weaken rendering_le Z.le (λ k, (0 ≤ k ≤ 9)%Z)); [done| |].
    + by rewrite Hperm.
    + apply rendering_le_digits.
Qed.

End levels.

(** *** The properties at work on the sample data *)

Lemma pinned_id_is_parsed_by_segments_witness :
  pinnedNode sample_diagnostics "|hw|quiet|" = Some (sample_info "hw" "quiet" 0).
Proof.
  destruct (pinned_id_is_parsed_by_segments sample_diagnostics "" "hw" "quiet" "")
    as (H1 & _); [reflexivity..|].
  etransitivity; [exact H1|]. vm_compute. reflexivity.
Defined.

Lemma rendered_rows_pass_the_level_witness :
  (2 ≤ level (status (sample_info "hw" "loud" 2)))%Z.
Proof.
  apply (rendered_rows_pass_the_level (H := sample_util) sample_config
           sample_diagnostics).
  vm_compute. apply list_elem_of_here.
Defined.

Lemma levels_are_listed_downwards_witness :
  Sorted (λ a b, (b ≤ a)%Z)
    (levels_shown (fst <$> getDiagnosticsByLevel (DiagnosticsUtil := sample_util)
                             sample_diagnostics)).
Proof.
  apply (levels_are_listed_downwards (H := sample_util) sample_config
           sample_diagnostics).
  - discriminate.
  - vm_compute. repeat constructor; discriminate.
Defined.

End DiagnosticsMoreFacts.

(** ** The pinned rows of the diagnostics summary *)

Module DiagnosticsPinnedFacts.
Import Diagnostics DiagnosticsMore DiagnosticsFacts DiagnosticsMoreFacts.

Lemma split_diagnostic_id hw name :
  has_char "|" hw = false → has_char "|" name = false →
  split "|" (diagnostic_id hw name) = [""; hw; name; ""].
Proof.
  intros Hh Hn. unfold diagnostic_id.
  assert (Hbar : ∀ s, "|" +:+ s = String "|" s) by done.
  rewrite !Hbar.
  change (String "|" (hw +:+ String "|" (name +:+ String "|" "")))
    with ("" +:+ String "|" (hw +:+ String "|" (name +:+ String "|" ""))).
  rewrite (split_app "|" "" _ eq_refl), (split_app _ _ _ Hh),
    (split_app _ _ _ Hn). done.
Qed.

Lemma diagnostic_id_inj hw name hw' name' :
  has_char "|" hw = false → has_char "|" name = false →
  has_char "|" hw' = false → has_char "|" name' = false →
  diagnostic_id hw name = diagnostic_id hw' name' → hw = hw' ∧ name = name'.
Proof.
  intros Hh Hn Hh' Hn' Heq. apply (f_equal (split "|")) in Heq.
  rewrite !split_diagnostic_id in Heq by done. by injection Heq.
Qed.

Lemma pinnedNode_diagnostic_id diagnostics hw name :
  has_char "|" hw = false → has_char "|" name = false →
  pinnedNode diagnostics (diagnostic_id hw name)
  = (diagnostics !! hw ≫= λ byName, byName !! name).
Proof.
  intros Hh Hn. unfold pinnedNode. by rewrite split_diagnostic_id.
Qed.

Lemma stored_at_lookup diagnostics hw name n :
  stored_at diagnostics hw name n
  ↔ (diagnostics !! hw ≫= λ byName, byName !! name) = Some n.
Proof.
  unfold stored_at. destruct (diagnostics !! hw) as [byName|]; simpl.
  - split; [by intros (? & [= <-] & ?)|eauto].
  - split; [by intros (? & ? & ?)|done].
Qed.

Lemma entities_stored diagnostics n :
  n ∈ entities diagnostics ↔ ∃ hw name, stored_at diagnostics hw name n.
Proof.
  unfold entities, stored_at. rewrite list_elem_of_bind. split.
  - intros (byName & Hn & Hb).
    apply list_elem_of_fmap in Hn as ([name n'] & -> & Hn).
    apply list_elem_of_fmap in Hb as ([hw byName'] & -> & Hb).
    apply elem_of_map_to_list in Hn, Hb. simpl in *. eauto.
  - intros (hw & name & byName & Hb & Hn). exists byName. split.
    + apply list_elem_of_fmap. exists (name, n). split; [done|].
      by apply elem_of_map_to_list.
    + apply list_elem_of_fmap. exists (hw, byName). split; [done|].
      by apply elem_of_map_to_list.
Qed.

(** With well-keyed diagnostics, the entity that has a given id is the
    one stored under the key the id names. *)
Lemma spec_pinned_entity_stored diagnostics pinned n :
  well_keyed diagnostics →
  spec_pinned_entity diagnostics pinned = Some n
  ↔ (∃ hw name, stored_at diagnostics hw name n) ∧ id n = pinned.
Proof.
  intros Hwk. unfold spec_pinned_entity. split.
  - intros Hh%head_Some_elem_of. apply list_elem_of_filter in Hh as [Hid Hin].
    split; [by apply entities_stored|done].
  - intros [(hw & name & Hst) Hid].
    assert (Hin : n ∈ filter (λ n, id n = pinned) (entities diagnostics)).
    { apply list_elem_of_filter. split; [done|]. apply entities_stored. eauto. }
    destruct (head (filter (λ n, id n = pinned) (entities diagnostics)))
      as [n'|] eqn:E.
    + f_equal. apply head_Some_elem_of in E.
      apply list_elem_of_filter in E as [Hid' Hin'].
      apply entities_stored in Hin' as (hw' & name' & Hst').
      destruct (Hwk _ _ _ Hst) as (Hn & Hh & Hm).
      destruct (Hwk _ _ _ Hst') as (Hn' & Hh' & Hm').
      assert (hw' = hw ∧ name' = name) as [-> ->].
      { apply diagnostic_id_inj; try done. congruence. }
      apply stored_at_lookup in Hst, Hst'. congruence.
    + apply head_None in E. rewrite E in Hin. by apply elem_of_nil in Hin.
Qed.

(** The code resolves an id of the expected form to the entity that has
    this id. *)
Lemma pinnedNode_spec diagnostics pinned :
  well_keyed diagnostics → is_diagnostic_id pinned →
  pinnedNode diagnostics pinned = spec_pinned_entity diagnostics pinned.
Proof.
  intros Hwk (hw & name & -> & Hh & Hn).
  rewrite (pinnedNode_diagnostic_id _ _ _ Hh Hn).
  destruct (diagnostics !! hw ≫= λ byName, byName !! name) as [n|] eqn:E.
  - symmetry. apply (spec_pinned_entity_stored _ _ _ Hwk).
    apply stored_at_lookup in E. split; [eauto|]. by apply (Hwk _ _ _ E).
  - destruct (spec_pinned_entity diagnostics (diagnostic_id hw name))
      as [n|] eqn:E'; [|done].
    apply (spec_pinned_entity_stored _ _ _ Hwk) in E'
      as [(hw' & name' & Hst') Hid].
    destruct (Hwk _ _ _ Hst') as (Hn' & Hh' & Hm').
    assert (hw' = hw ∧ name' = name) as [-> ->].
    { apply diagnostic_id_inj; try done. congruence. }
    apply stored_at_lookup in Hst'. congruence.
Qed.

Lemma pinnedNodes_spec_entities diagnostics ids :
  well_keyed diagnostics → Forall is_diagnostic_id ids →
  omap (pinnedNode diagnostics) ids = omap (spec_pinned_entity diagnostics) ids.
Proof.
  intros Hwk Hids. apply list_omap_ext.
  induction Hids as [|pinned ids Hid Hids IH]; constructor; [|done].
  rewrite (pinnedNode_spec _ _ Hwk Hid).
  by destruct (spec_pinned_entity diagnostics pinned).
Qed.

Section pinned_first.
Context `{DiagnosticsUtil}.

(** C5: with diagnostics to show that are keyed by their ids, and pinned
    ids of that form, the rows start with the pinned entities (for each
    pinned id, the entity of the diagnostics that has this id) that are
    at or above the minimum level, in the order in which they were
    pinned, and the sorted entities at or above that level follow. The
    first rows are the same whatever the hardware id filter and the sort
    setting are. Pinning an entity puts its id at the end of the pinned
    list, and unpinning then pinning it again moves its id, and its row,
    to the end. *)
Theorem pinned_rows_first (config : DiagnosticSummaryConfig)
    (diagnostics : gmap string (gmap string DiagnosticInfo)) :
  size diagnostics ≠ 0 → well_keyed diagnostics →
  Forall is_diagnostic_id (pinnedIds config) →
  rendered config diagnostics
  = spec_pinned_rows (minLevel config) (pinnedIds config) diagnostics
    ++ filter (λ n, (minLevel config ≤ level (status n))%Z)
         (sortedNodes config diagnostics)
  ∧ (∀ pinned n,
       spec_pinned_entity diagnostics pinned = Some n
       ↔ (∃ hw name, stored_at diagnostics hw name n) ∧ id n = pinned)
  ∧ (∀ config',
       pinnedIds config' = pinnedIds config → minLevel config' = minLevel config →
       ∃ rest, rendered config' diagnostics
               = spec_pinned_rows (minLevel config) (pinnedIds config) diagnostics
                 ++ rest)
  ∧ (∀ info, id info ∉ pinnedIds config →
       pinnedIds (togglePinned config info) = pinnedIds config ++ [id info])
  ∧ (∀ info, id info ∈ pinnedIds config →
       pinnedIds (togglePinned (togglePinned config info) info)
       = filter (λ el, el ≠ id info) (pinnedIds config) ++ [id info]
       ∧ ∃ rest,
           rendered (togglePinned (togglePinned config info) info) diagnostics
           = spec_pinned_rows (minLevel config)
               (filter (λ el, el ≠ id info) (pinnedIds config)) diagnostics
             ++ spec_pinned_rows (minLevel config) [id info] diagnostics
             ++ rest).
Proof.
  intros Hs Hwk Hids.
  assert (Hr : ∀ c, Forall is_diagnostic_id (pinnedIds c) →
                    rendered c diagnostics
                    = spec_pinned_rows (minLevel c) (pinnedIds c) diagnostics
                      ++ filter (λ n, (minLevel c ≤ level (status n))%Z)
                           (sortedNodes c diagnostics)).
  { intros c Hc. rewrite (rendered_nodes _ _ Hs).
    unfold nodes, compact, pinnedNodes, filterMap, spec_pinned_rows.
    rewrite filter_app. by rewrite (pinnedNodes_spec_entities _ _ Hwk Hc). }
  split; [by apply Hr|]. split; [|split; [|split]].
  - intros pinned n. by apply spec_pinned_entity_stored.
  - intros config' Hp Hm. rewrite Hr by (by rewrite Hp). rewrite Hp, Hm. eauto.
  - intros info Hi. simpl. by apply toggle_absent.
  - intros info Hi. simpl. rewrite (toggle_twice _ _ Hi). split; [done|].
    assert (Hids' : Forall is_diagnostic_id
                      (filter (λ el, el ≠ id info) (pinnedIds config)
                       ++ [id info])).
    { rewrite Forall_forall in Hids. apply Forall_app. split.
      - apply Forall_forall. intros x [_ Hx]%list_elem_of_filter.
        by apply Hids.
      - apply Forall_singleton. by apply Hids. }
    eexists. rewrite Hr; cbn [pinnedIds minLevel togglePinned];
      rewrite (toggle_twice _ _ Hi); [|done].
    unfold spec_pinned_rows at 1. rewrite omap_app, filter_app.
    rewrite <- (assoc_L (++)). reflexivity.
Qed.

End pinned_first.

(** *** The property at work on the sample data *)

Lemma sample_diagnostics_well_keyed : well_keyed sample_diagnostics.
Proof.
  intros hw name n (byName & Hb & Hn). unfold sample_diagnostics in Hb.
  apply lookup_singleton_Some in Hb as [<- <-].
  apply lookup_insert_Some in Hn as [[<- <-]|[_ Hn]]; [by vm_compute|].
  apply lookup_singleton_Some in Hn as [<- <-]. by vm_compute.
Defined.

Lemma pinned_rows_first_witness :
  rendered (H := sample_util) sample_pinned_config sample_diagnostics
  = [sample_info "hw" "loud" 2; sample_info "hw" "quiet" 0]
  ∧ spec_pinned_rows 0 ["|hw|loud|"] sample_diagnostics
    = [sample_info "hw" "loud" 2].
Proof.
  destruct (pinned_rows_first (H := sample_util) sample_pinned_config
              sample_diagnostics) as (H1 & _).
  - vm_compute. discriminate.
  - exact sample_diagnostics_well_keyed.
  - repeat constructor. exists "hw", "loud". split; [reflexivity|].
    split; reflexivity.
  - split; [|vm_compute; reflexivity].
    etransitivity; [exact H1|]. vm_compute. reflexivity.
Defined.

(** An entity whose name contains the separator is not found by its id:
    pinned and at or above the minimum level, it gets no pinned row. *)
Lemma pinned_name_with_separator_not_found :
  stored_at sample_separator_diagnostics "hw" "a|b" (sample_info "hw" "a|b" 2)
  ∧ id (sample_info "hw" "a|b" 2) = "|hw|a|b|"
  ∧ pinnedNode sample_separator_diagnostics "|hw|a|b|" = None.
Proof.
  split; [|split]; [|reflexivity|vm_compute; reflexivity].
  eexists. split; vm_compute; reflexivity.
Qed.

End DiagnosticsPinnedFacts.

(** ** More facts about the chart worker bridge *)

Module ChartMoreFacts.
Import Js ChartBridge ChartMore ChartBridgeFacts.

(** *** Listeners of the fake node *)

Lemma listeners_on emitter eventName fn name :
  listeners (on emitter eventName fn) name
  = listeners emitter name ++ (if decide (eventName = name) then [fn] else []).
Proof.
  unfold listeners, on, EventEmitter. rewrite filter_app, fmap_app. f_equal.
  rewrite filter_cons. simpl. by case_decide.
Qed.

Lemma listeners_off emitter eventName fn name :
  listeners (off emitter eventName fn) name
  = if decide (name = eventName) then filter (λ g, g ≠ fn) (listeners emitter name)
    else listeners emitter name.
Proof.
  unfold listeners, off, EventEmitter.
  destruct (decide (name = eventName)) as [->|He].
  - induction emitter as [|[n g] emitter IH]; [done|].
    rewrite (filter_cons (λ registration, registration.1 = eventName)).
    rewrite (filter_cons (λ registration, ¬ (registration.1 = eventName ∧ _))).
    cbn [fst snd]. destruct (decide (n = eventName)) as [->|Hn].
    + destruct (decide (g = fn)) as [->|Hg].
      * rewrite decide_False by tauto. rewrite IH, fmap_cons. cbn [snd].
        by rewrite filter_cons, decide_False by tauto.
      * rewrite decide_True by tauto. rewrite filter_cons. cbn [fst].
        rewrite decide_True by done. rewrite !fmap_cons. cbn [snd]. rewrite IH.
        by rewrite filter_cons, decide_True.
    + rewrite decide_True by tauto. rewrite filter_cons. cbn [fst].
      by rewrite decide_False.
  - induction emitter as [|[n g] emitter IH]; [done|].
    rewrite (filter_cons (λ registration, registration.1 = name)).
    rewrite (filter_cons (λ registration, ¬ (registration.1 = eventName ∧ _))).
    cbn [fst snd]. destruct (decide (n = name)) as [->|Hn].
    + rewrite decide_True by tauto. rewrite filter_cons. cbn [fst].
      rewrite decide_True by done. rewrite !fmap_cons. by rewrite IH.
    + destruct (decide (¬ (n = eventName ∧ g = fn))).
      * rewrite filter_cons. cbn [fst]. by rewrite decide_False.
      * done.
Qed.

Lemma node_step_NoDup emitter c name :
  NoDup (listeners emitter name) → NoDup (listeners (node_step emitter c) name).
Proof.
  intros Hnd. destruct c as [n [fn|]|n [fn|]]; simpl; try done.
  - case_bool_decide as Hin; [done|]. rewrite listeners_on.
    case_decide as Hd; [subst n|by rewrite app_nil_r].
    apply NoDup_app. split; [done|]. split; [|apply NoDup_singleton].
    intros x Hx ->%list_elem_of_singleton. done.
  - rewrite listeners_off. case_decide; [|done]. by apply NoDup_filter.
Qed.

(** X15: whatever listeners the zoom plugin adds to and removes from the
    fake node, and in whatever order, no listener is ever registered twice
    under one event name, so that an emitted event calls it once; adding a
    listener a second time changes nothing, and so does adding
    [undefined]. *)
Theorem listeners_are_registered_once (calls : list node_call)
    (eventName : string) (fn : option nat) :
  let emitter := foldl node_step [] calls in
  NoDup (listeners emitter eventName)
  ∧ addEventListener (addEventListener emitter eventName fn) eventName fn
    = addEventListener emitter eventName fn
  ∧ addEventListener emitter eventName None = emitter.
Proof.
  intros emitter. split; [|split; [|done]].
  - subst emitter.
    assert (Hgen : ∀ e, NoDup (listeners e eventName) →
                        NoDup (listeners (foldl node_step e calls) eventName)).
    { induction calls as [|c calls IH]; intros e He; [done|].
      simpl. apply IH. by apply node_step_NoDup. }
    apply Hgen. constructor.
  - destruct fn as [fn|]; [|done]. simpl.
    destruct (bool_decide (fn ∈ listeners emitter eventName)) eqn:Hin.
    + by rewrite Hin.
    + rewrite bool_decide_eq_true_2; [done|]. rewrite listeners_on.
      rewrite decide_True by done. apply elem_of_app. right.
      apply list_elem_of_here.
Qed.

Lemma off_unregistered emitter eventName fn :
  fn ∉ listeners emitter eventName → off emitter eventName fn = emitter.
Proof.
  unfold listeners, off, EventEmitter. induction emitter as [|[n g] emitter IH]; [done|].
  rewrite !filter_cons. simpl. intros Hnot.
  destruct (decide (n = eventName)) as [->|Hn]; simpl in *.
  - apply not_elem_of_cons in Hnot as [Hne Hnot].
    rewrite decide_True by (intros [_ ?]; congruence). by rewrite IH.
  - rewrite decide_True by tauto. by rewrite IH.
Qed.

(** X16: removing a listener right after adding it gives back, under
    every event name, the listeners there were before, provided the
    listener was not registered under that name already; and removing a
    listener that is not registered changes no listener list. *)
Theorem removing_an_added_listener (emitter : EventEmitter)
    (eventName : string) (fn : nat) :
  fn ∉ listeners emitter eventName →
  (∀ name,
     listeners (removeEventListener (addEventListener emitter eventName (Some fn))
                  eventName (Some fn)) name
     = listeners emitter name)
  ∧ (∀ name, listeners (removeEventListener emitter eventName (Some fn)) name
             = listeners emitter name).
Proof.
  intros Hnot. simpl. rewrite bool_decide_eq_false_2 by done.
  assert (Hoff : off emitter eventName fn = emitter)
    by by apply off_unregistered.
  split; intros name; [|by rewrite Hoff].
  assert (Hround : off (on emitter eventName fn) eventName fn = emitter).
  { rewrite <- Hoff at 2. unfold on, off, EventEmitter.
    rewrite filter_app, filter_cons. cbn [fst snd].
    rewrite decide_False by tauto. by rewrite app_nil_r. }
  by rewrite Hround.
Qed.

(** X17: a removal is complete and local: afterwards the listener is not
    registered under the event name, however often it was before; the
    other listeners of that name stay, in their order; and the listeners
    of every other event name are untouched. Removing [undefined] does
    nothing. *)
Theorem removal_is_complete_and_local (emitter : EventEmitter)
    (eventName : string) (fn : nat) :
  let removed := removeEventListener emitter eventName (Some fn) in
  (fn ∉ listeners removed eventName)
  ∧ listeners removed eventName
    = filter (λ g, g ≠ fn) (listeners emitter eventName)
  ∧ (∀ g, g ≠ fn →
       (g ∈ listeners removed eventName) ↔ (g ∈ listeners emitter eventName))
  ∧ (∀ name, name ≠ eventName → listeners removed name = listeners emitter name)
  ∧ removeEventListener emitter eventName None = emitter.
Proof.
  intros removed. subst removed. simpl.
  split; [|split; [|split; [|split; [|done]]]].
  - rewrite listeners_off, decide_True by done.
    rewrite list_elem_of_filter. by intros [? _].
  - by rewrite listeners_off, decide_True.
  - intros g Hg. rewrite listeners_off, decide_True by done.
    rewrite list_elem_of_filter. tauto.
  - intros name Hne. by rewrite listeners_off, decide_False.
Qed.

(** *** Elements under an event *)

Lemma omap_length_le {A B} (f : A → option B) (l : list A) :
  length (omap f l) ≤ length l.
Proof.
  induction l as [|x l IH]; [done|].
  change (omap f (x :: l))
    with (match f x with Some y => y :: omap f l | None => omap f l end).
  destruct (f x); simpl; lia.
Qed.

Section elements_facts.
Context `{ChartJsData}.

Lemma collect_omap (c : Chart) (elements : list HitElement) :
  foldl (λ out element,
           match data_of c element with
           | DatumUndefined | DatumNull | DatumNumber _ => out
           | DatumObject o =>
               out ++ [ {| view_x := element_x element;
                           view_y := element_y element; data := o |} ]
           end) [] elements
  = omap (λ element,
            match data_of c element with
            | DatumObject o =>
                Some {| view_x := element_x element;
                        view_y := element_y element; data := o |}
            | _ => None
            end) elements.
Proof.
  assert (Hgen : ∀ acc,
    foldl (λ out element,
             match data_of c element with
             | DatumUndefined | DatumNull | DatumNumber _ => out
             | DatumObject o =>
                 out ++ [ {| view_x := element_x element;
                             view_y := element_y element; data := o |} ]
             end) acc elements
    = acc ++ omap (λ element,
                     match data_of c element with
                     | DatumObject o =>
                         Some {| view_x := element_x element;
                                 view_y := element_y element; data := o |}
                     | _ => None
                     end) elements).
  { induction elements as [|e elements IH]; intros acc; simpl.
    - by rewrite app_nil_r.
    - rewrite IH. destruct (data_of c e); try done. by rewrite <- app_assoc. }
  apply (Hgen []).
Qed.

(** X18: with a chart instance, [getElementsAtEvent] returns and answers,
    for the elements under the event and in their order, with those whose
    data point exists and is an object, each with the position of its
    element and that data point. It never answers with more than there
    are elements; an element whose dataset index or point index is out of
    range, or whose data point is a number or [null], is left out, so
    that the answer is empty when no element has an object data
    point. *)
Theorem elements_with_object_data (event : Event) (m : ChartJSManager)
    (c : Chart) :
  _chartInstance m = Some c →
  let elements := getElementsAtEventForMode c event in
  ∃ out, getElementsAtEvent event m = Return out
    ∧ length out ≤ length elements
    ∧ data <$> out
      = omap (λ element,
                match data_of c element with
                | DatumObject o => Some o
                | _ => None
                end) elements
    ∧ (∀ r, r ∈ out ↔
         ∃ element, element ∈ elements
           ∧ data_of c element = DatumObject (data r)
           ∧ view_x r = element_x element
           ∧ view_y r = element_y element)
    ∧ (∀ element, element ∈ elements →
         chart_datasets c !! datasetIndex element = None →
         ∀ r, r ∈ out →
           ∃ other, other ∈ elements ∧ other ≠ element
             ∧ data_of c other = DatumObject (data r))
    ∧ ((∀ element o, element ∈ elements → data_of c element ≠ DatumObject o) →
       out = []).
Proof.
  intros Hc elements. unfold getElementsAtEvent. rewrite Hc. cbv zeta.
  fold elements. rewrite collect_omap. eexists. split; [reflexivity|].
  assert (Hin : ∀ r,
    r ∈ omap (λ element,
                match data_of c element with
                | DatumObject o =>
                    Some {| view_x := element_x element;
                            view_y := element_y element; data := o |}
                | _ => None
                end) elements
    ↔ ∃ element, element ∈ elements
        ∧ data_of c element = DatumObject (data r)
        ∧ view_x r = element_x element
        ∧ view_y r = element_y element).
  { intros r. rewrite list_elem_of_omap. split.
    - intros (element & Hel & Hr). exists element.
      destruct (data_of c element) eqn:E; try discriminate Hr.
      injection Hr as <-. by simpl.
    - intros (element & Hel & Hd & Hx & Hy). exists element.
      split; [done|]. rewrite Hd. destruct r; simpl in *. by subst. }
  split; [apply omap_length_le|]. split; [|split; [exact Hin|split]].
  - rewrite list_fmap_omap. apply list_omap_ext.
    clear. induction elements as [|e l IH]; constructor; [|done].
    by destruct (data_of c e).
  - intros element Hel Hnone r Hr. apply Hin in Hr as (other & Ho & Hd & _).
    exists other. split; [done|]. split; [|done].
    intros ->. unfold data_of in Hd. by rewrite Hnone in Hd.
  - intros Hno. clear Hin.
    induction elements as [|e l IH]; [done|]. simpl.
    destruct (data_of c e) eqn:E;
      try (apply IH; intros; apply Hno; by right).
    exfalso. eapply (Hno e); [by left|exact E].
Qed.

End elements_facts.

(** *** The datalabels functions *)

Lemma nullish_or_defined v d :
  d ≠ JUndefined → PosesSettings.nullish_or v d ≠ JUndefined.
Proof. intros Hd. by destruct v. Qed.

(** X19: the formatter never answers [undefined], which would make the
    plugin fall back to its default formatting: it answers the [label] of
    a data point that has one and [null], which hides the label, for a
    data point without label, a number or a missing data point. The
    colour function never answers [undefined] or [null]: it answers the
    [labelColor] of the data point if it has one, otherwise the colour the
    options came with, otherwise white. *)
Theorem datalabel_functions_never_answer_undefined (value : datum)
    (configured : jsval) (data : list datum) (dataIndex : nat) :
  datalabels_formatter value ≠ JUndefined
  ∧ (∀ o label, value = DatumObject o → o !! "label" = Some label →
       label ≠ JUndefined → label ≠ JNull → datalabels_formatter value = label)
  ∧ (optional_property value "label" = JUndefined →
     datalabels_formatter value = JNull)
  ∧ datalabels_color configured data dataIndex ≠ JUndefined
  ∧ datalabels_color configured data dataIndex ≠ JNull
  ∧ (∀ o colour, data !! dataIndex = Some (DatumObject o) →
       o !! "labelColor" = Some colour →
       colour ≠ JUndefined → colour ≠ JNull →
       datalabels_color configured data dataIndex = colour)
  ∧ (optional_property (default DatumUndefined (data !! dataIndex)) "labelColor"
     = JUndefined →
     datalabels_color configured data dataIndex
     = PosesSettings.nullish_or configured (JStr "white")
     ∧ (configured = JUndefined →
        datalabels_color configured data dataIndex = JStr "white")).
Proof.
  unfold datalabels_formatter, datalabels_color.
  split; [by apply nullish_or_defined|].
  split.
  { intros o label -> Hl Hu Hn. simpl. unfold get. rewrite Hl. simpl.
    by destruct label. }
  split; [by intros ->|].
  assert (Hstatic : PosesSettings.nullish_or configured (JStr "white")
                    ≠ JUndefined
                    ∧ PosesSettings.nullish_or configured (JStr "white") ≠ JNull)
    by (by destruct configured).
  destruct Hstatic as [Hs1 Hs2]. cbv zeta.
  split; [by apply nullish_or_defined|].
  split.
  { destruct (optional_property _ "labelColor"); simpl; done. }
  split.
  { intros o colour -> Hc Hu Hn. simpl. unfold get. rewrite Hc. simpl.
    by destruct colour. }
  intros ->. simpl. split; [done|]. by intros ->.
Qed.

(** *** The click context between requests *)

Section requests_facts.
Context `{ChartJs}.

Lemma getDatalabelAtEvent_with_chart (event : Event) (m : ChartJSManager) c :
  _chartInstance m = Some c → _lastDatalabelClickContext m = None →
  getDatalabelAtEvent event m = (m, Return (ChartBridge.datum (clicked c event))).
Proof.
  intros Hc Hctx. rewrite (getDatalabelAtEvent_consumes event m c Hc), Hctx.
  f_equal.
  - destruct m; simpl in *. by subst.
  - by destruct (clicked c event).
Qed.

Lemma with_chart_none (m : ChartJSManager) :
  _chartInstance m = None → with_chart m None = m.
Proof. destruct m; simpl. by intros ->. Qed.

Lemma serve_frame (m : ChartJSManager) (r : request) :
  _lastDatalabelClickContext m = None →
  _lastDatalabelClickContext (serve m r) = None
  ∧ (is_Some (_chartInstance (serve m r)) ↔ is_Some (_chartInstance m))
  ∧ (_chartInstance m = None → serve m r = m).
Proof.
  intros Hctx. destruct r as [op|event|]; simpl.
  - destruct (perform_frame op m) as (H1 & H2 & H3). by rewrite H1.
  - destruct (_chartInstance m) as [c|] eqn:Hc.
    + rewrite (getDatalabelAtEvent_with_chart event m c Hc Hctx). simpl.
      by rewrite Hc.
    + unfold getDatalabelAtEvent. rewrite Hc. simpl. by rewrite Hc.
  - split; [done|]. split.
    + destruct (_chartInstance m); simpl; split; intros [? ?]; eauto; done.
    + intros Hc. rewrite Hc. simpl. by apply with_chart_none.
Qed.

(** X20: starting from a manager without stored click context, after any
    sequence of operations, datalabel queries and [destroy] calls no click
    context is stored, and a chart instance is held exactly if one was
    held at the start ([destroy] does not drop it). A datalabel query then
    leaves the manager as it is and answers with the data point of the
    label that its own event clicked, and with [undefined] when the event
    clicked none or the options have no datalabels listener. Without
    chart instance no request changes the manager. *)
Theorem click_context_never_outlives_a_query (m0 : ChartJSManager)
    (requests : list request) :
  _lastDatalabelClickContext m0 = None →
  let m := foldl serve m0 requests in
  _lastDatalabelClickContext m = None
  ∧ (is_Some (_chartInstance m) ↔ is_Some (_chartInstance m0))
  ∧ (∀ event c, _chartInstance m = Some c →
       getDatalabelAtEvent event m = (m, Return (ChartBridge.datum (clicked c event))))
  ∧ (_chartInstance m0 = None → m = m0).
Proof.
  intros H0 m.
  assert (Hinv : _lastDatalabelClickContext m = None
                 ∧ (is_Some (_chartInstance m) ↔ is_Some (_chartInstance m0))
                 ∧ (_chartInstance m0 = None → m = m0)).
  { subst m. revert m0 H0. induction requests as [|r requests IH]; intros m0 H0.
    - done.
    - simpl. destruct (serve_frame m0 r H0) as (H1 & H2 & H3).
      destruct (IH (serve m0 r) H1) as (I1 & I2 & I3).
      split; [done|]. split; [by rewrite I2|].
      intros Hnone. rewrite I3; rewrite (H3 Hnone); done. }
  destruct Hinv as (H1 & H2 & H3).
  split; [done|]. split; [done|]. split; [|done].
  intros event c Hc. by apply getDatalabelAtEvent_with_chart.
Qed.

End requests_facts.

(** *** The properties at work on the sample data *)

Lemma removing_an_added_listener_witness :
  listeners (removeEventListener (addEventListener [("wheel", 1)] "wheel" (Some 2))
               "wheel" (Some 2)) "wheel"
  = listeners [("wheel", 1)] "wheel".
Proof.
  apply (removing_an_added_listener [("wheel", 1)] "wheel" 2).
  vm_compute. intros Hin. apply list_elem_of_singleton in Hin. discriminate Hin.
Defined.

Lemma elements_with_object_data_witness :
  ∃ out,
    getElementsAtEvent (H := sample_chartjs) (H0 := sample_chartjs_data)
      true manager_with_chart = Return out
    ∧ length out ≤ 3.
Proof.
  pose proof (elements_with_object_data (H := sample_chartjs)
                (H0 := sample_chartjs_data) true manager_with_chart _
                eq_refl) as Hout.
  cbv zeta in Hout. destruct Hout as (out & Hret & Hlen & _).
  exists out. split; [exact Hret|exact Hlen].
Defined.

Lemma click_context_never_outlives_a_query_witness :
  _lastDatalabelClickContext
    (foldl (serve (H := sample_chartjs)) manager_with_chart
       [GetDatalabelAtEvent (H := sample_chartjs) (true : bool);
        Destroy (H := sample_chartjs)]) = None.
Proof.
  apply (click_context_never_outlives_a_query (H := sample_chartjs)
           manager_with_chart).
  reflexivity.
Defined.

End ChartMoreFacts.
